(** * TimeMarketplaceFHE: the offer ledger and the purchase reconciliation indexer

    A shallow embedding of the Solidity contract [TimeMarketplaceFHE]
    (offer creation, purchase, deactivation, reveal request and reveal
    callback) and of the TypeScript read side [fetchPurchaseHistory], together
    with the properties of the offer lifecycle that the design document states.

    Conventions of the embedding:
    - [uint256], [address] and [bytes32] values are integers ([Z]); Solidity 0.8
      checked arithmetic is written out and reverts on overflow or underflow;
      explicit narrowing casts ([uint64(x)], [uint32(x)]) wrap around.
    - a call either returns the new ledger or reverts; a reverted transaction
      leaves the ledger as it was ([step]).
    - Solidity [mapping]s are finite maps read with a zero default; dynamic
      arrays are lists.
    - the FHE library, the decryption oracle and the recipients of value
      transfers are outside the repository: they are the fields of the class
      [FHEVM] and of the transaction environment [Env].  A recipient is
      modelled by whether it accepts a transfer and by the calls it makes
      back into the contract while it receives it: [call{value: v}("")]
      forwards all gas, and only the functions marked [nonReentrant] refuse
      such a call.
    - the functions inherited from Ownable only change [owner]; reachability
      lets the owner change freely. *)

From stdpp Require Import gmap strings list fin_maps pretty.
From Stdlib Require Import ZArith Lia.

Local Open Scope Z_scope.

(** ** Machine types *)

Abbreviation uint256 := Z (only parsing).
Abbreviation address := Z (only parsing).
Abbreviation handle := Z (only parsing).
Abbreviation bytes := (list Byte.byte) (only parsing).

Global Instance byte_eq_dec : EqDecision Byte.byte := Byte.byte_eq_dec.

Definition MAX_UINT256 : Z := 2 ^ 256 - 1.
Definition MAX_UINT64 : Z := 2 ^ 64 - 1.
Definition MAX_UINT32 : Z := 2 ^ 32 - 1.
Definition MAX_ADDRESS : Z := 2 ^ 160 - 1.
Definition ONE_DAY : Z := 86400.

Definition is_uint256 (x : Z) : Prop := 0 ≤ x ≤ MAX_UINT256.
Definition is_address (x : Z) : Prop := 0 ≤ x ≤ MAX_ADDRESS.

(** Explicit narrowing conversions truncate. *)
Definition uint64 (x : Z) : Z := x `mod` 2 ^ 64.
Definition uint32 (x : Z) : Z := x `mod` 2 ^ 32.

(** ** Results of a call: a value, or a revert with its reason *)

Inductive Result (A : Type) : Type :=
| Ok (a : A)
| Revert (reason : string).
Arguments Ok {A} a.
Arguments Revert {A} reason.

Global Instance result_ret : MRet Result := fun A a => Ok a.
Global Instance result_bind : MBind Result := fun A B f m =>
  match m with
  | Ok a => f a
  | Revert r => Revert r
  end.

Definition require (b : bool) (reason : string) : Result unit :=
  if b then Ok tt else Revert reason.

Definition is_ok {A} (r : Result A) : bool :=
  match r with Ok _ => true | Revert _ => false end.

(** Checked arithmetic of Solidity 0.8: Panic(0x11) on overflow/underflow. *)
Definition PANIC_ARITH : string := "Panic(0x11)".

Definition checked_add (a b : Z) : Result Z :=
  if a + b <=? MAX_UINT256 then Ok (a + b) else Revert PANIC_ARITH.
Definition checked_mul (a b : Z) : Result Z :=
  if a * b <=? MAX_UINT256 then Ok (a * b) else Revert PANIC_ARITH.
Definition checked_sub (a b : Z) : Result Z :=
  if b <=? a then Ok (a - b) else Revert PANIC_ARITH.

(** ** ABI decoding of [(uint64, uint32)] from a byte string

    Two 32-byte big-endian words; the decoder reverts on a short input and on
    a word outside the range of its type. *)

Definition be_to_Z (bs : bytes) : Z :=
  fold_left (fun acc b => acc * 256 + Z.of_N (Byte.to_N b)) bs 0.

Definition abi_decode_uint64_uint32 (cleartexts : bytes) : Result (Z * Z) :=
  if Z.of_nat (length cleartexts) <? 64 then Revert "abi.decode: too short"
  else
    let w0 := be_to_Z (take 32 cleartexts) in
    let w1 := be_to_Z (take 32 (drop 32 cleartexts)) in
    if (w0 <=? MAX_UINT64) && (w1 <=? MAX_UINT32) then Ok (w0, w1)
    else Revert "abi.decode: out of range".

(** The inverse direction, used to build inputs: one 32-byte big-endian word. *)
Fixpoint be_of_Z (n : nat) (v : Z) : bytes :=
  match n with
  | O => []
  | S n' =>
      be_of_Z n' (v / 256) ++
      [default Byte.x00 (Byte.of_N (Z.to_N (v `mod` 256)))]
  end.
Definition abi_word (v : Z) : bytes := be_of_Z 32 v.
Definition abi_encode_words (vs : list Z) : bytes := concat (map abi_word vs).

(** ** Data model *)

Module Offer.
Record t : Type := mk {
  id : uint256;
  creator : address;
  title : string;
  description : string;
  publicPrice : uint256;
  duration : uint256;
  slots : uint256;
  availableSlots : uint256;
  isActive : bool;
  createdAt : uint256;
  expiresAt : uint256;
  encryptedPrice : handle;
  encryptedDuration : handle;
  encryptedSlots : handle
}.

(** The value a mapping returns for a key never written. *)
Definition zero : t := mk 0 0 "" "" 0 0 0 0 false 0 0 0 0 0.

Definition set_publicPrice (v : uint256) (s : t) : t :=
  {| id := id s; creator := creator s; title := title s; description := description s;
     publicPrice := v; duration := duration s; slots := slots s;
     availableSlots := availableSlots s; isActive := isActive s; createdAt := createdAt s;
     expiresAt := expiresAt s; encryptedPrice := encryptedPrice s;
     encryptedDuration := encryptedDuration s; encryptedSlots := encryptedSlots s |}.

Definition set_slots (v : uint256) (s : t) : t :=
  {| id := id s; creator := creator s; title := title s; description := description s;
     publicPrice := publicPrice s; duration := duration s; slots := v;
     availableSlots := availableSlots s; isActive := isActive s; createdAt := createdAt s;
     expiresAt := expiresAt s; encryptedPrice := encryptedPrice s;
     encryptedDuration := encryptedDuration s; encryptedSlots := encryptedSlots s |}.

Definition set_availableSlots (v : uint256) (s : t) : t :=
  {| id := id s; creator := creator s; title := title s; description := description s;
     publicPrice := publicPrice s; duration := duration s; slots := slots s;
     availableSlots := v; isActive := isActive s; createdAt := createdAt s;
     expiresAt := expiresAt s; encryptedPrice := encryptedPrice s;
     encryptedDuration := encryptedDuration s; encryptedSlots := encryptedSlots s |}.

Definition set_isActive (v : bool) (s : t) : t :=
  {| id := id s; creator := creator s; title := title s; description := description s;
     publicPrice := publicPrice s; duration := duration s; slots := slots s;
     availableSlots := availableSlots s; isActive := v; createdAt := createdAt s;
     expiresAt := expiresAt s; encryptedPrice := encryptedPrice s;
     encryptedDuration := encryptedDuration s; encryptedSlots := encryptedSlots s |}.

Definition set_encryptedPrice (v : handle) (s : t) : t :=
  {| id := id s; creator := creator s; title := title s; description := description s;
     publicPrice := publicPrice s; duration := duration s; slots := slots s;
     availableSlots := availableSlots s; isActive := isActive s; createdAt := createdAt s;
     expiresAt := expiresAt s; encryptedPrice := v;
     encryptedDuration := encryptedDuration s; encryptedSlots := encryptedSlots s |}.

Definition set_encryptedSlots (v : handle) (s : t) : t :=
  {| id := id s; creator := creator s; title := title s; description := description s;
     publicPrice := publicPrice s; duration := duration s; slots := slots s;
     availableSlots := availableSlots s; isActive := isActive s; createdAt := createdAt s;
     expiresAt := expiresAt s; encryptedPrice := encryptedPrice s;
     encryptedDuration := encryptedDuration s; encryptedSlots := v |}.
End Offer.

Module Purchase.
Record t : Type := mk {
  offerId : uint256;
  buyer : address;
  slots : uint256;
  totalPrice : uint256;
  timestamp : uint256
}.
Definition zero : t := mk 0 0 0 0 0.
End Purchase.

(** Who an ACL grant is made to: the contract itself ([FHE.allowThis]) or an
    account ([FHE.allow]). *)
Inductive Grantee : Type :=
| ThisContract
| Account (a : address).

Inductive Event : Type :=
| OfferCreated (offerId : uint256) (creator : address) (title : string)
    (publicPrice duration slots : uint256)
| OfferPurchased (offerId : uint256) (buyer : address)
    (slots totalPrice slotsLeft : uint256)
| OfferDeactivated (offerId : uint256) (creator : address)
| TallyRevealRequested (offerId : uint256) (priceHandle slotsHandle : handle).

(** The ledger: the contract's storage ([owner] from Ownable, [locked] from
    ReentrancyGuard), its ether balance, and the part of the outside world a
    transaction changes and a revert rolls back (the FHE access-control list
    and the event log). *)
Record Ledger : Type := mkLedger {
  owner : address;
  locked : bool;
  nextOfferId : uint256;
  nextPurchaseId : uint256;
  offers : gmap Z Offer.t;
  purchases : gmap Z Purchase.t;
  userOffers : gmap Z (list Z);
  userPurchases : gmap Z (list Z);
  activeOfferIds : list Z;
  totalOffersCreated : uint256;
  totalPurchases : uint256;
  totalVolume : uint256;
  platformFee : uint256;
  treasury : address;
  balance : Z;
  aclAllowed : list (handle * Grantee);
  publicDecrypt : list handle;
  events : list Event
}.

Definition set_owner (v : address) (s : Ledger) : Ledger :=
  {| owner := v; locked := locked s; nextOfferId := nextOfferId s;
     nextPurchaseId := nextPurchaseId s; offers := offers s; purchases := purchases s;
     userOffers := userOffers s; userPurchases := userPurchases s;
     activeOfferIds := activeOfferIds s; totalOffersCreated := totalOffersCreated s;
     totalPurchases := totalPurchases s; totalVolume := totalVolume s;
     platformFee := platformFee s; treasury := treasury s; balance := balance s;
     aclAllowed := aclAllowed s; publicDecrypt := publicDecrypt s; events := events s |}.

Definition set_locked (v : bool) (s : Ledger) : Ledger :=
  {| owner := owner s; locked := v; nextOfferId := nextOfferId s;
     nextPurchaseId := nextPurchaseId s; offers := offers s; purchases := purchases s;
     userOffers := userOffers s; userPurchases := userPurchases s;
     activeOfferIds := activeOfferIds s; totalOffersCreated := totalOffersCreated s;
     totalPurchases := totalPurchases s; totalVolume := totalVolume s;
     platformFee := platformFee s; treasury := treasury s; balance := balance s;
     aclAllowed := aclAllowed s; publicDecrypt := publicDecrypt s; events := events s |}.

Definition set_nextOfferId (v : uint256) (s : Ledger) : Ledger :=
  {| owner := owner s; locked := locked s; nextOfferId := v;
     nextPurchaseId := nextPurchaseId s; offers := offers s; purchases := purchases s;
     userOffers := userOffers s; userPurchases := userPurchases s;
     activeOfferIds := activeOfferIds s; totalOffersCreated := totalOffersCreated s;
     totalPurchases := totalPurchases s; totalVolume := totalVolume s;
     platformFee := platformFee s; treasury := treasury s; balance := balance s;
     aclAllowed := aclAllowed s; publicDecrypt := publicDecrypt s; events := events s |}.

Definition set_nextPurchaseId (v : uint256) (s : Ledger) : Ledger :=
  {| owner := owner s; locked := locked s; nextOfferId := nextOfferId s;
     nextPurchaseId := v; offers := offers s; purchases := purchases s;
     userOffers := userOffers s; userPurchases := userPurchases s;
     activeOfferIds := activeOfferIds s; totalOffersCreated := totalOffersCreated s;
     totalPurchases := totalPurchases s; totalVolume := totalVolume s;
     platformFee := platformFee s; treasury := treasury s; balance := balance s;
     aclAllowed := aclAllowed s; publicDecrypt := publicDecrypt s; events := events s |}.

Definition set_offers (v : gmap Z Offer.t) (s : Ledger) : Ledger :=
  {| owner := owner s; locked := locked s; nextOfferId := nextOfferId s;
     nextPurchaseId := nextPurchaseId s; offers := v; purchases := purchases s;
     userOffers := userOffers s; userPurchases := userPurchases s;
     activeOfferIds := activeOfferIds s; totalOffersCreated := totalOffersCreated s;
     totalPurchases := totalPurchases s; totalVolume := totalVolume s;
     platformFee := platformFee s; treasury := treasury s; balance := balance s;
     aclAllowed := aclAllowed s; publicDecrypt := publicDecrypt s; events := events s |}.

Definition set_purchases (v : gmap Z Purchase.t) (s : Ledger) : Ledger :=
  {| owner := owner s; locked := locked s; nextOfferId := nextOfferId s;
     nextPurchaseId := nextPurchaseId s; offers := offers s; purchases := v;
     userOffers := userOffers s; userPurchases := userPurchases s;
     activeOfferIds := activeOfferIds s; totalOffersCreated := totalOffersCreated s;
     totalPurchases := totalPurchases s; totalVolume := totalVolume s;
     platformFee := platformFee s; treasury := treasury s; balance := balance s;
     aclAllowed := aclAllowed s; publicDecrypt := publicDecrypt s; events := events s |}.

Definition set_userOffers (v : gmap Z (list Z)) (s : Ledger) : Ledger :=
  {| owner := owner s; locked := locked s; nextOfferId := nextOfferId s;
     nextPurchaseId := nextPurchaseId s; offers := offers s; purchases := purchases s;
     userOffers := v; userPurchases := userPurchases s; activeOfferIds := activeOfferIds s;
     totalOffersCreated := totalOffersCreated s; totalPurchases := totalPurchases s;
     totalVolume := totalVolume s; platformFee := platformFee s; treasury := treasury s;
     balance := balance s; aclAllowed := aclAllowed s; publicDecrypt := publicDecrypt s;
     events := events s |}.

Definition set_userPurchases (v : gmap Z (list Z)) (s : Ledger) : Ledger :=
  {| owner := owner s; locked := locked s; nextOfferId := nextOfferId s;
     nextPurchaseId := nextPurchaseId s; offers := offers s; purchases := purchases s;
     userOffers := userOffers s; userPurchases := v; activeOfferIds := activeOfferIds s;
     totalOffersCreated := totalOffersCreated s; totalPurchases := totalPurchases s;
     totalVolume := totalVolume s; platformFee := platformFee s; treasury := treasury s;
     balance := balance s; aclAllowed := aclAllowed s; publicDecrypt := publicDecrypt s;
     events := events s |}.

Definition set_activeOfferIds (v : list Z) (s : Ledger) : Ledger :=
  {| owner := owner s; locked := locked s; nextOfferId := nextOfferId s;
     nextPurchaseId := nextPurchaseId s; offers := offers s; purchases := purchases s;
     userOffers := userOffers s; userPurchases := userPurchases s; activeOfferIds := v;
     totalOffersCreated := totalOffersCreated s; totalPurchases := totalPurchases s;
     totalVolume := totalVolume s; platformFee := platformFee s; treasury := treasury s;
     balance := balance s; aclAllowed := aclAllowed s; publicDecrypt := publicDecrypt s;
     events := events s |}.

Definition set_totalOffersCreated (v : uint256) (s : Ledger) : Ledger :=
  {| owner := owner s; locked := locked s; nextOfferId := nextOfferId s;
     nextPurchaseId := nextPurchaseId s; offers := offers s; purchases := purchases s;
     userOffers := userOffers s; userPurchases := userPurchases s;
     activeOfferIds := activeOfferIds s; totalOffersCreated := v;
     totalPurchases := totalPurchases s; totalVolume := totalVolume s;
     platformFee := platformFee s; treasury := treasury s; balance := balance s;
     aclAllowed := aclAllowed s; publicDecrypt := publicDecrypt s; events := events s |}.

Definition set_totalPurchases (v : uint256) (s : Ledger) : Ledger :=
  {| owner := owner s; locked := locked s; nextOfferId := nextOfferId s;
     nextPurchaseId := nextPurchaseId s; offers := offers s; purchases := purchases s;
     userOffers := userOffers s; userPurchases := userPurchases s;
     activeOfferIds := activeOfferIds s; totalOffersCreated := totalOffersCreated s;
     totalPurchases := v; totalVolume := totalVolume s; platformFee := platformFee s;
     treasury := treasury s; balance := balance s; aclAllowed := aclAllowed s;
     publicDecrypt := publicDecrypt s; events := events s |}.

Definition set_totalVolume (v : uint256) (s : Ledger) : Ledger :=
  {| owner := owner s; locked := locked s; nextOfferId := nextOfferId s;
     nextPurchaseId := nextPurchaseId s; offers := offers s; purchases := purchases s;
     userOffers := userOffers s; userPurchases := userPurchases s;
     activeOfferIds := activeOfferIds s; totalOffersCreated := totalOffersCreated s;
     totalPurchases := totalPurchases s; totalVolume := v; platformFee := platformFee s;
     treasury := treasury s; balance := balance s; aclAllowed := aclAllowed s;
     publicDecrypt := publicDecrypt s; events := events s |}.

Definition set_platformFee (v : uint256) (s : Ledger) : Ledger :=
  {| owner := owner s; locked := locked s; nextOfferId := nextOfferId s;
     nextPurchaseId := nextPurchaseId s; offers := offers s; purchases := purchases s;
     userOffers := userOffers s; userPurchases := userPurchases s;
     activeOfferIds := activeOfferIds s; totalOffersCreated := totalOffersCreated s;
     totalPurchases := totalPurchases s; totalVolume := totalVolume s; platformFee := v;
     treasury := treasury s; balance := balance s; aclAllowed := aclAllowed s;
     publicDecrypt := publicDecrypt s; events := events s |}.

Definition set_treasury (v : address) (s : Ledger) : Ledger :=
  {| owner := owner s; locked := locked s; nextOfferId := nextOfferId s;
     nextPurchaseId := nextPurchaseId s; offers := offers s; purchases := purchases s;
     userOffers := userOffers s; userPurchases := userPurchases s;
     activeOfferIds := activeOfferIds s; totalOffersCreated := totalOffersCreated s;
     totalPurchases := totalPurchases s; totalVolume := totalVolume s;
     platformFee := platformFee s; treasury := v; balance := balance s;
     aclAllowed := aclAllowed s; publicDecrypt := publicDecrypt s; events := events s |}.

Definition set_balance (v : Z) (s : Ledger) : Ledger :=
  {| owner := owner s; locked := locked s; nextOfferId := nextOfferId s;
     nextPurchaseId := nextPurchaseId s; offers := offers s; purchases := purchases s;
     userOffers := userOffers s; userPurchases := userPurchases s;
     activeOfferIds := activeOfferIds s; totalOffersCreated := totalOffersCreated s;
     totalPurchases := totalPurchases s; totalVolume := totalVolume s;
     platformFee := platformFee s; treasury := treasury s; balance := v;
     aclAllowed := aclAllowed s; publicDecrypt := publicDecrypt s; events := events s |}.

Definition set_aclAllowed (v : list (handle * Grantee)) (s : Ledger) : Ledger :=
  {| owner := owner s; locked := locked s; nextOfferId := nextOfferId s;
     nextPurchaseId := nextPurchaseId s; offers := offers s; purchases := purchases s;
     userOffers := userOffers s; userPurchases := userPurchases s;
     activeOfferIds := activeOfferIds s; totalOffersCreated := totalOffersCreated s;
     totalPurchases := totalPurchases s; totalVolume := totalVolume s;
     platformFee := platformFee s; treasury := treasury s; balance := balance s;
     aclAllowed := v; publicDecrypt := publicDecrypt s; events := events s |}.

Definition set_publicDecrypt (v : list handle) (s : Ledger) : Ledger :=
  {| owner := owner s; locked := locked s; nextOfferId := nextOfferId s;
     nextPurchaseId := nextPurchaseId s; offers := offers s; purchases := purchases s;
     userOffers := userOffers s; userPurchases := userPurchases s;
     activeOfferIds := activeOfferIds s; totalOffersCreated := totalOffersCreated s;
     totalPurchases := totalPurchases s; totalVolume := totalVolume s;
     platformFee := platformFee s; treasury := treasury s; balance := balance s;
     aclAllowed := aclAllowed s; publicDecrypt := v; events := events s |}.

Definition set_events (v : list Event) (s : Ledger) : Ledger :=
  {| owner := owner s; locked := locked s; nextOfferId := nextOfferId s;
     nextPurchaseId := nextPurchaseId s; offers := offers s; purchases := purchases s;
     userOffers := userOffers s; userPurchases := userPurchases s;
     activeOfferIds := activeOfferIds s; totalOffersCreated := totalOffersCreated s;
     totalPurchases := totalPurchases s; totalVolume := totalVolume s;
     platformFee := platformFee s; treasury := treasury s; balance := balance s;
     aclAllowed := aclAllowed s; publicDecrypt := publicDecrypt s; events := v |}.

(** ** External collaborators *)

(** The FHE library and its oracle, as the contract uses them.
    - [verifyInput sender h proof]: the input-proof check behind
      [FHE.fromExternal(h, proof)]; the imported handle is [h] itself.
    - [asEuint64 v], [asEuint32 v]: trivial encryption of a plaintext.
    - [checkSignatures handles cleartexts proof]: the decryption-proof check;
      the library call reverts when it does not hold. *)
Class FHEVM : Type := {
  verifyInput : address → handle → bytes → bool;
  asEuint64 : Z → handle;
  asEuint32 : Z → handle;
  checkSignatures : list handle → bytes → bytes → bool
}.

(** A call of an external function of the contract. *)
Inductive Tx : Type :=
| TxCreateOfferWithFHE (_title _description : string)
    (_publicPrice _duration _slots : uint256)
    (_encryptedPrice _encryptedDuration _encryptedSlots : handle) (inputProof : bytes)
| TxCreateOffer (_title _description : string) (_price _duration _slots : uint256)
| TxPurchaseOffer (_offerId _slots : uint256)
| TxRequestOfferReveal (_offerId : uint256)
| TxResolveOfferCallback (_offerId : uint256) (cleartexts decryptionProof : bytes)
| TxComparePrices (_offerId1 _offerId2 : uint256)
| TxDeactivateOffer (_offerId : uint256)
| TxUpdatePlatformFee (_newFee : uint256)
| TxUpdateTreasury (_newTreasury : address)
| TxEmergencyWithdraw.

(** The environment of one call: the caller, the value sent along, the
    block time, and what the accounts do that the contract sends value to.
    [accepts a v] tells whether the account [a] accepts a transfer of [v] wei
    (a contract recipient may refuse); [reenters n a v] lists the calls that
    are made back into the contract while [a] receives [v] wei in the
    transfer number [n] of the call, each in its own environment.  A call
    that reverts inside a callback is caught by the recipient and changes
    nothing; a recipient that lets the revert through refuses the transfer. *)
#[warnings="-register-all"]
Inductive Env : Type := mkEnv {
  msg_sender : address;
  msg_value : Z;
  block_timestamp : Z;
  accepts : address → Z → bool;
  reenters : nat → address → Z → list (Env * Tx)
}.

(** What the calls back of a recipient do to the ledger. *)
Definition Callback : Type := nat → address → Z → Ledger → Ledger.

(** No recipient calls back. *)
Definition plain : Callback := fun _ _ _ s => s.

(** ** Storage access *)

Definition getOffer (s : Ledger) (i : Z) : Offer.t :=
  default Offer.zero (offers s !! i).
Definition setOffer (i : Z) (o : Offer.t) (s : Ledger) : Ledger :=
  set_offers (<[i := o]> (offers s)) s.
Definition getPurchase (s : Ledger) (i : Z) : Purchase.t :=
  default Purchase.zero (purchases s !! i).
Definition getUserOffers (s : Ledger) (a : address) : list Z :=
  default [] (userOffers s !! a).
Definition getUserPurchases (s : Ledger) (a : address) : list Z :=
  default [] (userPurchases s !! a).

Definition emit (ev : Event) (s : Ledger) : Ledger :=
  set_events (events s ++ [ev]) s.

(** [a.call{value: v}("")], the transfer number [n] of the running call:
    succeeds when the balance covers [v] and the recipient accepts.  The
    value is debited, then the recipient runs with all the gas and makes its
    calls back, [cb n a v]; a refused transfer rolls everything back. *)
Definition call_value (cb : Callback) (n : nat) (e : Env) (a : address) (v : Z)
    (s : Ledger) : bool * Ledger :=
  if (v <=? balance s) && accepts e a v
  then (true, cb n a v (set_balance (balance s - v) s))
  else (false, s).

(** ** The FHE library calls

    The library [@fhevm/solidity] is an external dependency; the contract's
    calls into it are modelled from what the design document says of them. *)

(** Modelled from the spec: [FHE.fromExternal(handle, inputProof)], whose source
    is not part of the repository.  The import of an external handle succeeds
    only with a proof that verifies for the submitter, and yields the handle. *)
Definition fromExternal `{FHEVM} (e : Env) (h : handle) (inputProof : bytes)
  : Result handle :=
  if verifyInput (msg_sender e) h inputProof then Ok h
  else Revert "Invalid input proof".

(** Modelled from the spec: [FHE.allowThis] and [FHE.allow], whose source is
    not part of the repository.  An ACL grant is a pair of an encrypted field
    and a subject; grants are only ever added. *)
Definition allowThis (h : handle) (s : Ledger) : Ledger :=
  set_aclAllowed (aclAllowed s ++ [(h, ThisContract)]) s.
Definition allow (h : handle) (a : address) (s : Ledger) : Ledger :=
  set_aclAllowed (aclAllowed s ++ [(h, Account a)]) s.

(** Modelled from the spec: [FHE.makePubliclyDecryptable], whose source is not
    part of the repository.  Declassification is a state transition of the
    same handle, not a new handle: the handle is returned as it is and is
    recorded as publicly decryptable. *)
Definition makePubliclyDecryptable (h : handle) (s : Ledger) : handle * Ledger :=
  (h, set_publicDecrypt (publicDecrypt s ++ [h]) s).

(** Modelled from the spec: [FHE.toBytes32], whose source is not part of the
    repository; a handle is an opaque fixed-width reference, and this is it. *)
Definition toBytes32 (h : handle) : handle := h.

(** ** Modifiers *)

Definition nonReentrant (body : Ledger → Result Ledger) (s : Ledger) : Result Ledger :=
  if locked s then Revert "ReentrancyGuardReentrantCall"
  else s' ← body (set_locked true s); Ok (set_locked false s').

Definition onlyOwner (e : Env) (s : Ledger) : Result unit :=
  require (msg_sender e =? owner s) "OwnableUnauthorizedAccount".

Definition valid_offer_id (s : Ledger) (i : Z) : bool :=
  (0 <? i) && (i <? nextOfferId s).

(** ** Contract functions *)

(** The constructor. *)
Definition deploy (deployer _treasury : address) : Result Ledger :=
  require (negb (_treasury =? 0)) "Invalid treasury address";;
  Ok {| owner := deployer; locked := false;
        nextOfferId := 1; nextPurchaseId := 1;
        offers := ∅; purchases := ∅; userOffers := ∅; userPurchases := ∅;
        activeOfferIds := [];
        totalOffersCreated := 0; totalPurchases := 0; totalVolume := 0;
        platformFee := 500; treasury := _treasury;
        balance := 0; aclAllowed := []; publicDecrypt := []; events := [] |}.

Definition createOfferWithFHE `{FHEVM} (e : Env)
    (_title _description : string) (_publicPrice _duration _slots : uint256)
    (_encryptedPrice _encryptedDuration _encryptedSlots : handle)
    (inputProof : bytes) : Ledger → Result Ledger :=
  nonReentrant (fun s =>
    require (0 <? Z.of_nat (String.length _title)) "Title cannot be empty";;
    require (0 <? Z.of_nat (String.length _description)) "Description cannot be empty";;
    require (0 <? _publicPrice) "Price must be greater than 0";;
    require (0 <? _duration) "Duration must be greater than 0";;
    require (0 <? _slots) "Slots must be greater than 0";;
    price ← fromExternal e _encryptedPrice inputProof;
    duration ← fromExternal e _encryptedDuration inputProof;
    slots ← fromExternal e _encryptedSlots inputProof;
    let s := allowThis price s in
    let s := allowThis duration s in
    let s := allowThis slots s in
    let s := allow price (msg_sender e) s in
    let s := allow duration (msg_sender e) s in
    let s := allow slots (msg_sender e) s in
    let offerId := nextOfferId s in
    next ← checked_add offerId 1;
    let s := set_nextOfferId next s in
    let currentTime := block_timestamp e in
    secs ← checked_mul _duration ONE_DAY;
    expiresAt ← checked_add currentTime secs;
    let s := setOffer offerId
      {| Offer.id := offerId; Offer.creator := msg_sender e;
         Offer.title := _title; Offer.description := _description;
         Offer.publicPrice := _publicPrice; Offer.duration := _duration;
         Offer.slots := _slots; Offer.availableSlots := _slots;
         Offer.isActive := true;
         Offer.createdAt := currentTime; Offer.expiresAt := expiresAt;
         Offer.encryptedPrice := price; Offer.encryptedDuration := duration;
         Offer.encryptedSlots := slots |} s in
    let s := set_userOffers
      (<[msg_sender e := getUserOffers s (msg_sender e) ++ [offerId]]> (userOffers s)) s in
    let s := set_activeOfferIds (activeOfferIds s ++ [offerId]) s in
    total ← checked_add (totalOffersCreated s) 1;
    let s := set_totalOffersCreated total s in
    Ok (emit (OfferCreated offerId (msg_sender e) _title _publicPrice _duration _slots) s)).

Definition createOffer `{FHEVM} (e : Env)
    (_title _description : string) (_price _duration _slots : uint256)
  : Ledger → Result Ledger :=
  nonReentrant (fun s =>
    require (0 <? Z.of_nat (String.length _title)) "Title cannot be empty";;
    require (0 <? Z.of_nat (String.length _description)) "Description cannot be empty";;
    require (0 <? _price) "Price must be greater than 0";;
    require (_price <=? MAX_UINT64) "Price exceeds uint64 range";;
    require (0 <? _duration) "Duration must be greater than 0";;
    require (0 <? _slots) "Slots must be greater than 0";;
    let offerId := nextOfferId s in
    next ← checked_add offerId 1;
    let s := set_nextOfferId next s in
    let currentTime := block_timestamp e in
    secs ← checked_mul _duration ONE_DAY;
    expiresAt ← checked_add currentTime secs;
    let price := asEuint64 (uint64 _price) in
    let duration := asEuint32 (uint32 _duration) in
    let slots := asEuint32 (uint32 _slots) in
    let s := allowThis price s in
    let s := allowThis duration s in
    let s := allowThis slots s in
    let s := setOffer offerId
      {| Offer.id := offerId; Offer.creator := msg_sender e;
         Offer.title := _title; Offer.description := _description;
         Offer.publicPrice := _price; Offer.duration := _duration;
         Offer.slots := _slots; Offer.availableSlots := _slots;
         Offer.isActive := true;
         Offer.createdAt := currentTime; Offer.expiresAt := expiresAt;
         Offer.encryptedPrice := price; Offer.encryptedDuration := duration;
         Offer.encryptedSlots := slots |} s in
    let s := set_userOffers
      (<[msg_sender e := getUserOffers s (msg_sender e) ++ [offerId]]> (userOffers s)) s in
    let s := set_activeOfferIds (activeOfferIds s ++ [offerId]) s in
    total ← checked_add (totalOffersCreated s) 1;
    let s := set_totalOffersCreated total s in
    Ok (emit (OfferCreated offerId (msg_sender e) _title _price _duration _slots) s)).

(** The loop of [_removeFromActiveOffers]: the first index holding the id is
    overwritten with the last element, and the last element is popped. *)
Definition swap_remove (x : Z) (a : list Z) : list Z :=
  match list_find (fun y => y = x) a with
  | Some (i, _) => take (length a - 1)%nat (<[i := default 0 (last a)]> a)
  | None => a
  end.

Definition _removeFromActiveOffers (_offerId : uint256) (s : Ledger) : Ledger :=
  set_activeOfferIds (swap_remove _offerId (activeOfferIds s)) s.

(** The price split of [purchaseOffer]: [totalPrice], [feeAmount] and
    [creatorAmount], in checked arithmetic. *)
Definition purchase_amounts (publicPrice _slots fee : uint256) : Result (Z * Z * Z) :=
  totalPrice ← checked_mul publicPrice _slots;
  scaled ← checked_mul totalPrice fee;
  let feeAmount := scaled `div` 10000 in
  creatorAmount ← checked_sub totalPrice feeAmount;
  Ok (totalPrice, feeAmount, creatorAmount).

(** [purchaseOffer], block "Update offer". *)
Definition purchase_updateOffer (_offerId _slots : uint256) (s : Ledger)
  : Result Ledger :=
  remaining ← checked_sub (Offer.availableSlots (getOffer s _offerId)) _slots;
  let s := setOffer _offerId (Offer.set_availableSlots remaining (getOffer s _offerId)) s in
  if Offer.availableSlots (getOffer s _offerId) =? 0 then
    let s := setOffer _offerId (Offer.set_isActive false (getOffer s _offerId)) s in
    Ok (_removeFromActiveOffers _offerId s)
  else Ok s.

(** [purchaseOffer], block "Record purchase". *)
Definition purchase_recordPurchase (e : Env) (_offerId _slots totalPrice : uint256)
    (s : Ledger) : Result Ledger :=
  let purchaseId := nextPurchaseId s in
  nextP ← checked_add purchaseId 1;
  let s := set_nextPurchaseId nextP s in
  let s := set_purchases
    (<[purchaseId := {| Purchase.offerId := _offerId; Purchase.buyer := msg_sender e;
                        Purchase.slots := _slots; Purchase.totalPrice := totalPrice;
                        Purchase.timestamp := block_timestamp e |}]> (purchases s)) s in
  let s := set_userPurchases
    (<[msg_sender e := getUserPurchases s (msg_sender e) ++ [purchaseId]]>
       (userPurchases s)) s in
  count ← checked_add (totalPurchases s) 1;
  let s := set_totalPurchases count s in
  volume ← checked_add (totalVolume s) totalPrice;
  Ok (set_totalVolume volume s).

(** [purchaseOffer], blocks "Transfer funds" and "Refund excess payment". *)
Definition purchase_transferFunds (cb : Callback) (e : Env) (_offerId : uint256)
    (totalPrice feeAmount creatorAmount : uint256) (s : Ledger) : Result Ledger :=
  s ← (if 0 <? feeAmount then
         let '(feeSuccess, s) := call_value cb 0 e (treasury s) feeAmount s in
         require feeSuccess "Fee transfer failed";; Ok s
       else Ok s);
  let '(creatorSuccess, s) :=
    call_value cb 1 e (Offer.creator (getOffer s _offerId)) creatorAmount s in
  require creatorSuccess "Creator payment failed";;
  if totalPrice <? msg_value e then
    let '(refundSuccess, s) :=
      call_value cb 2 e (msg_sender e) (msg_value e - totalPrice) s in
    require refundSuccess "Refund failed";; Ok s
  else Ok s.

(** [purchaseOffer], with the calls back of the recipients given by [cb]. *)
Definition purchaseOffer_in (cb : Callback) (e : Env) (_offerId _slots : uint256)
  : Ledger → Result Ledger :=
  fun s0 =>
  (* payable: the attached value is credited before the body runs *)
  nonReentrant (fun s =>
    require (valid_offer_id s _offerId) "Invalid offer ID";;
    require (0 <? _slots) "Must purchase at least 1 slot";;
    let offer := getOffer s _offerId in
    require (Offer.isActive offer) "Offer is not active";;
    require (_slots <=? Offer.availableSlots offer) "Not enough slots available";;
    require (block_timestamp e <=? Offer.expiresAt offer) "Offer has expired";;
    require (negb (msg_sender e =? Offer.creator offer)) "Cannot purchase your own offer";;
    '(totalPrice, feeAmount, creatorAmount) ←
      purchase_amounts (Offer.publicPrice offer) _slots (platformFee s);
    require (totalPrice <=? msg_value e) "Insufficient payment";;
    s ← purchase_updateOffer _offerId _slots s;
    s ← purchase_recordPurchase e _offerId _slots totalPrice s;
    s ← purchase_transferFunds cb e _offerId totalPrice feeAmount creatorAmount s;
    Ok (emit (OfferPurchased _offerId (msg_sender e) _slots totalPrice
                (Offer.availableSlots (getOffer s _offerId))) s))
  (set_balance (balance s0 + msg_value e) s0).

Definition requestOfferReveal (e : Env) (_offerId : uint256) (s : Ledger)
  : Result Ledger :=
  require (valid_offer_id s _offerId) "Invalid offer ID";;
  let offer := getOffer s _offerId in
  require ((msg_sender e =? Offer.creator offer) || (msg_sender e =? owner s))
    "Not authorized";;
  let '(h, s) := makePubliclyDecryptable (Offer.encryptedPrice (getOffer s _offerId)) s in
  let s := setOffer _offerId (Offer.set_encryptedPrice h (getOffer s _offerId)) s in
  let '(h, s) := makePubliclyDecryptable (Offer.encryptedSlots (getOffer s _offerId)) s in
  let s := setOffer _offerId (Offer.set_encryptedSlots h (getOffer s _offerId)) s in
  let priceHandle := toBytes32 (Offer.encryptedPrice (getOffer s _offerId)) in
  let slotsHandle := toBytes32 (Offer.encryptedSlots (getOffer s _offerId)) in
  Ok (emit (TallyRevealRequested _offerId priceHandle slotsHandle) s).

Definition resolveOfferCallback `{FHEVM} (e : Env) (_offerId : uint256)
    (cleartexts decryptionProof : bytes) (s : Ledger) : Result Ledger :=
  require (valid_offer_id s _offerId) "Invalid offer ID";;
  let offer := getOffer s _offerId in
  let handlesList :=
    [toBytes32 (Offer.encryptedPrice offer); toBytes32 (Offer.encryptedSlots offer)] in
  require (checkSignatures handlesList cleartexts decryptionProof)
    "Invalid decryption proof";;
  '(revealedPrice, revealedSlots) ← abi_decode_uint64_uint32 cleartexts;
  let s := setOffer _offerId (Offer.set_publicPrice revealedPrice (getOffer s _offerId)) s in
  let s := setOffer _offerId (Offer.set_slots revealedSlots (getOffer s _offerId)) s in
  Ok s.

(** The comparison itself is computed on the ciphertexts by the FHE library
    and returns an encrypted boolean; the ledger is only read. *)
Definition comparePrices (e : Env) (_offerId1 _offerId2 : uint256) (s : Ledger)
  : Result Ledger :=
  require (valid_offer_id s _offerId1) "Invalid offer ID 1";;
  require (valid_offer_id s _offerId2) "Invalid offer ID 2";;
  let offer1 := getOffer s _offerId1 in
  let offer2 := getOffer s _offerId2 in
  require (Offer.isActive offer1 && Offer.isActive offer2) "Offers must be active";;
  Ok s.

Definition deactivateOffer (e : Env) (_offerId : uint256) (s : Ledger)
  : Result Ledger :=
  require (valid_offer_id s _offerId) "Invalid offer ID";;
  let offer := getOffer s _offerId in
  require ((msg_sender e =? Offer.creator offer) || (msg_sender e =? owner s))
    "Not authorized";;
  require (Offer.isActive offer) "Offer already inactive";;
  let s := setOffer _offerId (Offer.set_isActive false (getOffer s _offerId)) s in
  let s := _removeFromActiveOffers _offerId s in
  Ok (emit (OfferDeactivated _offerId (Offer.creator (getOffer s _offerId))) s).

Definition updatePlatformFee (e : Env) (_newFee : uint256) (s : Ledger)
  : Result Ledger :=
  onlyOwner e s;;
  require (_newFee <=? 1000) "Fee cannot exceed 10%";;
  Ok (set_platformFee _newFee s).

Definition updateTreasury (e : Env) (_newTreasury : address) (s : Ledger)
  : Result Ledger :=
  onlyOwner e s;;
  require (negb (_newTreasury =? 0)) "Invalid treasury address";;
  Ok (set_treasury _newTreasury s).

(** [emergencyWithdraw], with the calls back of the owner given by [cb]. *)
Definition emergencyWithdraw_in (cb : Callback) (e : Env) (s : Ledger)
  : Result Ledger :=
  onlyOwner e s;;
  let bal := balance s in
  require (0 <? bal) "No funds to withdraw";;
  let '(success, s) := call_value cb 0 e (owner s) bal s in
  require success "Withdrawal failed";;
  Ok s.

(** ** Transactions and reachable ledgers *)

(** Every function but [purchaseOffer] is non-payable. *)
Definition nonpayable (e : Env) (body : Ledger → Result Ledger) (s : Ledger)
  : Result Ledger :=
  require (msg_value e =? 0) "non-payable function";; body s.

(** The dispatch of a call, with the calls back of the recipients given by
    [cb]. *)
Definition exec_in `{FHEVM} (cb : Callback) (e : Env) (tx : Tx)
  : Ledger → Result Ledger :=
  match tx with
  | TxCreateOfferWithFHE t d p du sl ep ed es pr =>
      nonpayable e (createOfferWithFHE e t d p du sl ep ed es pr)
  | TxCreateOffer t d p du sl => nonpayable e (createOffer e t d p du sl)
  | TxPurchaseOffer i k => purchaseOffer_in cb e i k
  | TxRequestOfferReveal i => nonpayable e (requestOfferReveal e i)
  | TxResolveOfferCallback i ct pf => nonpayable e (resolveOfferCallback e i ct pf)
  | TxComparePrices i j => nonpayable e (comparePrices e i j)
  | TxDeactivateOffer i => nonpayable e (deactivateOffer e i)
  | TxUpdatePlatformFee f => nonpayable e (updatePlatformFee e f)
  | TxUpdateTreasury a => nonpayable e (updateTreasury e a)
  | TxEmergencyWithdraw => nonpayable e (emergencyWithdraw_in cb e)
  end.

(** A call in its environment: the calls back of a recipient are run one
    after the other on the ledger as it is then, each in its own environment;
    one that reverts leaves the ledger as it found it. *)
Fixpoint exec `{FHEVM} (e : Env) (tx : Tx) (s : Ledger) {struct e} : Result Ledger :=
  exec_in
    (fun n a v s =>
       fold_left
         (fun s et => match exec et.1 et.2 s with Ok s' => s' | Revert _ => s end)
         (reenters e n a v) s)
    e tx s.

(** A reverted transaction persists nothing. *)
Definition step `{FHEVM} (e : Env) (tx : Tx) (s : Ledger) : Ledger :=
  match exec e tx s with
  | Ok s' => s'
  | Revert _ => s
  end.

Definition run `{FHEVM} (txs : list (Env * Tx)) (s : Ledger) : Ledger :=
  fold_left (fun s et => step et.1 et.2 s) txs s.

(** The calls back of the recipients of the environment [e]. *)
Definition callbacks `{FHEVM} (e : Env) : Callback :=
  fun n a v s => run (reenters e n a v) s.

Definition purchaseOffer `{FHEVM} (e : Env) (_offerId _slots : uint256)
  : Ledger → Result Ledger :=
  purchaseOffer_in (callbacks e) e _offerId _slots.

Definition emergencyWithdraw `{FHEVM} (e : Env) : Ledger → Result Ledger :=
  emergencyWithdraw_in (callbacks e) e.

(** Arguments are values of their Solidity types. *)
Definition tx_wf (tx : Tx) : Prop :=
  match tx with
  | TxCreateOfferWithFHE _ _ p du sl ep ed es _ =>
      is_uint256 p ∧ is_uint256 du ∧ is_uint256 sl ∧
      is_uint256 ep ∧ is_uint256 ed ∧ is_uint256 es
  | TxCreateOffer _ _ p du sl => is_uint256 p ∧ is_uint256 du ∧ is_uint256 sl
  | TxPurchaseOffer i k => is_uint256 i ∧ is_uint256 k
  | TxRequestOfferReveal i => is_uint256 i
  | TxResolveOfferCallback i _ _ => is_uint256 i
  | TxComparePrices i j => is_uint256 i ∧ is_uint256 j
  | TxDeactivateOffer i => is_uint256 i
  | TxUpdatePlatformFee f => is_uint256 f
  | TxUpdateTreasury a => is_address a
  | TxEmergencyWithdraw => True
  end.

(** The caller, the value and the time are values of their types, and so
    are those of every call back, which runs in the same block. *)
Inductive env_wf : Env → Prop :=
| env_wf_intro e :
    is_address (msg_sender e) → msg_sender e ≠ 0 →
    is_uint256 (msg_value e) → is_uint256 (block_timestamp e) →
    (∀ n a v e' tx', (e', tx') ∈ reenters e n a v → env_wf e') →
    (∀ n a v e' tx', (e', tx') ∈ reenters e n a v →
       tx_wf tx' ∧ block_timestamp e' = block_timestamp e) →
    env_wf e.

Inductive reachable `{FHEVM} : Ledger → Prop :=
| reachable_deploy deployer _treasury s :
    is_address deployer → deployer ≠ 0 → is_address _treasury →
    deploy deployer _treasury = Ok s →
    reachable s
| reachable_step e tx s :
    reachable s → env_wf e → tx_wf tx →
    reachable (step e tx s)
| reachable_owner a s :
    (* the functions inherited from Ownable hand the ownership over *)
    reachable s → is_address a →
    reachable (set_owner a s).

(** ** Ledger invariants *)

(** The inequality between remaining and total slots, for every stored offer. *)
Definition slots_bounded (s : Ledger) : Prop :=
  ∀ i o, offers s !! i = Some o → Offer.availableSlots o ≤ Offer.slots o.

(** Consistency of the identifiers and of the secondary indices. *)
Record ledger_inv (s : Ledger) : Prop := mk_ledger_inv {
  inv_unlocked : locked s = false;
  inv_next_pos : 0 < nextOfferId s;
  inv_count : totalOffersCreated s = nextOfferId s - 1;
  inv_offers_range : ∀ i o, offers s !! i = Some o → 0 < i < nextOfferId s;
  inv_active_nodup : NoDup (activeOfferIds s);
  inv_active : ∀ i, i ∈ activeOfferIds s ↔ Offer.isActive (getOffer s i) = true;
  inv_user_range : ∀ a i, i ∈ getUserOffers s a → i < nextOfferId s;
  inv_fee : platformFee s ≤ 1000
}.

(** ** Vocabulary of the specifications *)

(** What a successful creation does to the ledger, for both variants. *)
Definition created (e : Env) (o : Offer.t) (s s' : Ledger) : Prop :=
  locked s' = locked s ∧
  nextOfferId s' = nextOfferId s + 1 ∧
  totalOffersCreated s' = totalOffersCreated s + 1 ∧
  offers s' = <[nextOfferId s := o]> (offers s) ∧
  activeOfferIds s' = activeOfferIds s ++ [nextOfferId s] ∧
  userOffers s' =
    <[msg_sender e := getUserOffers s (msg_sender e) ++ [nextOfferId s]]> (userOffers s) ∧
  platformFee s' = platformFee s ∧
  Offer.isActive o = true ∧
  Offer.availableSlots o = Offer.slots o.

(** The wei that leave the contract in the transfer legs of a purchase. *)
Definition transfers_paid (e : Env) (tp fa ca : Z) : Z :=
  (if 0 <? fa then fa else 0) + ca + (if tp <? msg_value e then msg_value e - tp else 0).

(** The offer after [k] of its slots are bought. *)
Definition purchased_offer (o : Offer.t) (k : Z) : Offer.t :=
  let remaining := Offer.availableSlots o - k in
  if remaining =? 0
  then Offer.set_isActive false (Offer.set_availableSlots remaining o)
  else Offer.set_availableSlots remaining o.

(** The ledger after a successful [purchaseOffer] whose recipients make no
    call back, field by field. *)
Definition purchase_result (e : Env) (i k : Z) (s : Ledger) : Ledger :=
  let o := getOffer s i in
  let remaining := Offer.availableSlots o - k in
  let tp := Offer.publicPrice o * k in
  let fa := (tp * platformFee s) `div` 10000 in
  {| owner := owner s; locked := false;
     nextOfferId := nextOfferId s; nextPurchaseId := nextPurchaseId s + 1;
     offers := <[i := purchased_offer o k]> (offers s);
     purchases :=
       <[nextPurchaseId s :=
           {| Purchase.offerId := i; Purchase.buyer := msg_sender e;
              Purchase.slots := k; Purchase.totalPrice := tp;
              Purchase.timestamp := block_timestamp e |}]> (purchases s);
     userOffers := userOffers s;
     userPurchases :=
       <[msg_sender e := getUserPurchases s (msg_sender e) ++ [nextPurchaseId s]]>
         (userPurchases s);
     activeOfferIds :=
       if remaining =? 0 then swap_remove i (activeOfferIds s) else activeOfferIds s;
     totalOffersCreated := totalOffersCreated s;
     totalPurchases := totalPurchases s + 1;
     totalVolume := totalVolume s + tp;
     platformFee := platformFee s; treasury := treasury s;
     balance := balance s + msg_value e - transfers_paid e tp fa (tp - fa);
     aclAllowed := aclAllowed s; publicDecrypt := publicDecrypt s;
     events := events s ++ [OfferPurchased i (msg_sender e) k tp remaining] |}.

(** The checks a purchase has to pass. *)
Definition purchase_guard (e : Env) (i k : Z) (s : Ledger) : Prop :=
  let o := getOffer s i in
  Offer.isActive o = true ∧ 0 < Offer.availableSlots o ∧
  k ≤ Offer.availableSlots o ∧
  block_timestamp e ≤ Offer.expiresAt o ∧
  msg_sender e ≠ Offer.creator o ∧
  Offer.publicPrice o * k ≤ msg_value e.

(** The three transfer legs of a purchase are accepted. *)
Definition transfers_accepted (e : Env) (i k : Z) (s : Ledger) : Prop :=
  let o := getOffer s i in
  let tp := Offer.publicPrice o * k in
  let fa := (tp * platformFee s) `div` 10000 in
  (0 < fa → accepts e (treasury s) fa = true) ∧
  accepts e (Offer.creator o) (tp - fa) = true ∧
  (tp < msg_value e → accepts e (msg_sender e) (msg_value e - tp) = true).

(** The caller is the offer's creator or the platform owner. *)
Definition authorized (e : Env) (i : Z) (s : Ledger) : Prop :=
  msg_sender e = Offer.creator (getOffer s i) ∨ msg_sender e = owner s.

(** The fields the invariant reads besides the offers and the active list. *)
Definition same_config (s s' : Ledger) : Prop :=
  locked s' = locked s ∧ nextOfferId s' = nextOfferId s ∧
  totalOffersCreated s' = totalOffersCreated s ∧
  userOffers s' = userOffers s ∧ platformFee s' = platformFee s.

(** ** A transparent instance of the FHE library

    Handles are the plaintexts themselves: every external handle imports, a
    trivial encryption is its plaintext, and a decryption is accepted exactly
    when the cleartext blob is the ABI encoding of the plaintexts behind the
    handles presented. *)
Definition idealFHE : FHEVM :=
  {| verifyInput := fun _ _ _ => true;
     asEuint64 := fun v => v;
     asEuint32 := fun v => v;
     checkSignatures := fun handles cleartexts _ =>
       bool_decide (cleartexts = abi_encode_words handles) |}.

(** ** The purchase reconciliation indexer ([fetchPurchaseHistory]) *)

Module Indexer.

(** One entry of the [OfferPurchased] log as the indexer sees it: the parsed
    arguments [(offerId, slots, totalPrice)] ([None] when [parseLog] throws),
    the timestamp of its block ([None] when the block is missing) and the
    transaction hash. *)
Record Log : Type := mkLog {
  args : option (Z * Z * Z);
  blockTimestamp : option Z;
  transactionHash : string
}.

Record PurchaseHistoryItem : Type := mkItem {
  purchase : Purchase.t;
  id : Z;
  txHash : option string;
  offer : option Offer.t
}.

Definition buildPurchaseKey (offerId slots totalPrice timestamp : Z) : string :=
  pretty offerId +:+ "-" +:+ pretty slots +:+ "-" +:+
  pretty totalPrice +:+ "-" +:+ pretty timestamp.

Definition logKey (log : Log) : option string :=
  match args log with
  | Some (offerId, slots, totalPrice) =>
      Some (buildPurchaseKey offerId slots totalPrice (default 0 (blockTimestamp log)))
  | None => None
  end.

Definition purchaseKey (p : Purchase.t) : string :=
  buildPurchaseKey (Purchase.offerId p) (Purchase.slots p)
    (Purchase.totalPrice p) (Purchase.timestamp p).

(** [logs.forEach]: a later entry with the same key overwrites. *)
Definition eventMap (logs : list Log) : gmap string string :=
  fold_left (fun m log =>
    match logKey log with
    | Some key => <[key := transactionHash log]> m
    | None => m
    end) logs ∅.

Definition purchaseStructs (s : Ledger) (ids : list Z) : list (Z * Purchase.t) :=
  map (fun id => (id, getPurchase s id)) ids.

Definition offersMap (s : Ledger) (ps : list (Z * Purchase.t)) : gmap Z Offer.t :=
  let offerIds := remove_dups (map (fun p => Purchase.offerId p.2) ps) in
  list_to_map (map (fun offerId => (offerId, getOffer s offerId)) offerIds).

Definition fetchPurchaseHistory (s : Ledger) (logs : list Log) (buyer : address)
  : list PurchaseHistoryItem :=
  let ids := getUserPurchases s buyer in
  match ids with
  | [] => []
  | _ =>
      let ps := purchaseStructs s ids in
      let om := offersMap s ps in
      let em := eventMap logs in
      map (fun p =>
             {| purchase := p.2; id := p.1;
                txHash := em !! purchaseKey p.2;
                offer := om !! Purchase.offerId p.2 |}) ps
  end.

Definition hasTx (it : PurchaseHistoryItem) : bool :=
  match txHash it with Some _ => true | None => false end.

(** The keys of the log entries that parse. *)
Definition logKeys (logs : list Log) : list string := omap logKey logs.

(** The keys of the log entries whose composite key is the key of one of the
    purchase records, and their number. *)
Definition matching_keys (records : list Purchase.t) (logs : list Log) : list string :=
  filter (fun key => key ∈ map purchaseKey records) (logKeys logs).

Definition matching_count (records : list Purchase.t) (logs : list Log) : nat :=
  length (matching_keys records logs).

(** The output entry built for one purchase record. *)
Definition item (s : Ledger) (logs : list Log) (ids : list Z) (p : Z * Purchase.t)
  : PurchaseHistoryItem :=
  {| purchase := p.2; id := p.1;
     txHash := eventMap logs !! purchaseKey p.2;
     offer := offersMap s (purchaseStructs s ids) !! Purchase.offerId p.2 |}.

End Indexer.

(** ** Concrete ledgers and environments used in the examples *)

(** An environment in which every recipient accepts its transfer. *)
Definition accepting (sender value now : Z) : Env :=
  mkEnv sender value now (fun _ _ => true) (fun _ _ _ => []).

(** An environment in which the recipient [refuser] rejects every transfer. *)
Definition refusing (refuser sender value now : Z) : Env :=
  mkEnv sender value now (fun a _ => negb (a =? refuser)) (fun _ _ _ => []).

(** As [accepting], with a recipient that is a contract: on the receipt of
    value, account [recipient] makes the call [tx] back into the contract. *)
Definition calling_back (recipient : Z) (tx : Tx) (sender value now : Z) : Env :=
  mkEnv sender value now (fun _ _ => true)
    (fun _ a _ => if a =? recipient then [(accepting recipient 0 now, tx)] else []).

(** The recipient calls [deactivateOffer] on offer [i]. *)
Definition deactivating (recipient i : Z) : Z → Z → Z → Env :=
  calling_back recipient (TxDeactivateOffer i).

(** The ledger deployed by account 1 with treasury 2. *)
Definition genesis : Ledger :=
  {| owner := 1; locked := false; nextOfferId := 1; nextPurchaseId := 1;
     offers := ∅; purchases := ∅; userOffers := ∅; userPurchases := ∅;
     activeOfferIds := [];
     totalOffersCreated := 0; totalPurchases := 0; totalVolume := 0;
     platformFee := 500; treasury := 2;
     balance := 0; aclAllowed := []; publicDecrypt := []; events := [] |}.

(** Account 10 offers 5 slots at 100 wei each for one day (plaintext variant). *)
Definition market : Ledger :=
  step (H := idealFHE) (accepting 10 0 1000) (TxCreateOffer "t" "d" 100 1 5) genesis.

(** Account 10 offers 5 public slots while the encrypted slot count is 1;
    the reveal is requested and the oracle's answer is submitted by account 12. *)
Definition sealed_market : Ledger :=
  step (H := idealFHE) (accepting 10 0 1000)
    (TxCreateOfferWithFHE "t" "d" 100 1 5 100 1 1 []) genesis.

Definition revealed_market : Ledger :=
  run (H := idealFHE)
    [(accepting 10 0 1001, TxRequestOfferReveal 1);
     (accepting 12 0 1002, TxResolveOfferCallback 1 (abi_encode_words [100; 1]) [])]
    sealed_market.

(** Account 11 buys one slot of the offer of [market] twice in the same block. *)
Definition twice_bought : Ledger :=
  run (H := idealFHE)
    [(accepting 11 100 1001, TxPurchaseOffer 1 1);
     (accepting 11 100 1001, TxPurchaseOffer 1 1)]
    market.

(** The log store has returned one of the two purchase events so far. *)
Definition one_log : list Indexer.Log :=
  [Indexer.mkLog (Some (1, 1, 100)) (Some 1001) "0xaaa"].

(** Account 11 buys two slots, and three more in a later block; the log
    store has returned the first purchase event. *)
Definition bought_apart : Ledger :=
  run (H := idealFHE)
    [(accepting 11 200 1001, TxPurchaseOffer 1 2);
     (accepting 11 300 1002, TxPurchaseOffer 1 3)]
    market.

Definition first_log : list Indexer.Log :=
  [Indexer.mkLog (Some (1, 2, 200)) (Some 1001) "0xbbb"].

(** [resolveOfferCallback] is the one operation that writes [slots]; the
    condition under which that write keeps the slot bound. *)
Definition resolve_keeps_bound (tx : Tx) (s : Ledger) : Prop :=
  match tx with
  | TxResolveOfferCallback i cleartexts _ =>
      ∀ price slots,
        abi_decode_uint64_uint32 cleartexts = Ok (price, slots) →
        Offer.availableSlots (getOffer s i) ≤ slots
  | _ => True
  end.

(** The plain fields of a creation call are valid. *)
Definition valid_fields (_title _description : string) (_price _duration _slots : Z)
  : Prop :=
  _title ≠ "" ∧ _description ≠ "" ∧ 0 < _price ∧ 0 < _duration ∧ 0 < _slots.

(** The id counter and the expiry time of a creation stay within 256 bits. *)
Definition no_overflow_on_create (e : Env) (_duration : Z) (s : Ledger) : Prop :=
  nextOfferId s + 1 ≤ MAX_UINT256 ∧
  _duration * ONE_DAY ≤ MAX_UINT256 ∧
  block_timestamp e + _duration * ONE_DAY ≤ MAX_UINT256.

(** What a creation establishes: the new offer has all its slots available,
    its id occurs once in the creator's index and once in the active list, and
    the counter of created offers grew by one. *)
Definition creation_post (e : Env) (_slots : Z) (s s' : Ledger) : Prop :=
  let i := nextOfferId s in
  Offer.slots (getOffer s' i) = _slots ∧
  Offer.availableSlots (getOffer s' i) = Offer.slots (getOffer s' i) ∧
  count_occ Z.eq_dec (getUserOffers s' (msg_sender e)) i = 1%nat ∧
  count_occ Z.eq_dec (activeOfferIds s') i = 1%nat ∧
  totalOffersCreated s' = totalOffersCreated s + 1.

(** ** Read-only views of the contract *)

Definition getContractStats (s : Ledger) : Z * Z * Z * Z :=
  (totalOffersCreated s, totalPurchases s, totalVolume s,
   Z.of_nat (length (activeOfferIds s))).

Definition getActiveOfferIds (s : Ledger) : list Z := activeOfferIds s.

Definition getEncryptedOfferData (s : Ledger) (_offerId : uint256)
  : Result (handle * handle * handle) :=
  require (valid_offer_id s _offerId) "Invalid offer ID";;
  let offer := getOffer s _offerId in
  Ok (Offer.encryptedPrice offer, Offer.encryptedDuration offer,
      Offer.encryptedSlots offer).

Definition getPlatformFee (s : Ledger) : uint256 := platformFee s.
Definition getTreasury (s : Ledger) : address := treasury s.

(** ** The read side of the client

    The functions of the contract client that read offers; the chain data
    source is the ledger [s].  Handles are kept as the 32-byte values the
    contract returns, not as their hexadecimal strings. *)

Module ContractClient.

(** [mapOfferStruct] on the tuple the contract returns: every field is
    present and is of its type. *)
Definition mapOfferStruct (raw : Offer.t) : Offer.t := raw.

(** The outcome of a promise. *)
Inductive Promise (A : Type) : Type :=
| Resolved (a : A)
| Rejected.
Arguments Resolved {A} a.
Arguments Rejected {A}.

(** [fetchOfferById] for an id that is a bigint, or that [BigInt] converts
    to one.  The call of [offers(uint256)] throws when the id is not a value
    of uint256, and the promise is rejected. *)
Definition fetchOfferById (s : Ledger) (id : Z) : Promise (option Offer.t) :=
  let offerId := id in
  if (0 <=? offerId) && (offerId <=? MAX_UINT256) then
    let raw := getOffer s offerId in
    let offer := mapOfferStruct raw in
    if Offer.id offer =? 0 then Resolved None else Resolved (Some offer)
  else Rejected.

Definition fetchActiveOffers (s : Ledger) : list Offer.t :=
  let ids := getActiveOfferIds s in
  match ids with
  | [] => []
  | _ =>
      let offers := map (fun id => getOffer s id) ids in
      filter (fun offer => Offer.id offer ≠ 0) (map mapOfferStruct offers)
  end.

Definition fetchOffersByCreator (s : Ledger) (creator : address) : list Offer.t :=
  let ids := getUserOffers s creator in
  match ids with
  | [] => []
  | _ =>
      let offers := map (fun id => getOffer s id) ids in
      filter (fun offer => Offer.id offer ≠ 0) (map mapOfferStruct offers)
  end.

End ContractClient.

(** ** The statistics of the page of a creator's offers *)

Module MyOffers.

Definition soldSlots (offer : Offer.t) : Z :=
  if Offer.availableSlots offer <? Offer.slots offer
  then Offer.slots offer - Offer.availableSlots offer
  else 0.

Definition totalRevenueWei (offers : list Offer.t) : Z :=
  fold_left (fun sum offer => sum + Offer.publicPrice offer * soldSlots offer) offers 0.

Definition totalSold (offers : list Offer.t) : Z :=
  fold_left (fun sum offer => sum + soldSlots offer) offers 0.

Definition activeOffers (offers : list Offer.t) : nat :=
  length (filter (fun offer => Offer.isActive offer = true) offers).

End MyOffers.

(** ** Vocabulary of the accounting properties *)

Definition sumZ (l : list Z) : Z := foldr Z.add 0 l.

(** The ids of the purchase records created so far. *)
Definition purchase_ids (s : Ledger) : list Z := seqZ 1 (nextPurchaseId s - 1).

(** The ids of the offers created so far. *)
Definition offer_ids (s : Ledger) : list Z := seqZ 1 (nextOfferId s - 1).

(** The sum of the [totalPrice] of the purchase records. *)
Definition recorded_volume (s : Ledger) : Z :=
  sumZ ((fun j => Purchase.totalPrice (getPurchase s j)) <$> purchase_ids s).

(** The slots of offer [i] sold according to the purchase records. *)
Definition sold_in (i : Z) (p : Purchase.t) : Z :=
  if Purchase.offerId p =? i then Purchase.slots p else 0.

Definition sold_slots (s : Ledger) (i : Z) : Z :=
  sumZ ((fun j => sold_in i (getPurchase s j)) <$> purchase_ids s).

(** The offer a creation call stores under the id [i]. *)
Definition new_offer (e : Env) (i : Z) (t d : string) (p du sl : Z)
    (hp hd hs : handle) : Offer.t :=
  {| Offer.id := i; Offer.creator := msg_sender e;
     Offer.title := t; Offer.description := d;
     Offer.publicPrice := p; Offer.duration := du;
     Offer.slots := sl; Offer.availableSlots := sl; Offer.isActive := true;
     Offer.createdAt := block_timestamp e;
     Offer.expiresAt := block_timestamp e + du * ONE_DAY;
     Offer.encryptedPrice := hp; Offer.encryptedDuration := hd;
     Offer.encryptedSlots := hs |}.

(** The ledger after a successful creation, field by field; [grants] are the
    ACL grants of the variant. *)
Definition create_result (e : Env) (t d : string) (p du sl : Z)
    (hp hd hs : handle) (grants : list (handle * Grantee)) (s : Ledger) : Ledger :=
  {| owner := owner s; locked := false;
     nextOfferId := nextOfferId s + 1; nextPurchaseId := nextPurchaseId s;
     offers := <[nextOfferId s := new_offer e (nextOfferId s) t d p du sl hp hd hs]>
                 (offers s);
     purchases := purchases s;
     userOffers :=
       <[msg_sender e := getUserOffers s (msg_sender e) ++ [nextOfferId s]]>
         (userOffers s);
     userPurchases := userPurchases s;
     activeOfferIds := activeOfferIds s ++ [nextOfferId s];
     totalOffersCreated := totalOffersCreated s + 1;
     totalPurchases := totalPurchases s; totalVolume := totalVolume s;
     platformFee := platformFee s; treasury := treasury s; balance := balance s;
     aclAllowed := aclAllowed s ++ grants; publicDecrypt := publicDecrypt s;
     events := events s ++
       [OfferCreated (nextOfferId s) (msg_sender e) t p du sl] |}.

(** An event that is neither a creation nor a purchase. *)
Definition quiet (ev : Event) : Prop :=
  match ev with
  | OfferCreated _ _ _ _ _ _ => False
  | OfferPurchased _ _ _ _ _ => False
  | _ => True
  end.

(** What the reveal request, the reveal callback and the deactivation may
    change of an offer: its public price, its total slots, and its active
    flag, downwards. *)
Definition offer_kept (o o' : Offer.t) : Prop :=
  Offer.id o' = Offer.id o ∧ Offer.creator o' = Offer.creator o ∧
  Offer.title o' = Offer.title o ∧ Offer.description o' = Offer.description o ∧
  Offer.duration o' = Offer.duration o ∧
  Offer.availableSlots o' = Offer.availableSlots o ∧
  Offer.createdAt o' = Offer.createdAt o ∧ Offer.expiresAt o' = Offer.expiresAt o ∧
  Offer.encryptedPrice o' = Offer.encryptedPrice o ∧
  Offer.encryptedDuration o' = Offer.encryptedDuration o ∧
  Offer.encryptedSlots o' = Offer.encryptedSlots o ∧
  (Offer.isActive o' = true → Offer.isActive o = true) ∧
  (Offer.publicPrice o' = Offer.publicPrice o ∨ 0 ≤ Offer.publicPrice o').

(** The ledger after such an update of offer [i]. *)
Definition amend_result (i : Z) (o' : Offer.t) (active : list Z)
    (decryptable : list handle) (evs : list Event) (s : Ledger) : Ledger :=
  set_events (events s ++ evs)
    (set_publicDecrypt decryptable
       (set_activeOfferIds active (set_offers (<[i := o']> (offers s)) s))).

(** The ledger after a change of the platform settings only. *)
Definition config_result (ow : address) (fee : Z) (tr : address) (bal : Z)
    (s : Ledger) : Ledger :=
  set_owner ow (set_balance bal (set_treasury tr (set_platformFee fee s))).

(** The four shapes of the ledger after a successful call that no call back
    interrupts. *)
Inductive effect (e : Env) (s : Ledger) : Ledger → Prop :=
| effect_create t d p du sl hp hd hs grants :
    valid_fields t d p du sl →
    effect e s (create_result e t d p du sl hp hd hs grants s)
| effect_purchase i k :
    0 < i < nextOfferId s → 0 < k → purchase_guard e i k s →
    effect e s (purchase_result e i k s)
| effect_amend i o' active decryptable evs :
    0 < i < nextOfferId s → offer_kept (getOffer s i) o' → Forall quiet evs →
    effect e s (amend_result i o' active decryptable evs s)
| effect_config ow fee tr bal :
    (fee = platformFee s ∨ 0 ≤ fee ≤ 1000) →
    (tr = treasury s ∨ tr ≠ 0) →
    (bal = balance s ∨ bal = 0) →
    effect e s (config_result ow fee tr bal s).

(** Every valid id has a stored offer carrying that id, expiring [duration]
    days after its creation, with a slot left while it is active. *)
Record offers_inv (s : Ledger) : Prop := mk_offers_inv {
  off_stored : ∀ i, 0 < i < nextOfferId s → is_Some (offers s !! i);
  off_id : ∀ i o, offers s !! i = Some o → Offer.id o = i;
  off_expiry : ∀ i o, offers s !! i = Some o →
    Offer.expiresAt o = Offer.createdAt o + Offer.duration o * ONE_DAY;
  off_active_slots : ∀ i o, offers s !! i = Some o →
    Offer.isActive o = true → 0 < Offer.availableSlots o;
  off_nonneg : ∀ i o, offers s !! i = Some o →
    0 ≤ Offer.availableSlots o ∧ 0 ≤ Offer.publicPrice o
}.

(** The purchase records are those of the ids below [nextPurchaseId]; each
    refers to an offer created before, buys at least one slot and is not the
    creator's; the counters are the count and the volume of the records. *)
Record purchases_inv (s : Ledger) : Prop := mk_purchases_inv {
  pur_next_pos : 0 < nextPurchaseId s;
  pur_count : totalPurchases s = nextPurchaseId s - 1;
  pur_range : ∀ j p, purchases s !! j = Some p → 0 < j < nextPurchaseId s;
  pur_stored : ∀ j, 0 < j < nextPurchaseId s → is_Some (purchases s !! j);
  pur_valid : ∀ j p, purchases s !! j = Some p →
    0 < Purchase.offerId p < nextOfferId s ∧ 0 < Purchase.slots p ∧
    Purchase.buyer p ≠ Offer.creator (getOffer s (Purchase.offerId p));
  pur_volume : totalVolume s = recorded_volume s
}.

(** The per-creator and per-buyer indices list exactly the offers of the
    creator and the purchases of the buyer, once each. *)
Record index_inv (s : Ledger) : Prop := mk_index_inv {
  idx_offers : ∀ a i,
    i ∈ getUserOffers s a ↔ ∃ o, offers s !! i = Some o ∧ Offer.creator o = a;
  idx_offers_nodup : ∀ a, NoDup (getUserOffers s a);
  idx_purchases : ∀ a j,
    j ∈ getUserPurchases s a ↔ ∃ p, purchases s !! j = Some p ∧ Purchase.buyer p = a;
  idx_purchases_nodup : ∀ a, NoDup (getUserPurchases s a)
}.

(** The platform settings are within their bounds and the contract holds no
    funds between transactions. *)
Record funds_inv (s : Ledger) : Prop := mk_funds_inv {
  fund_fee : 0 ≤ platformFee s ≤ 1000;
  fund_treasury : treasury s ≠ 0;
  fund_balance : balance s = 0
}.

(** Every purchase record has its event, and every creation event accounts
    for the slots of its offer: those left plus those sold. *)
Record events_inv (s : Ledger) : Prop := mk_events_inv {
  ev_purchase : ∀ j p, purchases s !! j = Some p →
    ∃ left, OfferPurchased (Purchase.offerId p) (Purchase.buyer p)
              (Purchase.slots p) (Purchase.totalPrice p) left ∈ events s;
  ev_created : ∀ i c t p d sl, OfferCreated i c t p d sl ∈ events s →
    0 < i < nextOfferId s ∧ Offer.creator (getOffer s i) = c ∧
    Offer.availableSlots (getOffer s i) + sold_slots s i = sl;
  ev_offer : ∀ i o, offers s !! i = Some o →
    ∃ t p d sl, OfferCreated i (Offer.creator o) t p d sl ∈ events s
}.

(** The accounting invariants together. *)
Definition accounting (s : Ledger) : Prop :=
  offers_inv s ∧ purchases_inv s ∧ index_inv s ∧ funds_inv s ∧ events_inv s.

(** How a stored offer may differ from an earlier state of itself. *)
Definition offer_evolves (o o' : Offer.t) : Prop :=
  Offer.id o' = Offer.id o ∧ Offer.creator o' = Offer.creator o ∧
  Offer.title o' = Offer.title o ∧ Offer.description o' = Offer.description o ∧
  Offer.duration o' = Offer.duration o ∧
  Offer.createdAt o' = Offer.createdAt o ∧ Offer.expiresAt o' = Offer.expiresAt o ∧
  Offer.encryptedPrice o' = Offer.encryptedPrice o ∧
  Offer.encryptedDuration o' = Offer.encryptedDuration o ∧
  Offer.encryptedSlots o' = Offer.encryptedSlots o ∧
  Offer.availableSlots o' ≤ Offer.availableSlots o ∧
  (Offer.isActive o' = true → Offer.isActive o = true).

(** The transactions of a run carry values of their Solidity types. *)
Definition run_wf (txs : list (Env * Tx)) : Prop :=
  Forall (fun et => tx_wf et.2) txs.

(** The separator of the purchase key, as a character. *)
Definition dash : Ascii.ascii :=
  Eval cbv in match "-" with String c _ => c | EmptyString => Ascii.zero end.

(** A string that does not contain the separator. *)
Fixpoint no_dash (s : string) : Prop :=
  match s with
  | EmptyString => True
  | String c s => c ≠ dash ∧ no_dash s
  end.

(** ** Calls with calls back *)

(** The total price and the platform fee of a purchase of [k] slots of the
    offer [i]. *)
Definition price_of (s : Ledger) (i k : Z) : Z :=
  Offer.publicPrice (getOffer s i) * k.
Definition fee_of (s : Ledger) (i k : Z) : Z :=
  (price_of s i k * platformFee s) `div` 10000.

(** The ledger [purchaseOffer] has written when it starts to pay out: the
    lock is held, the value sent is on the balance, and the event is not
    emitted yet. *)
Definition purchase_written (e : Env) (i k : Z) (s : Ledger) : Ledger :=
  let o := getOffer s i in
  let remaining := Offer.availableSlots o - k in
  {| owner := owner s; locked := true;
     nextOfferId := nextOfferId s; nextPurchaseId := nextPurchaseId s + 1;
     offers := <[i := purchased_offer o k]> (offers s);
     purchases :=
       <[nextPurchaseId s :=
           {| Purchase.offerId := i; Purchase.buyer := msg_sender e;
              Purchase.slots := k; Purchase.totalPrice := price_of s i k;
              Purchase.timestamp := block_timestamp e |}]> (purchases s);
     userOffers := userOffers s;
     userPurchases :=
       <[msg_sender e := getUserPurchases s (msg_sender e) ++ [nextPurchaseId s]]>
         (userPurchases s);
     activeOfferIds :=
       if remaining =? 0 then swap_remove i (activeOfferIds s) else activeOfferIds s;
     totalOffersCreated := totalOffersCreated s;
     totalPurchases := totalPurchases s + 1;
     totalVolume := totalVolume s + price_of s i k;
     platformFee := platformFee s; treasury := treasury s;
     balance := balance s + msg_value e;
     aclAllowed := aclAllowed s; publicDecrypt := publicDecrypt s;
     events := events s |}.

(** The debit of a transfer. *)
Definition pay (v : Z) (s : Ledger) : Ledger := set_balance (balance s - v) s.

(** The end of [purchaseOffer]: the event, with the slots the offer has left
    then, and the release of the lock. *)
Definition purchase_closed (e : Env) (i k : Z) (tp : Z) (s : Ledger) : Ledger :=
  set_locked false
    (emit (OfferPurchased i (msg_sender e) k tp
             (Offer.availableSlots (getOffer s i))) s).

(** The functions that send no value. *)
Definition no_payout (tx : Tx) : Prop :=
  match tx with
  | TxPurchaseOffer _ _ | TxEmergencyWithdraw => False
  | _ => True
  end.

(** [Q] holds of a call and of every call back made while it runs. *)
Inductive calls_all (Q : Env → Tx → Prop) : Env → Tx → Prop :=
| calls_all_intro e tx :
    Q e tx →
    (∀ n a v e' tx', (e', tx') ∈ reenters e n a v → calls_all Q e' tx') →
    calls_all Q e tx.

(** [Q] holds of every call back made while a call of [e] runs. *)
Definition calls_back (Q : Env → Tx → Prop) (e : Env) : Prop :=
  ∀ n a v e' tx', (e', tx') ∈ reenters e n a v → calls_all Q e' tx'.

(** The transactions other than the reveal callback. *)
Definition no_resolve (tx : Tx) : Prop :=
  match tx with
  | TxResolveOfferCallback _ _ _ => False
  | _ => True
  end.

(** What a successful call and its calls back do to the ledger, as the
    sequence of the writes, debits and nested calls of the code; every call
    in it satisfies [Q]. *)
Inductive trace `{FHEVM} (Q : Env → Tx → Prop) : Ledger → Ledger → Prop :=
| trace_refl s : trace Q s s
| trace_trans s1 s2 s3 : trace Q s1 s2 → trace Q s2 s3 → trace Q s1 s3
| trace_plain e tx s s' :
    Q e tx → no_payout tx → exec_in plain e tx s = Ok s' → trace Q s s'
| trace_purchase e i k s s1 s2 s3 :
    Q e (TxPurchaseOffer i k) →
    locked s = false → 0 < i < nextOfferId s → 0 < k → purchase_guard e i k s →
    fee_of s i k ≤ price_of s i k →
    (0 < fee_of s i k → fee_of s i k ≤ balance s + msg_value e) →
    trace Q (if 0 <? fee_of s i k
             then pay (fee_of s i k) (purchase_written e i k s)
             else purchase_written e i k s) s1 →
    price_of s i k - fee_of s i k ≤ balance s1 →
    trace Q (pay (price_of s i k - fee_of s i k) s1) s2 →
    (price_of s i k < msg_value e → msg_value e - price_of s i k ≤ balance s2) →
    trace Q (if price_of s i k <? msg_value e
             then pay (msg_value e - price_of s i k) s2 else s2) s3 →
    trace Q s (purchase_closed e i k (price_of s i k) s3)
| trace_withdraw e s s' :
    Q e TxEmergencyWithdraw →
    msg_sender e = owner s → 0 < balance s →
    trace Q (set_balance 0 s) s' →
    trace Q s s'.

(** What no function changes while the lock is held. *)
Definition held (s s' : Ledger) : Prop :=
  nextOfferId s' = nextOfferId s ∧ nextPurchaseId s' = nextPurchaseId s ∧
  purchases s' = purchases s ∧ userPurchases s' = userPurchases s ∧
  userOffers s' = userOffers s ∧
  totalOffersCreated s' = totalOffersCreated s ∧
  totalPurchases s' = totalPurchases s ∧ totalVolume s' = totalVolume s ∧
  ∀ i, Offer.availableSlots (getOffer s' i) = Offer.availableSlots (getOffer s i).

(** What every call and its calls back leave as it is, or change in one
    direction only. *)
Record frame (s s' : Ledger) : Prop := mk_frame {
  fr_locked : locked s' = locked s;
  fr_owner : owner s' = owner s;
  fr_offer_ids : nextOfferId s ≤ nextOfferId s';
  fr_purchase_ids : nextPurchaseId s ≤ nextPurchaseId s';
  fr_offers : ∀ i, 0 < i < nextOfferId s →
    offer_evolves (getOffer s i) (getOffer s' i);
  fr_purchases : ∀ j, 0 < j < nextPurchaseId s →
    getPurchase s' j = getPurchase s j;
  fr_active : ∀ j, j ∈ activeOfferIds s' →
    j ∈ activeOfferIds s ∨ nextOfferId s ≤ j;
  fr_held : locked s = true → held s s'
}.

(** Every purchase record is of a time at which its offer had not expired. *)
Definition timely (s : Ledger) : Prop :=
  ∀ j p, purchases s !! j = Some p →
    Purchase.timestamp p ≤ Offer.expiresAt (getOffer s (Purchase.offerId p)).

(** The ledger as it is once the calls in progress have returned: the lock
    released, the value in flight paid out, the pending events emitted. *)
Definition view (pending : list Event) (s : Ledger) : Ledger :=
  set_locked false (set_balance 0 (set_events (events s ++ pending) s)).

(** The invariants of the ledger, with calls in progress. *)
Definition sound (pending : list Event) (s : Ledger) : Prop :=
  ledger_inv (view pending s) ∧ accounting (view pending s).

(** * Basic facts *)

Lemma bind_Ok {A B} (f : A → Result B) (m : Result A) (r : B) :
  mbind f m = Ok r → ∃ a, m = Ok a ∧ f a = Ok r.
Proof. destruct m as [a|msg]; simpl; [eauto | discriminate]. Qed.

Lemma require_Ok b msg u : require b msg = Ok u → b = true.
Proof. destruct b; [done | discriminate]. Qed.

Lemma require_true msg : require true msg = Ok tt.
Proof. reflexivity. Qed.

Lemma checked_add_Ok a b c : checked_add a b = Ok c → c = a + b ∧ a + b ≤ MAX_UINT256.
Proof.
  unfold checked_add. destruct (Z.leb_spec (a + b) MAX_UINT256); [|discriminate].
  intros [= <-]. done.
Qed.

Lemma checked_mul_Ok a b c : checked_mul a b = Ok c → c = a * b ∧ a * b ≤ MAX_UINT256.
Proof.
  unfold checked_mul. destruct (Z.leb_spec (a * b) MAX_UINT256); [|discriminate].
  intros [= <-]. done.
Qed.

Lemma checked_sub_Ok a b c : checked_sub a b = Ok c → c = a - b ∧ b ≤ a.
Proof.
  unfold checked_sub. destruct (Z.leb_spec b a); [|discriminate].
  intros [= <-]. done.
Qed.

Lemma nonReentrant_Ok body s s' :
  nonReentrant body s = Ok s' →
  locked s = false ∧ ∃ s1, body (set_locked true s) = Ok s1 ∧ s' = set_locked false s1.
Proof.
  unfold nonReentrant. destruct (locked s); [discriminate|].
  intros (s1 & Hb & [= <-])%bind_Ok. eauto.
Qed.

Lemma nonpayable_Ok e body s s' :
  nonpayable e body s = Ok s' → msg_value e = 0 ∧ body s = Ok s'.
Proof.
  unfold nonpayable. intros (_ & Hr%require_Ok & Hb)%bind_Ok.
  split; [lia | done].
Qed.

(** Inversion of a successful run of a sequence of binds and checks. *)
Ltac inv_result :=
  repeat match goal with
  | H : mbind _ _ = Ok _ |- _ =>
      let a := fresh "a" in let Ha := fresh "Ha" in
      apply bind_Ok in H as (a & Ha & H)
  | H : require _ _ = Ok _ |- _ => apply require_Ok in H
  | H : checked_add _ _ = Ok _ |- _ => apply checked_add_Ok in H as [? ?]
  | H : checked_mul _ _ = Ok _ |- _ => apply checked_mul_Ok in H as [? ?]
  | H : checked_sub _ _ = Ok _ |- _ => apply checked_sub_Ok in H as [? ?]
  | H : Ok _ = Ok _ |- _ => injection H as H
  | H : Revert _ = Ok _ |- _ => discriminate H
  | H : (let '(_, _) := ?p in _) = Ok _ |- _ => destruct p eqn:?
  | H : (if ?c then _ else _) = Ok _ |- _ => destruct c eqn:?
  | H : _ = Ok _ |- _ => progress cbv zeta in H
  end.

Lemma getOffer_setOffer s i o j :
  getOffer (setOffer i o s) j = if decide (i = j) then o else getOffer s j.
Proof.
  unfold getOffer, setOffer. cbn. rewrite lookup_insert.
  by destruct (decide (i = j)).
Qed.

Lemma getOffer_setOffer_eq s i o : getOffer (setOffer i o s) i = o.
Proof. rewrite getOffer_setOffer. by rewrite decide_True. Qed.

Lemma getOffer_setOffer_ne s i o j : i ≠ j → getOffer (setOffer i o s) j = getOffer s j.
Proof. intros. rewrite getOffer_setOffer. by rewrite decide_False. Qed.

Lemma getOffer_lookup s i o : offers s !! i = Some o → getOffer s i = o.
Proof. unfold getOffer. by intros ->. Qed.

Lemma is_active_stored s i :
  Offer.isActive (getOffer s i) = true → offers s !! i = Some (getOffer s i).
Proof. unfold getOffer. destruct (offers s !! i); [done | discriminate]. Qed.

Lemma nonempty_length (t : string) :
  (0 <? Z.of_nat (String.length t)) = true ↔ t ≠ "".
Proof.
  destruct t as [|c t]; cbn.
  - split; [discriminate | done].
  - split; [done|]. intros _. apply Z.ltb_lt. lia.
Qed.

(** ** Swap-with-last removal *)

Lemma _removeFromActiveOffers_list x s :
  activeOfferIds (_removeFromActiveOffers x s) = swap_remove x (activeOfferIds s).
Proof. reflexivity. Qed.

Lemma swap_remove_perm x a : x ∈ a → a ≡ₚ x :: swap_remove x a.
Proof.
  intros Hin. unfold swap_remove.
  destruct (list_find _ a) as [[i y]|] eqn:Hf.
  2:{ apply list_find_None in Hf. rewrite Forall_forall in Hf.
      by destruct (Hf x Hin). }
  apply list_find_Some in Hf as (Hi & -> & _).
  pose proof (take_drop_middle a i x Hi) as Hsplit.
  pose proof (lookup_lt_Some _ _ _ Hi) as Hlt.
  set (l1 := take i a) in *. set (l2 := drop (S i) a) in *.
  assert (length l1 = i) as Hl1 by (unfold l1; rewrite length_take; lia).
  clearbody l1 l2. subst a. clear Hi Hlt Hin.
  subst i. destruct l2 as [|z l2 _] using rev_ind.
  - rewrite last_snoc. simpl.
    rewrite length_app. simpl. rewrite Nat.add_sub.
    rewrite insert_app_r_alt by lia. rewrite Nat.sub_diag. simpl.
    rewrite take_app_length.
    symmetry. apply Permutation_cons_append.
  - replace (l1 ++ x :: l2 ++ [z]) with ((l1 ++ x :: l2) ++ [z])
      by (by rewrite <- app_assoc).
    rewrite last_snoc. simpl.
    rewrite (length_app (l1 ++ x :: l2)). simpl. rewrite Nat.add_sub.
    rewrite <- app_assoc. simpl.
    rewrite insert_app_r_alt by lia. rewrite Nat.sub_diag. simpl.
    replace (l1 ++ z :: l2 ++ [z]) with ((l1 ++ z :: l2) ++ [z])
      by (by rewrite <- app_assoc).
    replace (length (l1 ++ x :: l2)) with (length (l1 ++ z :: l2))
      by (rewrite !length_app; done).
    rewrite take_app_length.
    rewrite <- !Permutation_middle. by rewrite app_nil_r.
Qed.

(** * Invariants of reachable ledgers *)

Section Invariants.
Context `{FHEVM}.

Lemma deploy_inv deployer _treasury s :
  deploy deployer _treasury = Ok s → ledger_inv s ∧ slots_bounded s.
Proof.
  unfold deploy. intros Hd. inv_result. subst s.
  split; [split; cbn; try done|].
  - apply NoDup_nil_2.
  - intros i. unfold getOffer. cbn. rewrite lookup_empty. cbn.
    split; [by intros ?%elem_of_nil | discriminate].
  - intros a0 i. unfold getUserOffers. cbn. rewrite lookup_empty. cbn.
    by intros ?%elem_of_nil.
  - intros i o. cbn. by rewrite lookup_empty.
Qed.

Lemma createOffer_created e t d p du sl s s' :
  createOffer e t d p du sl s = Ok s' →
  created e (getOffer s' (nextOfferId s)) s s' ∧
  Offer.slots (getOffer s' (nextOfferId s)) = sl.
Proof.
  intros Hx. apply nonReentrant_Ok in Hx as (Hl & s1 & Hx & ->).
  inv_result. subst. unfold created, getOffer, getUserOffers. cbn in *.
  rewrite lookup_insert_eq. cbn. rewrite Hl. done.
Qed.

Lemma createOfferWithFHE_created e t d p du sl ep ed es pr s s' :
  createOfferWithFHE e t d p du sl ep ed es pr s = Ok s' →
  created e (getOffer s' (nextOfferId s)) s s' ∧
  Offer.slots (getOffer s' (nextOfferId s)) = sl.
Proof.
  intros Hx. apply nonReentrant_Ok in Hx as (Hl & s1 & Hx & ->).
  inv_result. subst. unfold created, getOffer, getUserOffers. cbn in *.
  rewrite lookup_insert_eq. cbn. rewrite Hl. done.
Qed.

Lemma created_inv e o s s' : created e o s s' → ledger_inv s → ledger_inv s'.
Proof.
  intros (Hl' & Hn' & Hc' & Ho' & Ha' & Hu' & Hf' & Hact & _)
         [Hl Hn Hc Hr Hnd Ha Hu Hf].
  assert (offers s !! nextOfferId s = None) as Hfresh.
  { destruct (offers s !! nextOfferId s) as [o'|] eqn:Ho; [|done].
    apply Hr in Ho. lia. }
  assert (nextOfferId s ∉ activeOfferIds s) as Hnotin.
  { rewrite Ha. unfold getOffer. rewrite Hfresh. cbn. done. }
  split.
  - congruence.
  - lia.
  - lia.
  - intros i o'. rewrite Ho', Hn'. rewrite lookup_insert.
    case_decide; [intros _; lia|]. intros ?%Hr. lia.
  - rewrite Ha'. apply NoDup_app. split_and!; [done| |apply NoDup_singleton].
    intros x Hx ->%list_elem_of_singleton. done.
  - intros i. rewrite Ha'. unfold getOffer. rewrite Ho'.
    rewrite elem_of_app, list_elem_of_singleton, lookup_insert.
    case_decide as Hi; cbn.
    + subst i. rewrite Hact. split; [done | by right].
    + rewrite Ha. unfold getOffer. split; [intros [?|?]; [done | congruence] | by left].
  - intros a i. unfold getUserOffers. rewrite Hu', Hn'. rewrite lookup_insert.
    case_decide as Hi; cbn.
    + rewrite elem_of_app, list_elem_of_singleton.
      intros [Hin| ->]; [apply Hu in Hin|]; lia.
    + intros Hin. apply Hu in Hin. lia.
  - lia.
Qed.

Lemma created_slots_bounded e o s s' :
  created e o s s' → slots_bounded s → slots_bounded s'.
Proof.
  intros (_ & _ & _ & Ho' & _ & _ & _ & _ & Heq) Hb i o'.
  rewrite Ho', lookup_insert. case_decide.
  - intros [= <-]. lia.
  - apply Hb.
Qed.

(** *** purchaseOffer *)

Lemma purchase_amounts_Ok price k fee tp fa ca :
  purchase_amounts price k fee = Ok (tp, fa, ca) →
  tp = price * k ∧ fa = (price * k * fee) `div` 10000 ∧ ca = tp - fa ∧
  price * k ≤ MAX_UINT256 ∧ price * k * fee ≤ MAX_UINT256 ∧ fa ≤ tp.
Proof.
  unfold purchase_amounts. intros Hx. inv_result. subst. done.
Qed.

Lemma call_value_true cb n e a v s s1 :
  call_value cb n e a v s = (true, s1) →
  accepts e a v = true ∧ v ≤ balance s ∧ s1 = cb n a v (pay v s).
Proof.
  unfold call_value.
  destruct (Z.leb_spec v (balance s)); cbn; [|discriminate].
  destruct (accepts e a v); [|discriminate].
  intros [= <-]. done.
Qed.

(** The three legs of the payout, each followed by the calls back of its
    recipient. *)
Lemma purchase_transferFunds_Ok cb e i tp fa ca s s' :
  purchase_transferFunds cb e i tp fa ca s = Ok s' →
  ∃ s1 s2,
    (if 0 <? fa
     then fa ≤ balance s ∧ accepts e (treasury s) fa = true ∧
          s1 = cb 0%nat (treasury s) fa (pay fa s)
     else s1 = s) ∧
    ca ≤ balance s1 ∧
    accepts e (Offer.creator (getOffer s1 i)) ca = true ∧
    s2 = cb 1%nat (Offer.creator (getOffer s1 i)) ca (pay ca s1) ∧
    (if tp <? msg_value e
     then msg_value e - tp ≤ balance s2 ∧
          accepts e (msg_sender e) (msg_value e - tp) = true ∧
          s' = cb 2%nat (msg_sender e) (msg_value e - tp) (pay (msg_value e - tp) s2)
     else s' = s2).
Proof.
  unfold purchase_transferFunds. intros Hx.
  apply bind_Ok in Hx as (s1 & Hfee & Hx).
  destruct (call_value cb 1 e (Offer.creator (getOffer s1 i)) ca s1) as [ok s2] eqn:Hc.
  apply bind_Ok in Hx as (_ & ->%require_Ok & Hx).
  apply call_value_true in Hc as (Hcr & Hcb & ->).
  eexists s1, _. split_and!; [| done | done | reflexivity |].
  - destruct (0 <? fa); [|by injection Hfee as <-].
    destruct (call_value cb 0 e (treasury s) fa s) as [ok s0] eqn:Hc.
    apply bind_Ok in Hfee as (_ & ->%require_Ok & [= <-]).
    by apply call_value_true in Hc as (? & ? & ->).
  - destruct (tp <? msg_value e); [|by injection Hx as <-].
    destruct (call_value cb 2 e (msg_sender e) _ _) as [ok s3] eqn:Hc.
    apply bind_Ok in Hx as (_ & ->%require_Ok & [= <-]).
    by apply call_value_true in Hc as (? & ? & ->).
Qed.

Lemma purchased_offer_available o k :
  Offer.availableSlots (purchased_offer o k) = Offer.availableSlots o - k.
Proof. unfold purchased_offer. cbn. by destruct (_ =? 0). Qed.

Lemma purchased_offer_creator o k :
  Offer.creator (purchased_offer o k) = Offer.creator o.
Proof. unfold purchased_offer. cbn. by destruct (_ =? 0). Qed.

Lemma purchase_updateOffer_Ok i k s s' :
  purchase_updateOffer i k s = Ok s' →
  k ≤ Offer.availableSlots (getOffer s i) ∧
  s' = set_activeOfferIds
         (if Offer.availableSlots (getOffer s i) - k =? 0
          then swap_remove i (activeOfferIds s) else activeOfferIds s)
         (set_offers (<[i := purchased_offer (getOffer s i) k]> (offers s)) s).
Proof.
  unfold purchase_updateOffer. intros Hx.
  apply bind_Ok in Hx as (r & [-> Hle]%checked_sub_Ok & Hx).
  split; [done|]. cbv zeta in Hx.
  rewrite getOffer_setOffer_eq in Hx. cbn in Hx.
  unfold purchased_offer. cbn.
  destruct (_ =? 0); injection Hx as <-.
  - unfold _removeFromActiveOffers, setOffer. cbn.
    rewrite insert_insert_eq. reflexivity.
  - unfold setOffer. by destruct s.
Qed.

Lemma purchase_recordPurchase_Ok e i k tp s s' :
  purchase_recordPurchase e i k tp s = Ok s' →
  s' = set_totalVolume (totalVolume s + tp)
         (set_totalPurchases (totalPurchases s + 1)
            (set_userPurchases
               (<[msg_sender e := getUserPurchases s (msg_sender e) ++ [nextPurchaseId s]]>
                  (userPurchases s))
               (set_purchases
                  (<[nextPurchaseId s :=
                       {| Purchase.offerId := i; Purchase.buyer := msg_sender e;
                          Purchase.slots := k; Purchase.totalPrice := tp;
                          Purchase.timestamp := block_timestamp e |}]> (purchases s))
                  (set_nextPurchaseId (nextPurchaseId s + 1) s)))).
Proof.
  unfold purchase_recordPurchase. intros Hx. inv_result. subst. reflexivity.
Qed.

(** A successful purchase: the checks, the writes, then the three legs of
    the payout with the calls back of their recipients, then the event. *)
Lemma purchaseOffer_in_Ok cb e i k s s' :
  purchaseOffer_in cb e i k s = Ok s' →
  locked s = false ∧ 0 < i < nextOfferId s ∧ 0 < k ∧
  purchase_guard e i k s ∧ fee_of s i k ≤ price_of s i k ∧
  ∃ s1 s2 s3,
    (if 0 <? fee_of s i k
     then fee_of s i k ≤ balance s + msg_value e ∧
          accepts e (treasury s) (fee_of s i k) = true ∧
          s1 = cb 0%nat (treasury s) (fee_of s i k)
                 (pay (fee_of s i k) (purchase_written e i k s))
     else s1 = purchase_written e i k s) ∧
    price_of s i k - fee_of s i k ≤ balance s1 ∧
    accepts e (Offer.creator (getOffer s1 i)) (price_of s i k - fee_of s i k) = true ∧
    s2 = cb 1%nat (Offer.creator (getOffer s1 i)) (price_of s i k - fee_of s i k)
           (pay (price_of s i k - fee_of s i k) s1) ∧
    (if price_of s i k <? msg_value e
     then msg_value e - price_of s i k ≤ balance s2 ∧
          accepts e (msg_sender e) (msg_value e - price_of s i k) = true ∧
          s3 = cb 2%nat (msg_sender e) (msg_value e - price_of s i k)
                 (pay (msg_value e - price_of s i k) s2)
     else s3 = s2) ∧
    s' = purchase_closed e i k (price_of s i k) s3.
Proof.
  unfold purchaseOffer_in. intros Hx.
  apply nonReentrant_Ok in Hx as (Hl & s4 & Hx & ->). cbn in Hl.
  apply bind_Ok in Hx as (_ & Hid%require_Ok & Hx).
  apply bind_Ok in Hx as (_ & Hk%require_Ok & Hx).
  cbv zeta in Hx.
  apply bind_Ok in Hx as (_ & Hact%require_Ok & Hx).
  apply bind_Ok in Hx as (_ & Hav%require_Ok & Hx).
  apply bind_Ok in Hx as (_ & Hexp%require_Ok & Hx).
  apply bind_Ok in Hx as (_ & Hcr%require_Ok & Hx).
  apply bind_Ok in Hx as ([[tp fa] ca] & Ham & Hx).
  apply purchase_amounts_Ok in Ham as (-> & -> & -> & _ & _ & Hfa).
  apply bind_Ok in Hx as (_ & Hpay%require_Ok & Hx).
  apply bind_Ok in Hx as (sa & [_ ->]%purchase_updateOffer_Ok & Hx).
  apply bind_Ok in Hx as (sb & ->%purchase_recordPurchase_Ok & Hx).
  apply bind_Ok in Hx as (s3 & (s1 & s2 & Hfee & Hcb & Hca & -> & Href)
                                 %purchase_transferFunds_Ok & Hx).
  injection Hx as <-.
  set (sw := set_totalVolume _ _) in *.
  assert (sw = purchase_written e i k s) as Hsw by reflexivity.
  clearbody sw. subst sw.
  change (getOffer (set_locked true (set_balance (balance s + msg_value e) s)) i)
    with (getOffer s i) in *.
  change (platformFee (set_locked true (set_balance (balance s + msg_value e) s)))
    with (platformFee s) in *.
  change (Offer.publicPrice (getOffer s i) * k) with (price_of s i k) in *.
  change (price_of s i k * platformFee s `div` 10000) with (fee_of s i k) in *.
  change (treasury (purchase_written e i k s)) with (treasury s) in *.
  change (balance (purchase_written e i k s)) with (balance s + msg_value e) in *.
  unfold valid_offer_id in Hid. cbn in Hid.
  split; [done|]. split; [lia|]. split; [lia|].
  split.
  { unfold purchase_guard. fold (price_of s i k). split_and!; try lia; try done. }
  split; [done|].
  eexists s1, _, s3.
  split_and!; [exact Hfee | exact Hcb | exact Hca | reflexivity | exact Href | reflexivity].
Qed.

Lemma purchaseOffer_Ok e i k s s' :
  purchaseOffer e i k s = Ok s' →
  locked s = false ∧ 0 < i < nextOfferId s ∧ 0 < k ∧ purchase_guard e i k s.
Proof.
  intros (? & ? & ? & ? & _)%purchaseOffer_in_Ok. done.
Qed.

(** *** requestOfferReveal, resolveOfferCallback, deactivateOffer *)

Lemma authorized_spec e i s :
  (msg_sender e =? Offer.creator (getOffer s i)) || (msg_sender e =? owner s) = true
  ↔ authorized e i s.
Proof. unfold authorized. rewrite orb_true_iff, !Z.eqb_eq. done. Qed.

Lemma valid_offer_id_spec s i : valid_offer_id s i = true ↔ 0 < i < nextOfferId s.
Proof. unfold valid_offer_id. rewrite andb_true_iff, !Z.ltb_lt. done. Qed.

Lemma set_encryptedPrice_id o : Offer.set_encryptedPrice (Offer.encryptedPrice o) o = o.
Proof. by destruct o. Qed.

Lemma set_encryptedSlots_id o : Offer.set_encryptedSlots (Offer.encryptedSlots o) o = o.
Proof. by destruct o. Qed.

Lemma requestOfferReveal_Ok e i s s' :
  requestOfferReveal e i s = Ok s' →
  0 < i < nextOfferId s ∧ authorized e i s ∧
  s' = emit (TallyRevealRequested i (Offer.encryptedPrice (getOffer s i))
               (Offer.encryptedSlots (getOffer s i)))
         (set_publicDecrypt
            (publicDecrypt s ++
               [Offer.encryptedPrice (getOffer s i); Offer.encryptedSlots (getOffer s i)])
            (setOffer i (getOffer s i) s)).
Proof.
  unfold requestOfferReveal. intros Hx.
  apply bind_Ok in Hx as (_ & Hid%require_Ok%valid_offer_id_spec & Hx).
  cbv zeta in Hx.
  apply bind_Ok in Hx as (_ & Hau%require_Ok%authorized_spec & Hx).
  split; [done|]. split; [done|].
  unfold makePubliclyDecryptable, toBytes32 in Hx. cbv zeta in Hx.
  injection Hx as <-.
  unfold emit, setOffer, getOffer. cbn. rewrite !lookup_insert_eq. cbn.
  rewrite !set_encryptedPrice_id, set_encryptedSlots_id, insert_insert_eq.
  rewrite <- app_assoc. reflexivity.
Qed.

Lemma resolveOfferCallback_Ok e i ct pf s s' :
  resolveOfferCallback e i ct pf s = Ok s' →
  0 < i < nextOfferId s ∧
  checkSignatures
    [Offer.encryptedPrice (getOffer s i); Offer.encryptedSlots (getOffer s i)] ct pf
    = true ∧
  ∃ price slots,
    abi_decode_uint64_uint32 ct = Ok (price, slots) ∧
    s' = setOffer i
           (Offer.set_slots slots (Offer.set_publicPrice price (getOffer s i))) s.
Proof.
  unfold resolveOfferCallback. intros Hx.
  apply bind_Ok in Hx as (_ & Hid%require_Ok%valid_offer_id_spec & Hx).
  cbv zeta in Hx.
  apply bind_Ok in Hx as (_ & Hsig%require_Ok & Hx).
  apply bind_Ok in Hx as ([price slots] & Hdec & Hx).
  injection Hx as <-.
  split; [done|]. split; [done|].
  exists price, slots. split; [done|].
  unfold setOffer, getOffer. cbn. rewrite !lookup_insert_eq. cbn.
  rewrite insert_insert_eq. reflexivity.
Qed.

Lemma deactivateOffer_Ok e i s s' :
  deactivateOffer e i s = Ok s' →
  0 < i < nextOfferId s ∧ authorized e i s ∧
  Offer.isActive (getOffer s i) = true ∧
  s' = emit (OfferDeactivated i (Offer.creator (getOffer s i)))
         (set_activeOfferIds (swap_remove i (activeOfferIds s))
            (setOffer i (Offer.set_isActive false (getOffer s i)) s)).
Proof.
  unfold deactivateOffer. intros Hx.
  apply bind_Ok in Hx as (_ & Hid%require_Ok%valid_offer_id_spec & Hx).
  cbv zeta in Hx.
  apply bind_Ok in Hx as (_ & Hau%require_Ok%authorized_spec & Hx).
  apply bind_Ok in Hx as (_ & Hact%require_Ok & Hx).
  injection Hx as <-.
  split; [done|]. split; [done|]. split; [done|].
  unfold _removeFromActiveOffers, emit, setOffer, getOffer. cbn.
  rewrite lookup_insert_eq. reflexivity.
Qed.

(** *** Preservation of [ledger_inv] *)

Lemma removal_facts (l l' : list Z) i :
  NoDup l → l ≡ₚ i :: l' → NoDup l' ∧ ∀ j, j ∈ l' ↔ j ∈ l ∧ j ≠ i.
Proof.
  intros Hnd Hp. rewrite Hp in Hnd. apply NoDup_cons in Hnd as [Hni Hnd'].
  split; [done|]. intros j. rewrite Hp, elem_of_cons.
  split.
  - intros Hj. split; [by right|]. intros ->. done.
  - intros [[->|Hj] Hne]; done.
Qed.

Lemma ledger_inv_same s s' :
  ledger_inv s → same_config s s' →
  offers s' = offers s → activeOfferIds s' = activeOfferIds s →
  ledger_inv s'.
Proof.
  intros [Hl Hn Hc Hr Hnd Ha Hu Hf] (Hl' & Hn' & Hc' & Hu' & Hf') Ho' Ha'.
  split; unfold getOffer, getUserOffers in *;
    rewrite ?Hl', ?Hn', ?Hc', ?Hu', ?Hf', ?Ho', ?Ha'; done.
Qed.

Lemma ledger_inv_offer_update s s' i o' :
  ledger_inv s → same_config s s' →
  0 < i < nextOfferId s →
  Offer.isActive o' = Offer.isActive (getOffer s i) →
  offers s' = <[i := o']> (offers s) →
  activeOfferIds s' = activeOfferIds s →
  ledger_inv s'.
Proof.
  intros [Hl Hn Hc Hr Hnd Ha Hu Hf] (Hl' & Hn' & Hc' & Hu' & Hf') Hi Hact Ho' Ha'.
  split; unfold getOffer, getUserOffers in *;
    rewrite ?Hl', ?Hn', ?Hc', ?Hu', ?Hf', ?Ho', ?Ha'; try done.
  - intros j o. rewrite lookup_insert. case_decide; [intros _; lia | apply Hr].
  - intros j. rewrite lookup_insert. case_decide as Hj; cbn; [|apply Ha].
    subst j. rewrite Hact. apply Ha.
Qed.

Lemma ledger_inv_offer_close s s' i o' :
  ledger_inv s → same_config s s' →
  0 < i < nextOfferId s →
  Offer.isActive (getOffer s i) = true → Offer.isActive o' = false →
  offers s' = <[i := o']> (offers s) →
  activeOfferIds s' = swap_remove i (activeOfferIds s) →
  ledger_inv s'.
Proof.
  intros [Hl Hn Hc Hr Hnd Ha Hu Hf] (Hl' & Hn' & Hc' & Hu' & Hf') Hi Hact Hoff Ho' Ha'.
  pose proof (proj2 (Ha i) Hact) as Hin.
  destruct (removal_facts _ _ i Hnd (swap_remove_perm i _ Hin)) as [Hnd' Hmem].
  split; unfold getOffer, getUserOffers in *;
    rewrite ?Hl', ?Hn', ?Hc', ?Hu', ?Hf', ?Ho', ?Ha'; try done.
  - intros j o. rewrite lookup_insert. case_decide; [intros _; lia | apply Hr].
  - intros j. rewrite Hmem, lookup_insert. case_decide as Hj; cbn.
    + subst j. rewrite Hoff. split; [intros [_ ?]; done | discriminate].
    + rewrite Ha. split; [by intros [? _] | intros ?; split; [done | congruence]].
Qed.

Lemma purchased_offer_active o k :
  Offer.isActive (purchased_offer o k) =
  if Offer.availableSlots o - k =? 0 then false else Offer.isActive o.
Proof. unfold purchased_offer. cbn. by destruct (_ =? 0). Qed.

Lemma requestOfferReveal_inv e i s s' :
  ledger_inv s → requestOfferReveal e i s = Ok s' → ledger_inv s'.
Proof.
  intros Hinv (Hi & _ & ->)%requestOfferReveal_Ok.
  by eapply (ledger_inv_offer_update s _ i (getOffer s i)).
Qed.

Lemma resolveOfferCallback_inv e i ct pf s s' :
  ledger_inv s → resolveOfferCallback e i ct pf s = Ok s' → ledger_inv s'.
Proof.
  intros Hinv (Hi & _ & price & slots & _ & ->)%resolveOfferCallback_Ok.
  by eapply (ledger_inv_offer_update s _ i
               (Offer.set_slots slots (Offer.set_publicPrice price (getOffer s i)))).
Qed.

Lemma deactivateOffer_inv e i s s' :
  ledger_inv s → deactivateOffer e i s = Ok s' → ledger_inv s'.
Proof.
  intros Hinv (Hi & _ & Hact & ->)%deactivateOffer_Ok.
  by eapply (ledger_inv_offer_close s _ i (Offer.set_isActive false (getOffer s i))).
Qed.

Lemma comparePrices_Ok e i j s s' : comparePrices e i j s = Ok s' → s' = s.
Proof.
  unfold comparePrices. intros Hx.
  apply bind_Ok in Hx as (_ & _ & Hx).
  apply bind_Ok in Hx as (_ & _ & Hx). cbv zeta in Hx.
  apply bind_Ok in Hx as (_ & _ & [= <-]). done.
Qed.

Lemma updatePlatformFee_Ok e f s s' :
  updatePlatformFee e f s = Ok s' →
  msg_sender e = owner s ∧ f ≤ 1000 ∧ s' = set_platformFee f s.
Proof.
  unfold updatePlatformFee, onlyOwner. intros Hx.
  apply bind_Ok in Hx as (_ & Ho%require_Ok & Hx).
  apply bind_Ok in Hx as (_ & Hf%require_Ok & [= <-]).
  split_and!; [lia | lia | done].
Qed.

Lemma updateTreasury_Ok e a s s' :
  updateTreasury e a s = Ok s' →
  msg_sender e = owner s ∧ a ≠ 0 ∧ s' = set_treasury a s.
Proof.
  unfold updateTreasury, onlyOwner. intros Hx.
  apply bind_Ok in Hx as (_ & Ho%require_Ok & Hx).
  apply bind_Ok in Hx as (_ & Hf%require_Ok & [= <-]).
  split_and!; [lia | | done]. intros ->. done.
Qed.

Lemma emergencyWithdraw_in_Ok cb e s s' :
  emergencyWithdraw_in cb e s = Ok s' →
  msg_sender e = owner s ∧ 0 < balance s ∧
  accepts e (owner s) (balance s) = true ∧
  s' = cb 0%nat (owner s) (balance s) (set_balance 0 s).
Proof.
  unfold emergencyWithdraw_in, onlyOwner. intros Hx.
  apply bind_Ok in Hx as (_ & Ho%require_Ok & Hx). cbv zeta in Hx.
  apply bind_Ok in Hx as (_ & Hb%require_Ok & Hx).
  destruct (call_value _ _ _ _ _ _) as [ok s1] eqn:Hc.
  apply bind_Ok in Hx as (_ & ->%require_Ok & [= <-]).
  apply call_value_true in Hc as (Hacc & _ & ->).
  split_and!; [lia | lia | done |]. unfold pay. by rewrite Z.sub_diag.
Qed.

(** *** The invariant while calls are in progress *)

Lemma ledger_inv_view p q s : ledger_inv (view p s) → ledger_inv (view q s).
Proof. intros [? ? ? ? ? ? ? ?]. by split. Qed.

Lemma ledger_inv_view_pay p v s : ledger_inv (view p s) → ledger_inv (view p (pay v s)).
Proof. intros [? ? ? ? ? ? ? ?]. by split. Qed.

Lemma ledger_inv_view_balance p v s :
  ledger_inv (view p s) → ledger_inv (view p (set_balance v s)).
Proof. intros [? ? ? ? ? ? ? ?]. by split. Qed.

Lemma ledger_inv_view_closed p q e i k tp s :
  ledger_inv (view p s) → ledger_inv (view q (purchase_closed e i k tp s)).
Proof. intros [? ? ? ? ? ? ? ?]. by split. Qed.

(** A function that sends no value keeps the invariant, whether the lock is
    held or not. *)
Lemma plain_ledger_inv p e tx s s' :
  no_payout tx → exec_in plain e tx s = Ok s' →
  ledger_inv (view p s) → ledger_inv (view p s').
Proof.
  intros Hnp Hx Hinv. destruct tx; cbn in Hx, Hnp; try done;
    try apply nonpayable_Ok in Hx as [_ Hx].
  - apply createOfferWithFHE_created in Hx as [Hc _].
    eapply (created_inv e _ (view p s)); [|done].
    destruct Hc as (?&?&?&?&?&?&?&?&?). by split_and!.
  - apply createOffer_created in Hx as [Hc _].
    eapply (created_inv e _ (view p s)); [|done].
    destruct Hc as (?&?&?&?&?&?&?&?&?). by split_and!.
  - apply requestOfferReveal_Ok in Hx as (Hi & _ & ->).
    by eapply (ledger_inv_offer_update (view p s) _ _offerId (getOffer s _offerId)).
  - apply resolveOfferCallback_Ok in Hx as (Hi & _ & price & slots & _ & ->).
    by eapply (ledger_inv_offer_update (view p s) _ _offerId
                 (Offer.set_slots slots
                    (Offer.set_publicPrice price (getOffer s _offerId)))).
  - apply comparePrices_Ok in Hx as ->. done.
  - apply deactivateOffer_Ok in Hx as (Hi & _ & Hact & ->).
    by eapply (ledger_inv_offer_close (view p s) _ _offerId
                 (Offer.set_isActive false (getOffer s _offerId))).
  - apply updatePlatformFee_Ok in Hx as (_ & Hf & ->).
    destruct Hinv. by split.
  - apply updateTreasury_Ok in Hx as (_ & _ & ->).
    by eapply ledger_inv_same.
Qed.

(** The writes of a purchase keep the invariant. *)
Lemma purchase_written_inv p q e i k s :
  0 < i < nextOfferId s → Offer.isActive (getOffer s i) = true →
  ledger_inv (view p s) → ledger_inv (view q (purchase_written e i k s)).
Proof.
  intros Hi Hact Hinv.
  assert (same_config (view p s) (view q (purchase_written e i k s))) as Hcfg
    by done.
  destruct (Z.eqb_spec (Offer.availableSlots (getOffer s i) - k) 0) as [Hz|Hz].
  - eapply (ledger_inv_offer_close (view p s) _ i (purchased_offer (getOffer s i) k));
      try done.
    + rewrite purchased_offer_active. by rewrite Hz.
    + cbn. by rewrite Hz.
  - eapply (ledger_inv_offer_update (view p s) _ i (purchased_offer (getOffer s i) k));
      try done.
    + rewrite purchased_offer_active.
      by destruct (Z.eqb_spec (Offer.availableSlots (getOffer s i) - k) 0).
    + cbn.
      by destruct (Z.eqb_spec (Offer.availableSlots (getOffer s i) - k) 0).
Qed.

End Invariants.

(** * The slot bound *)

Section SlotBound.
Context `{FHEVM}.

Lemma slots_bounded_getOffer s i :
  slots_bounded s →
  Offer.availableSlots (getOffer s i) ≤ Offer.slots (getOffer s i).
Proof.
  intros Hb. unfold getOffer. destruct (offers s !! i) as [o|] eqn:Ho; cbn.
  - by apply (Hb i).
  - done.
Qed.

Lemma slots_bounded_insert s s' i o :
  slots_bounded s → offers s' = <[i := o]> (offers s) →
  Offer.availableSlots o ≤ Offer.slots o →
  slots_bounded s'.
Proof.
  intros Hb Ho Hle j o'. rewrite Ho, lookup_insert.
  case_decide; [intros [= <-]; done | apply Hb].
Qed.

Lemma purchased_offer_slots o k :
  Offer.slots (purchased_offer o k) = Offer.slots o.
Proof. unfold purchased_offer. cbn. by destruct (_ =? 0). Qed.

Lemma plain_slots_bounded e tx s s' :
  no_payout tx →
  slots_bounded s → resolve_keeps_bound tx s →
  exec_in plain e tx s = Ok s' → slots_bounded s'.
Proof.
  intros Hnp Hb Hres Hx.
  pose proof (fun i => slots_bounded_getOffer s i Hb) as Hg.
  destruct tx; cbn in Hx, Hnp; try done; try apply nonpayable_Ok in Hx as [_ Hx].
  - apply createOfferWithFHE_created in Hx as [Hc _]. by eapply created_slots_bounded.
  - apply createOffer_created in Hx as [Hc _]. by eapply created_slots_bounded.
  - apply requestOfferReveal_Ok in Hx as (_ & _ & ->).
    eapply (slots_bounded_insert s _ _offerId); [done | reflexivity | apply Hg].
  - apply resolveOfferCallback_Ok in Hx as (_ & _ & price & slots & Hdec & ->).
    eapply (slots_bounded_insert s _ _offerId); [done | reflexivity |].
    cbn. by apply (Hres price).
  - apply comparePrices_Ok in Hx as ->. done.
  - apply deactivateOffer_Ok in Hx as (_ & _ & _ & ->).
    eapply (slots_bounded_insert s _ _offerId); [done | reflexivity | apply Hg].
  - apply updatePlatformFee_Ok in Hx as (_ & _ & ->). done.
  - apply updateTreasury_Ok in Hx as (_ & _ & ->). done.
Qed.

Lemma purchase_written_slots_bounded e i k s :
  0 < k → slots_bounded s → slots_bounded (purchase_written e i k s).
Proof.
  intros Hk Hb.
  eapply (slots_bounded_insert s _ i); [done | reflexivity |].
  rewrite purchased_offer_available, purchased_offer_slots.
  pose proof (slots_bounded_getOffer s i Hb). lia.
Qed.

End SlotBound.

(** * The effect of a transaction *)

Section Effects.
Context `{FHEVM}.

Lemma be_to_Z_nonneg bs : 0 ≤ be_to_Z bs.
Proof.
  unfold be_to_Z.
  cut (∀ acc, 0 ≤ acc →
         0 ≤ fold_left (fun acc b => acc * 256 + Z.of_N (Byte.to_N b)) bs acc).
  { intros Hc. by apply Hc. }
  induction bs as [|b bs IH]; intros acc Hacc; cbn.
  - done.
  - apply IH. lia.
Qed.

Lemma abi_decode_range ct price slots :
  abi_decode_uint64_uint32 ct = Ok (price, slots) →
  0 ≤ price ≤ MAX_UINT64 ∧ 0 ≤ slots ≤ MAX_UINT32.
Proof.
  unfold abi_decode_uint64_uint32.
  destruct (_ <? 64); [discriminate|].
  destruct (Z.leb_spec (be_to_Z (take 32 ct)) MAX_UINT64); cbn; [|discriminate].
  destruct (Z.leb_spec (be_to_Z (take 32 (drop 32 ct))) MAX_UINT32); cbn;
    [|discriminate].
  intros [= <- <-]. split; (split; [apply be_to_Z_nonneg | done]).
Qed.

Lemma createOffer_full e t d p du sl s s' :
  createOffer e t d p du sl s = Ok s' →
  locked s = false ∧ valid_fields t d p du sl ∧ p ≤ MAX_UINT64 ∧
  s' = create_result e t d p du sl
         (asEuint64 (uint64 p)) (asEuint32 (uint32 du)) (asEuint32 (uint32 sl))
         [(asEuint64 (uint64 p), ThisContract); (asEuint32 (uint32 du), ThisContract);
          (asEuint32 (uint32 sl), ThisContract)] s.
Proof.
  intros Hx. apply nonReentrant_Ok in Hx as (Hl & s1 & Hx & ->).
  apply bind_Ok in Hx as (_ & Ht%require_Ok%nonempty_length & Hx).
  apply bind_Ok in Hx as (_ & Hd%require_Ok%nonempty_length & Hx).
  apply bind_Ok in Hx as (_ & Hp%require_Ok%Z.ltb_lt & Hx).
  apply bind_Ok in Hx as (_ & Hp64%require_Ok%Z.leb_le & Hx).
  apply bind_Ok in Hx as (_ & Hdu%require_Ok%Z.ltb_lt & Hx).
  apply bind_Ok in Hx as (_ & Hsl%require_Ok%Z.ltb_lt & Hx).
  inv_result. subst. split_and!; try done.
  unfold create_result, new_offer, getUserOffers, emit, setOffer, allowThis, allow.
  cbn. f_equal. by rewrite <- !app_assoc.
Qed.

Lemma createOfferWithFHE_full e t d p du sl ep ed es pr s s' :
  createOfferWithFHE e t d p du sl ep ed es pr s = Ok s' →
  locked s = false ∧ valid_fields t d p du sl ∧
  verifyInput (msg_sender e) ep pr = true ∧
  verifyInput (msg_sender e) ed pr = true ∧
  verifyInput (msg_sender e) es pr = true ∧
  s' = create_result e t d p du sl ep ed es
         [(ep, ThisContract); (ed, ThisContract); (es, ThisContract);
          (ep, Account (msg_sender e)); (ed, Account (msg_sender e));
          (es, Account (msg_sender e))] s.
Proof.
  intros Hx. apply nonReentrant_Ok in Hx as (Hl & s1 & Hx & ->).
  apply bind_Ok in Hx as (_ & Ht%require_Ok%nonempty_length & Hx).
  apply bind_Ok in Hx as (_ & Hd%require_Ok%nonempty_length & Hx).
  apply bind_Ok in Hx as (_ & Hp%require_Ok%Z.ltb_lt & Hx).
  apply bind_Ok in Hx as (_ & Hdu%require_Ok%Z.ltb_lt & Hx).
  apply bind_Ok in Hx as (_ & Hsl%require_Ok%Z.ltb_lt & Hx).
  unfold fromExternal in Hx.
  destruct (verifyInput (msg_sender e) ep pr); [|discriminate]. cbn in Hx.
  destruct (verifyInput (msg_sender e) ed pr); [|discriminate]. cbn in Hx.
  destruct (verifyInput (msg_sender e) es pr); [|discriminate]. cbn in Hx.
  inv_result. subst. split_and!; try done.
  unfold create_result, new_offer, getUserOffers, emit, setOffer, allowThis, allow.
  cbn. f_equal. by rewrite <- !app_assoc.
Qed.

Lemma offer_kept_refl o : offer_kept o o.
Proof. unfold offer_kept. split_and!; try done. by left. Qed.

Lemma exec_effect e tx s s' :
  tx_wf tx → no_payout tx → exec_in plain e tx s = Ok s' → effect e s s'.
Proof.
  intros Hwf Hnp Hx. destruct tx; cbn in Hx, Hwf, Hnp; try done;
    try apply nonpayable_Ok in Hx as [_ Hx].
  - apply createOfferWithFHE_full in Hx as (_ & Hv & _ & _ & _ & ->).
    by constructor.
  - apply createOffer_full in Hx as (_ & Hv & _ & ->). by constructor.
  - apply requestOfferReveal_Ok in Hx as (Hi & _ & ->).
    apply (effect_amend e s _offerId (getOffer s _offerId) (activeOfferIds s)
             (publicDecrypt s ++ [Offer.encryptedPrice (getOffer s _offerId);
                                  Offer.encryptedSlots (getOffer s _offerId)])
             [TallyRevealRequested _offerId
                (Offer.encryptedPrice (getOffer s _offerId))
                (Offer.encryptedSlots (getOffer s _offerId))]);
      [done | apply offer_kept_refl | by repeat constructor].
  - apply resolveOfferCallback_Ok in Hx as (Hi & _ & price & slots & Hdec & ->).
    apply abi_decode_range in Hdec as [[Hp _] _].
    replace (setOffer _ _ s) with
      (amend_result _offerId
         (Offer.set_slots slots (Offer.set_publicPrice price (getOffer s _offerId)))
         (activeOfferIds s) (publicDecrypt s) [] s).
    2:{ unfold amend_result, setOffer. rewrite app_nil_r. by destruct s. }
    constructor; [done | | constructor].
    unfold offer_kept. cbn. split_and!; try done. by right.
  - apply comparePrices_Ok in Hx as ->.
    replace s with
      (config_result (owner s) (platformFee s) (treasury s) (balance s) s) at 2
      by (by destruct s).
    constructor; by left.
  - apply deactivateOffer_Ok in Hx as (Hi & _ & Hact & ->).
    apply (effect_amend e s _offerId (Offer.set_isActive false (getOffer s _offerId))
             (swap_remove _offerId (activeOfferIds s)) (publicDecrypt s)
             [OfferDeactivated _offerId (Offer.creator (getOffer s _offerId))]);
      [done | | by repeat constructor].
    unfold offer_kept. cbn. split_and!; try done. by left.
  - apply updatePlatformFee_Ok in Hx as (_ & Hf & ->).
    replace (set_platformFee _newFee s) with
      (config_result (owner s) _newFee (treasury s) (balance s) s)
      by (by destruct s).
    constructor; [right; unfold is_uint256 in Hwf; lia | by left | by left].
  - apply updateTreasury_Ok in Hx as (_ & Ha & ->).
    replace (set_treasury _newTreasury s) with
      (config_result (owner s) (platformFee s) _newTreasury (balance s) s)
      by (by destruct s).
    constructor; [by left | by right | by left].
Qed.

End Effects.

(** * Accounting invariants of reachable ledgers *)

Section Accounting.
Context `{FHEVM}.

Lemma getOffer_create_result e t d p du sl hp hd hs g s j :
  getOffer (create_result e t d p du sl hp hd hs g s) j =
  if decide (nextOfferId s = j)
  then new_offer e (nextOfferId s) t d p du sl hp hd hs else getOffer s j.
Proof.
  unfold getOffer, create_result. cbn. rewrite lookup_insert. by case_decide.
Qed.

Lemma getOffer_purchase_result e i k s j :
  getOffer (purchase_result e i k s) j =
  if decide (i = j) then purchased_offer (getOffer s i) k else getOffer s j.
Proof.
  unfold getOffer at 1, purchase_result. cbn. rewrite lookup_insert.
  by case_decide.
Qed.

Lemma getOffer_amend_result i o' act pd evs s j :
  getOffer (amend_result i o' act pd evs s) j =
  if decide (i = j) then o' else getOffer s j.
Proof.
  unfold getOffer, amend_result. cbn. rewrite lookup_insert. by case_decide.
Qed.

Lemma getOffer_config_result ow fee tr bal s j :
  getOffer (config_result ow fee tr bal s) j = getOffer s j.
Proof. reflexivity. Qed.

Lemma getOffer_stored s i :
  offers_inv s → 0 < i < nextOfferId s → offers s !! i = Some (getOffer s i).
Proof.
  intros Hinv Hi. unfold getOffer.
  by destruct (off_stored s Hinv i Hi) as [o ->].
Qed.

Lemma offers_inv_insert s s' j o' :
  offers_inv s →
  offers s' = <[j := o']> (offers s) →
  (nextOfferId s' = nextOfferId s ∧ 0 < j < nextOfferId s) ∨
  (nextOfferId s' = nextOfferId s + 1 ∧ j = nextOfferId s ∧ 0 < j) →
  Offer.id o' = j →
  Offer.expiresAt o' = Offer.createdAt o' + Offer.duration o' * ONE_DAY →
  (Offer.isActive o' = true → 0 < Offer.availableSlots o') →
  0 ≤ Offer.availableSlots o' ∧ 0 ≤ Offer.publicPrice o' →
  offers_inv s'.
Proof.
  intros [Hst Hid Hex Has Hnn] Ho Hnext Hid' Hex' Has' Hnn'. split.
  - intros i Hi. rewrite Ho, lookup_insert. case_decide; [by eexists|].
    apply Hst. lia.
  - intros i o. rewrite Ho, lookup_insert. case_decide.
    + intros [= <-]. congruence.
    + apply Hid.
  - intros i o. rewrite Ho, lookup_insert. case_decide.
    + by intros [= <-].
    + apply Hex.
  - intros i o. rewrite Ho, lookup_insert. case_decide.
    + by intros [= <-].
    + apply Has.
  - intros i o. rewrite Ho, lookup_insert. case_decide.
    + by intros [= <-].
    + apply Hnn.
Qed.

Lemma offers_inv_effect e s s' :
  ledger_inv s → offers_inv s → effect e s s' → offers_inv s'.
Proof.
  intros Hl Hinv Heff.
  destruct Heff as [t d p du sl hp hd hs g (_ & _ & Hp & Hdu & Hsl)
                   | i k Hi Hk (Hact & Hpos & Hle & _)
                   | i o' act pd evs Hi Hkept _
                   | ow fee tr bal _ _ _].
  - pose proof (inv_next_pos s Hl).
    eapply (offers_inv_insert s _ (nextOfferId s)); [done | reflexivity | ..];
      cbn; try done; lia.
  - pose proof (getOffer_stored s i Hinv Hi) as Hst.
    pose proof (off_id s Hinv i _ Hst). pose proof (off_expiry s Hinv i _ Hst).
    pose proof (off_nonneg s Hinv i _ Hst).
    eapply (offers_inv_insert s _ i); [done | reflexivity | by left | ..];
      unfold purchased_offer;
      destruct (Z.eqb_spec (Offer.availableSlots (getOffer s i) - k) 0);
      cbn; try done; lia.
  - pose proof (getOffer_stored s i Hinv Hi) as Hst.
    pose proof (off_id s Hinv i _ Hst). pose proof (off_expiry s Hinv i _ Hst).
    pose proof (off_nonneg s Hinv i _ Hst).
    pose proof (off_active_slots s Hinv i _ Hst).
    destruct Hkept as (Hid & _ & _ & _ & Hdu & Hav & Hca & Hex & _ & _ & _ & Hac & Hpr).
    eapply (offers_inv_insert s _ i); [done | reflexivity | by left | ..].
    + congruence.
    + congruence.
    + rewrite Hav. auto.
    + rewrite Hav. split; [lia|]. destruct Hpr as [->|?]; lia.
  - destruct Hinv. by split.
Qed.


Lemma sumZ_app l k : sumZ (l ++ k) = sumZ l + sumZ k.
Proof. induction l as [|x l IH]; cbn; [done | unfold sumZ in *; lia]. Qed.

Lemma seqZ_snoc n : 0 ≤ n → seqZ 1 (n + 1) = seqZ 1 n ++ [n + 1].
Proof.
  intros Hn. rewrite seqZ_app by lia. f_equal.
  rewrite seqZ_cons by lia. rewrite seqZ_nil by lia. f_equal. lia.
Qed.

Lemma fmap_ext_in {A B} (f g : A → B) (l : list A) :
  (∀ x, x ∈ l → f x = g x) → f <$> l = g <$> l.
Proof. intros Hfg. apply Forall_fmap_ext, Forall_forall. done. Qed.

Lemma getPurchase_purchase_result e i k s j :
  getPurchase (purchase_result e i k s) j =
  if decide (nextPurchaseId s = j)
  then {| Purchase.offerId := i; Purchase.buyer := msg_sender e;
          Purchase.slots := k;
          Purchase.totalPrice := Offer.publicPrice (getOffer s i) * k;
          Purchase.timestamp := block_timestamp e |}
  else getPurchase s j.
Proof.
  unfold getPurchase, purchase_result. cbn. rewrite lookup_insert. by case_decide.
Qed.

(** A sum over the purchase records grows by the term of the new record. *)
Lemma sum_records_purchase (f : Purchase.t → Z) e i k s :
  0 < nextPurchaseId s →
  sumZ ((fun j => f (getPurchase (purchase_result e i k s) j))
          <$> purchase_ids (purchase_result e i k s)) =
  sumZ ((fun j => f (getPurchase s j)) <$> purchase_ids s) +
  f {| Purchase.offerId := i; Purchase.buyer := msg_sender e;
       Purchase.slots := k;
       Purchase.totalPrice := Offer.publicPrice (getOffer s i) * k;
       Purchase.timestamp := block_timestamp e |}.
Proof.
  intros Hn. unfold purchase_ids. cbn [nextPurchaseId purchase_result].
  replace (nextPurchaseId s + 1 - 1) with (nextPurchaseId s - 1 + 1) by lia.
  rewrite seqZ_snoc by lia. rewrite fmap_app, sumZ_app. cbn [fmap list_fmap].
  rewrite getPurchase_purchase_result.
  replace (nextPurchaseId s - 1 + 1) with (nextPurchaseId s) by lia.
  rewrite decide_True by done. unfold sumZ at 3. cbn. rewrite Z.add_0_r.
  f_equal. f_equal. apply fmap_ext_in. intros j [Hj1 Hj2]%elem_of_seqZ.
  rewrite getPurchase_purchase_result. rewrite decide_False by lia. done.
Qed.

Lemma purchases_inv_same s s' :
  purchases_inv s →
  purchases s' = purchases s → nextPurchaseId s' = nextPurchaseId s →
  totalPurchases s' = totalPurchases s → totalVolume s' = totalVolume s →
  nextOfferId s ≤ nextOfferId s' →
  (∀ i, 0 < i < nextOfferId s →
     Offer.creator (getOffer s' i) = Offer.creator (getOffer s i)) →
  purchases_inv s'.
Proof.
  intros [Hn Hc Hr Hst Hv Hvol] Hp Hnp Htp Htv Hno Hcr. split.
  - lia.
  - lia.
  - intros j p. rewrite Hp, Hnp. apply Hr.
  - intros j. rewrite Hp, Hnp. apply Hst.
  - intros j p. rewrite Hp. intros Hj.
    destruct (Hv j p Hj) as (Hoff & Hsl & Hb). split_and!; [lia.. | done |].
    by rewrite Hcr.
  - rewrite Htv, Hvol. unfold recorded_volume, purchase_ids, getPurchase.
    by rewrite Hp, Hnp.
Qed.

Lemma purchases_inv_effect e s s' :
  ledger_inv s → offers_inv s → purchases_inv s → effect e s s' → purchases_inv s'.
Proof.
  intros Hl Ho Hinv Heff.
  destruct Heff as [t d p du sl hp hd hs g _
                   | i k Hi Hk (Hact & Hpos & Hle & _ & Hne & _)
                   | i o' act pd evs Hi Hkept _
                   | ow fee tr bal _ _ _].
  - apply (purchases_inv_same s); cbn; try done; [lia|].
    intros i Hi. rewrite getOffer_create_result. rewrite decide_False by lia. done.
  - destruct Hinv as [Hn Hc Hr Hst Hv Hvol]. split.
    + cbn. lia.
    + cbn. lia.
    + intros j p. cbn. rewrite lookup_insert. case_decide.
      * intros _. lia.
      * intros Hj%Hr. lia.
    + intros j Hj. cbn in *. rewrite lookup_insert. case_decide; [by eexists|].
      apply Hst. lia.
    + intros j p. cbn [purchases purchase_result nextOfferId].
      rewrite lookup_insert. case_decide.
      * intros [= <-]. cbn. split_and!; try lia.
        rewrite getOffer_purchase_result, decide_True by done.
        by rewrite purchased_offer_creator.
      * intros Hj. destruct (Hv j p Hj) as (Hoff & Hsl & Hb).
        split_and!; try lia. rewrite getOffer_purchase_result.
        case_decide as Heq; [|done]. rewrite purchased_offer_creator. by rewrite Heq.
    + unfold recorded_volume.
      rewrite (sum_records_purchase Purchase.totalPrice) by done.
      cbn. fold (recorded_volume s). by rewrite Hvol.
  - destruct Hkept as (_ & Hcr & _).
    apply (purchases_inv_same s); cbn; try done.
    intros j Hj. rewrite getOffer_amend_result. case_decide as Heq; [|done].
    by rewrite Hcr, Heq.
  - by apply (purchases_inv_same s).
Qed.


(** An index [ix] from owners to ids over a table [m] of records, each owned
    by [who]: appending a fresh id, and updating a record in place. *)
Lemma index_append {X} (who : X → Z) (m : gmap Z X) (ix : gmap Z (list Z))
    (n : Z) (x : X) :
  (∀ a i, i ∈ default [] (ix !! a) ↔ ∃ y, m !! i = Some y ∧ who y = a) →
  (∀ a, NoDup (default [] (ix !! a))) →
  m !! n = None →
  (∀ a i, i ∈ default [] (<[who x := default [] (ix !! who x) ++ [n]]> ix !! a) ↔
          ∃ y, <[n := x]> m !! i = Some y ∧ who y = a) ∧
  (∀ a, NoDup (default [] (<[who x := default [] (ix !! who x) ++ [n]]> ix !! a))).
Proof.
  intros Hix Hnd Hfresh.
  assert (∀ a, n ∉ default [] (ix !! a)) as Hnotin.
  { intros a [y [Hy _]]%Hix. congruence. }
  split.
  - intros a i. rewrite (lookup_insert ix), (lookup_insert m).
    destruct (decide (who x = a)) as [Ha|Ha]; cbn.
    + rewrite elem_of_app, list_elem_of_singleton, Hix. subst a. split.
      * intros [(y & Hy & Hw)| ->].
        -- exists y. rewrite decide_False by congruence. done.
        -- exists x. by rewrite decide_True.
      * intros (y & Hy & Hw). destruct (decide (n = i)) as [->|]; [by right|].
        left. by exists y.
    + rewrite Hix. split.
      * intros (y & Hy & Hw). exists y. rewrite decide_False by congruence. done.
      * intros (y & Hy & Hw). destruct (decide (n = i)) as [->|]; [|by exists y].
        injection Hy as <-. done.
  - intros a. rewrite (lookup_insert ix).
    destruct (decide (who x = a)) as [Ha|Ha]; cbn; [|apply Hnd].
    apply NoDup_app. split_and!; [apply Hnd | | apply NoDup_singleton].
    intros i Hi ->%list_elem_of_singleton. by apply (Hnotin (who x)).
Qed.

Lemma index_update {X} (who : X → Z) (m : gmap Z X) (ix : gmap Z (list Z))
    (i : Z) (x x' : X) :
  (∀ a j, j ∈ default [] (ix !! a) ↔ ∃ y, m !! j = Some y ∧ who y = a) →
  m !! i = Some x → who x' = who x →
  ∀ a j, j ∈ default [] (ix !! a) ↔ ∃ y, <[i := x']> m !! j = Some y ∧ who y = a.
Proof.
  intros Hix Hi Hw a j. rewrite Hix. setoid_rewrite (lookup_insert m).
  destruct (decide (i = j)) as [->|]; [|done]. split.
  - intros (y & Hy & Hwy). exists x'. split; [done|]. congruence.
  - intros (y & [= <-] & Hwy). exists x. split; [done|]. congruence.
Qed.

Lemma index_inv_effect e s s' :
  ledger_inv s → offers_inv s → purchases_inv s → index_inv s →
  effect e s s' → index_inv s'.
Proof.
  intros Hl Ho Hp [Hio Hiod Hip Hipd] Heff.
  unfold getUserOffers, getUserPurchases in *.
  destruct Heff as [t d p du sl hp hd hs g _
                   | i k Hi Hk _
                   | i o' act pd evs Hi Hkept _
                   | ow fee tr bal _ _ _].
  - assert (offers s !! nextOfferId s = None) as Hfresh.
    { destruct (offers s !! nextOfferId s) eqn:Hx; [|done].
      apply (inv_offers_range s Hl) in Hx. lia. }
    destruct (index_append Offer.creator (offers s) (userOffers s) (nextOfferId s)
                (new_offer e (nextOfferId s) t d p du sl hp hd hs) Hio Hiod Hfresh)
      as [H1 H2].
    by split.
  - assert (purchases s !! nextPurchaseId s = None) as Hfresh.
    { destruct (purchases s !! nextPurchaseId s) eqn:Hx; [|done].
      apply (pur_range s Hp) in Hx. lia. }
    destruct (index_append Purchase.buyer (purchases s) (userPurchases s)
                (nextPurchaseId s)
                {| Purchase.offerId := i; Purchase.buyer := msg_sender e;
                   Purchase.slots := k;
                   Purchase.totalPrice := Offer.publicPrice (getOffer s i) * k;
                   Purchase.timestamp := block_timestamp e |} Hip Hipd Hfresh)
      as [H1 H2].
    split; unfold getUserOffers, getUserPurchases; try done.
    apply (index_update Offer.creator (offers s) (userOffers s) i (getOffer s i));
      [done | by apply getOffer_stored | apply purchased_offer_creator].
  - destruct Hkept as (_ & Hcr & _).
    split; unfold getUserOffers, getUserPurchases; try done.
    apply (index_update Offer.creator (offers s) (userOffers s) i (getOffer s i));
      [done | by apply getOffer_stored | done].
  - by split.
Qed.

Lemma funds_inv_effect e s s' :
  offers_inv s → funds_inv s → effect e s s' → funds_inv s'.
Proof.
  intros Ho [Hfee Htr Hbal] Heff.
  destruct Heff as [t d p du sl hp hd hs g _
                   | i k Hi Hk (_ & _ & _ & _ & _ & Hpay)
                   | i o' act pd evs Hi Hkept _
                   | ow fee tr bal Hf Ht Hb].
  - by split.
  - split; [done | done |]. cbn.
    destruct (off_nonneg s Ho i _ (getOffer_stored s i Ho Hi)) as [_ Hprice].
    set (tp := Offer.publicPrice (getOffer s i) * k) in *.
    assert (0 ≤ tp) as Htp by (unfold tp; nia).
    assert (0 ≤ (tp * platformFee s) `div` 10000) as Hfa
      by (apply Z.div_pos; nia).
    unfold transfers_paid.
    destruct (Z.ltb_spec 0 ((tp * platformFee s) `div` 10000));
      destruct (Z.ltb_spec tp (msg_value e)); lia.
  - by split.
  - split; cbn.
    + destruct Hf as [->|?]; lia.
    + by destruct Ht as [->|?].
    + destruct Hb as [->|?]; lia.
Qed.


Lemma sumZ_zero (l : list Z) : (∀ x, x ∈ l → x = 0) → sumZ l = 0.
Proof.
  induction l as [|x l IH]; [done|]. intros Hz. cbn.
  rewrite (Hz x) by (by left). unfold sumZ in IH. rewrite IH; [done|].
  intros y Hy. apply Hz. by right.
Qed.

(** No recorded purchase refers to the id of the next offer. *)
Lemma sold_slots_fresh s :
  purchases_inv s → sold_slots s (nextOfferId s) = 0.
Proof.
  intros Hp. unfold sold_slots. apply sumZ_zero.
  intros x (j & -> & [Hj1 Hj2]%elem_of_seqZ)%list_elem_of_fmap.
  destruct (pur_stored s Hp j) as [p Hj]; [lia|].
  unfold sold_in, getPurchase. rewrite Hj. cbn.
  destruct (pur_valid s Hp j p Hj) as (Hoff & _).
  destruct (Z.eqb_spec (Purchase.offerId p) (nextOfferId s)); [lia | done].
Qed.

Lemma events_inv_effect e s s' :
  ledger_inv s → offers_inv s → purchases_inv s → events_inv s →
  effect e s s' → events_inv s'.
Proof.
  intros Hl Ho Hp [Hevp Hevc Hevo] Heff.
  destruct Heff as [t d p du sl hp hd hs g _
                   | i k Hi Hk _
                   | i o' act pd evs Hi Hkept Hquiet
                   | ow fee tr bal _ _ _].
  - pose proof (inv_next_pos s Hl) as Hn. split.
    + intros j q Hj. destruct (Hevp j q Hj) as [left Hin].
      exists left. cbn. apply elem_of_app. by left.
    + intros i c t' p' d' sl'. cbn [events create_result nextOfferId].
      rewrite elem_of_app, list_elem_of_singleton.
      rewrite getOffer_create_result.
      change (sold_slots (create_result e t d p du sl hp hd hs g s) i)
        with (sold_slots s i).
      intros [Hin|Heq].
      * destruct (Hevc i c t' p' d' sl' Hin) as (Hi & Hc & Hsum).
        rewrite decide_False by lia. split_and!; [lia.. | done | done].
      * injection Heq as -> -> -> -> -> ->.
        rewrite decide_True by done. cbn.
        rewrite (sold_slots_fresh s Hp). split_and!; [lia.. | done | lia].
    + intros i o. cbn [offers events create_result]. rewrite lookup_insert.
      case_decide.
      * intros [= <-]. subst i. exists t, p, du, sl. cbn.
        apply elem_of_app. right. by apply list_elem_of_singleton.
      * intros Hj. destruct (Hevo i o Hj) as (t' & p' & d' & sl' & Hin).
        exists t', p', d', sl'. apply elem_of_app. by left.
  - pose proof (getOffer_stored s i Ho Hi) as Hst. split.
    + intros j q. cbn [purchases events purchase_result]. rewrite lookup_insert.
      case_decide.
      * intros [= <-]. cbn. eexists. apply elem_of_app. right.
        by apply list_elem_of_singleton.
      * intros Hj. destruct (Hevp j q Hj) as [left Hin].
        exists left. apply elem_of_app. by left.
    + intros i0 c t' p' d' sl'. cbn [events purchase_result nextOfferId].
      rewrite elem_of_app, list_elem_of_singleton.
      intros [Hin|Heq]; [|discriminate].
      destruct (Hevc i0 c t' p' d' sl' Hin) as (Hi0 & Hc & Hsum).
      split; [done|]. rewrite getOffer_purchase_result.
      unfold sold_slots at 1.
      rewrite (sum_records_purchase (sold_in i0)) by apply (pur_next_pos s Hp).
      fold (sold_slots s i0). unfold sold_in at 1. cbn.
      case_decide as Heq.
      * subst i0. rewrite purchased_offer_creator, purchased_offer_available.
        rewrite Z.eqb_refl. split; [done | lia].
      * destruct (Z.eqb_spec i i0); [done|]. split; [done | lia].
    + intros i0 o. cbn [offers events purchase_result]. rewrite lookup_insert.
      case_decide.
      * intros [= <-]. subst i0. rewrite purchased_offer_creator.
        destruct (Hevo i _ Hst) as (t' & p' & d' & sl' & Hin).
        exists t', p', d', sl'. apply elem_of_app. by left.
      * intros Hj. destruct (Hevo i0 o Hj) as (t' & p' & d' & sl' & Hin).
        exists t', p', d', sl'. apply elem_of_app. by left.
  - pose proof (getOffer_stored s i Ho Hi) as Hst.
    destruct Hkept as (_ & Hcr & _ & _ & _ & Hav & _). split.
    + intros j q Hj. destruct (Hevp j q Hj) as [left Hin].
      exists left. cbn. apply elem_of_app. by left.
    + intros i0 c t' p' d' sl'. cbn [events amend_result set_events].
      rewrite elem_of_app. intros [Hin|Hin].
      2:{ rewrite Forall_forall in Hquiet. by apply Hquiet in Hin. }
      destruct (Hevc i0 c t' p' d' sl' Hin) as (Hi0 & Hc & Hsum).
      split; [done|]. rewrite getOffer_amend_result.
      change (sold_slots (amend_result i o' act pd evs s) i0) with (sold_slots s i0).
      case_decide as Heq; [|done]. subst i0. by rewrite Hcr, Hav.
    + intros i0 o. cbn [offers events amend_result set_events set_publicDecrypt
                          set_activeOfferIds set_offers].
      rewrite lookup_insert. case_decide.
      * intros [= <-]. subst i0. rewrite Hcr.
        destruct (Hevo i _ Hst) as (t' & p' & d' & sl' & Hin).
        exists t', p', d', sl'. apply elem_of_app. by left.
      * intros Hj. destruct (Hevo i0 o Hj) as (t' & p' & d' & sl' & Hin).
        exists t', p', d', sl'. apply elem_of_app. by left.
  - by split.
Qed.


Lemma effect_accounting e s s' :
  ledger_inv s → accounting s → effect e s s' → accounting s'.
Proof.
  intros Hl (Ho & Hp & Hi & Hf & He) Heff. split_and!.
  - by eapply offers_inv_effect.
  - by eapply purchases_inv_effect.
  - by eapply index_inv_effect.
  - by eapply funds_inv_effect.
  - by eapply events_inv_effect.
Qed.

Lemma deploy_accounting deployer _treasury s :
  deploy deployer _treasury = Ok s → accounting s.
Proof.
  unfold deploy. intros Hd.
  apply bind_Ok in Hd as (_ & Htr%require_Ok & [= <-]).
  assert (_treasury ≠ 0) as Hne.
  { intros ->. done. }
  split_and!; split; unfold getOffer, getUserOffers, getUserPurchases; cbn;
    try done; try lia.
  - intros a i. rewrite lookup_empty. cbn. split; [by intros ?%elem_of_nil|].
    intros (o & Ho & _). by rewrite lookup_empty in Ho.
  - intros a. rewrite lookup_empty. apply NoDup_nil_2.
  - intros a i. rewrite lookup_empty. cbn. split; [by intros ?%elem_of_nil|].
    intros (o & Ho & _). by rewrite lookup_empty in Ho.
  - intros a. rewrite lookup_empty. apply NoDup_nil_2.
  - intros i c t p d sl ?%elem_of_nil. done.
Qed.

Lemma set_owner_config a s :
  set_owner a s = config_result a (platformFee s) (treasury s) (balance s) s.
Proof. by destruct s. Qed.

End Accounting.

(** * The evolution of an offer *)

Lemma offer_evolves_refl o : offer_evolves o o.
Proof. unfold offer_evolves. split_and!; try done. Qed.

Lemma offer_evolves_trans o1 o2 o3 :
  offer_evolves o1 o2 → offer_evolves o2 o3 → offer_evolves o1 o3.
Proof.
  unfold offer_evolves.
  intros (?&?&?&?&?&?&?&?&?&?&?&?) (?&?&?&?&?&?&?&?&?&?&?&?).
  split_and!; try congruence; try lia. auto.
Qed.

Lemma purchased_offer_evolves o k : 0 < k → offer_evolves o (purchased_offer o k).
Proof.
  intros Hk. unfold offer_evolves, purchased_offer.
  case_match; cbn; split_and!; try done; lia.
Qed.

Lemma offer_kept_evolves o o' : offer_kept o o' → offer_evolves o o'.
Proof.
  unfold offer_kept, offer_evolves. intros (?&?&?&?&?&?&?&?&?&?&?&?&?).
  split_and!; try done; lia.
Qed.

Lemma getOffer_emit ev s i : getOffer (emit ev s) i = getOffer s i.
Proof. reflexivity. Qed.

Lemma getOffer_set_publicDecrypt l s i :
  getOffer (set_publicDecrypt l s) i = getOffer s i.
Proof. reflexivity. Qed.

Lemma getOffer_set_activeOfferIds l s i :
  getOffer (set_activeOfferIds l s) i = getOffer s i.
Proof. reflexivity. Qed.

Ltac offer_after :=
  rewrite ?getOffer_emit, ?getOffer_set_publicDecrypt,
    ?getOffer_set_activeOfferIds, ?getOffer_setOffer.

(** * Calls and their calls back *)

Section Calls.
Context `{FHEVM}.

Lemma exec_unfold e tx s : exec e tx s = exec_in (callbacks e) e tx s.
Proof. destruct e. reflexivity. Qed.

Lemma exec_no_payout cb e tx s :
  no_payout tx → exec_in cb e tx s = exec_in plain e tx s.
Proof. by destruct tx. Qed.

Lemma run_cons e tx l s : run ((e, tx) :: l) s = run l (step e tx s).
Proof. reflexivity. Qed.

Lemma calls_all_True e tx : calls_all (fun _ _ => True) e tx.
Proof.
  revert e tx. fix IH 1. intros [ms mv bt ac re] tx. constructor; [done|].
  cbn. intros n a v.
  assert (Forall (fun et => calls_all (fun _ _ => True) et.1 et.2) (re n a v)) as Hall.
  { induction (re n a v) as [|[e1 t1] l IHl]; constructor; [apply IH | apply IHl]. }
  intros e' tx' Hin. rewrite Forall_forall in Hall. apply (Hall _ Hin).
Qed.

Lemma env_wf_calls e tx :
  env_wf e → tx_wf tx → calls_all (fun _ tx => tx_wf tx) e tx.
Proof.
  intros He. revert tx. induction He as [e _ _ _ _ _ IH Htx].
  intros tx Htx0. constructor; [exact Htx0|].
  intros n a v e' tx' Hin. apply (IH n a v e' tx' Hin).
  by apply (Htx n a v e' tx').
Qed.

(** The calls back of a recipient are a trace. *)
Lemma run_trace Q l s :
  (∀ e tx s s', (e, tx) ∈ l → exec e tx s = Ok s' → trace Q s s') →
  trace Q s (run l s).
Proof.
  revert s. induction l as [|[e tx] l IH]; intros s Hl.
  - apply trace_refl.
  - rewrite run_cons. apply (trace_trans Q s (step e tx s)).
    + unfold step. destruct (exec e tx s) as [s'|] eqn:Hx; [|apply trace_refl].
      eapply Hl; [by left | done].
    + apply IH. intros e' tx' x x' Hin. apply Hl. by right.
Qed.

(** Every successful call is a trace of the calls made while it runs. *)
Lemma exec_trace Q e tx s s' :
  calls_all Q e tx → exec e tx s = Ok s' → trace Q s s'.
Proof.
  intros Hc. revert s s'. induction Hc as [e tx HQ _ IH]. intros s s' Hx.
  rewrite exec_unfold in Hx.
  assert (∀ n a v x, trace Q x (callbacks e n a v x)) as Hcb.
  { intros n a v x. apply run_trace. intros e' tx' y y' Hin Hy. by eapply IH. }
  destruct tx;
    try (eapply trace_plain; [exact HQ | exact I | rewrite <- Hx; reflexivity]).
  - cbn in Hx.
    apply purchaseOffer_in_Ok in Hx
      as (Hl & Hi & Hk & Hg & Hfa & s1 & s2 & s3 & Hfee & Hcr & _ & Hs2 & Href & ->).
    apply (trace_purchase Q e _offerId _slots s s1 s2 s3); try done.
    + intros Hpos. apply Z.ltb_lt in Hpos. rewrite Hpos in Hfee. by destruct Hfee.
    + destruct (0 <? fee_of s _offerId _slots).
      * destruct Hfee as (_ & _ & ->). apply Hcb.
      * subst s1. apply trace_refl.
    + subst s2. apply Hcb.
    + intros Hlt. apply Z.ltb_lt in Hlt. rewrite Hlt in Href. by destruct Href.
    + destruct (price_of s _offerId _slots <? msg_value e).
      * destruct Href as (_ & _ & ->). apply Hcb.
      * subst s3. apply trace_refl.
  - cbn in Hx. apply nonpayable_Ok in Hx as [_ Hx].
    apply emergencyWithdraw_in_Ok in Hx as (Ho & Hb & _ & ->).
    eapply trace_withdraw; [exact HQ | done | done | apply Hcb].
Qed.

(** ** What every call leaves as it is *)

Lemma swap_remove_absent x a : x ∉ a → swap_remove x a = a.
Proof.
  intros Hnin. unfold swap_remove.
  destruct (list_find _ a) as [[i y]|] eqn:Hf; [|done].
  apply list_find_Some in Hf as (Hi & -> & _).
  by apply list_elem_of_lookup_2 in Hi.
Qed.

Lemma swap_remove_subseteq x a j : j ∈ swap_remove x a → j ∈ a.
Proof.
  destruct (decide (x ∈ a)) as [Hin|Hnin].
  - intros Hj. rewrite (swap_remove_perm x a Hin). by right.
  - by rewrite swap_remove_absent.
Qed.

Lemma held_refl s : held s s.
Proof. unfold held. by split_and!. Qed.

Lemma held_trans s1 s2 s3 : held s1 s2 → held s2 s3 → held s1 s3.
Proof.
  unfold held. intros (?&?&?&?&?&?&?&?&Ha) (?&?&?&?&?&?&?&?&Hb).
  split_and!; try congruence.
Qed.

Lemma frame_refl s : frame s s.
Proof.
  split; [done | done | lia | lia | | done | |].
  - intros i _. apply offer_evolves_refl.
  - intros j Hj. by left.
  - intros _. apply held_refl.
Qed.

Lemma frame_trans s1 s2 s3 : frame s1 s2 → frame s2 s3 → frame s1 s3.
Proof.
  intros [Hl1 Ho1 Hn1 Hp1 Hf1 Hr1 Ha1 Hh1] [Hl2 Ho2 Hn2 Hp2 Hf2 Hr2 Ha2 Hh2].
  split; [congruence | congruence | lia | lia | | | |].
  - intros i Hi. eapply offer_evolves_trans; [by apply Hf1 | apply Hf2; lia].
  - intros j Hj. rewrite Hr2 by lia. by apply Hr1.
  - intros j Hj. destruct (Ha2 j Hj) as [Hin|Hge]; [|right; lia].
    destruct (Ha1 j Hin) as [?|?]; [by left | by right].
  - intros Hlk. eapply held_trans; [by apply Hh1 | apply Hh2; congruence].
Qed.

(** The frame of a call that rewrites one offer, and of one that writes
    no offer. *)
Lemma frame_of_amend s s' i o' :
  0 < i < nextOfferId s → offer_kept (getOffer s i) o' →
  offers s' = <[i := o']> (offers s) →
  (∀ j, j ∈ activeOfferIds s' → j ∈ activeOfferIds s) →
  locked s' = locked s → owner s' = owner s →
  nextOfferId s' = nextOfferId s → nextPurchaseId s' = nextPurchaseId s →
  purchases s' = purchases s → userPurchases s' = userPurchases s →
  userOffers s' = userOffers s → totalOffersCreated s' = totalOffersCreated s →
  totalPurchases s' = totalPurchases s → totalVolume s' = totalVolume s →
  frame s s'.
Proof.
  intros Hi Hkept Ho Hact Hl Hw Hn Hp Hpu Hup Huo Htc Htp Htv.
  assert (∀ j, getOffer s' j = if decide (i = j) then o' else getOffer s j) as Hget.
  { intros j. unfold getOffer. rewrite Ho, lookup_insert. by case_decide. }
  split; [done | done | lia | lia | | | |].
  - intros j Hj. rewrite Hget. case_decide as Heq.
    + subst j. by apply offer_kept_evolves.
    + apply offer_evolves_refl.
  - intros j Hj. unfold getPurchase. by rewrite Hpu.
  - intros j Hj. left. by apply Hact.
  - intros _. unfold held. split_and!; try done.
    intros j. rewrite Hget. case_decide as Heq; [|done].
    subst j. by destruct Hkept as (_&_&_&_&_&->&_).
Qed.

Lemma frame_of_config s s' :
  offers s' = offers s → activeOfferIds s' = activeOfferIds s →
  locked s' = locked s → owner s' = owner s →
  nextOfferId s' = nextOfferId s → nextPurchaseId s' = nextPurchaseId s →
  purchases s' = purchases s → userPurchases s' = userPurchases s →
  userOffers s' = userOffers s → totalOffersCreated s' = totalOffersCreated s →
  totalPurchases s' = totalPurchases s → totalVolume s' = totalVolume s →
  frame s s'.
Proof.
  intros Ho Hact Hl Hw Hn Hp Hpu Hup Huo Htc Htp Htv.
  assert (∀ j, getOffer s' j = getOffer s j) as Hget.
  { intros j. unfold getOffer. by rewrite Ho. }
  split; [done | done | lia | lia | | | |].
  - intros j Hj. rewrite Hget. apply offer_evolves_refl.
  - intros j Hj. unfold getPurchase. by rewrite Hpu.
  - intros j Hj. left. by rewrite <- Hact.
  - intros _. unfold held. split_and!; try done. intros j. by rewrite Hget.
Qed.

Lemma frame_of_create e t d p du sl hp hd hs g s :
  locked s = false → frame s (create_result e t d p du sl hp hd hs g s).
Proof.
  intros Hl. split; cbn; [done | done | lia | lia | | done | |].
  - intros j Hj. rewrite getOffer_create_result.
    rewrite decide_False by lia. apply offer_evolves_refl.
  - intros j [Hj| ->%list_elem_of_singleton]%elem_of_app; [by left | right; lia].
  - congruence.
Qed.

(** A function that sends no value. *)
Lemma plain_frame e tx s s' :
  no_payout tx → exec_in plain e tx s = Ok s' → frame s s'.
Proof.
  intros Hnp Hx. destruct tx; cbn in Hx, Hnp; try done;
    try apply nonpayable_Ok in Hx as [_ Hx].
  - apply createOfferWithFHE_full in Hx as (Hl & _ & _ & _ & _ & ->).
    by apply frame_of_create.
  - apply createOffer_full in Hx as (Hl & _ & _ & ->). by apply frame_of_create.
  - apply requestOfferReveal_Ok in Hx as (Hi & _ & ->).
    by apply (frame_of_amend s _ _offerId (getOffer s _offerId));
      [| apply offer_kept_refl | ..].
  - apply resolveOfferCallback_Ok in Hx as (Hi & _ & price & slots & Hdec & ->).
    apply abi_decode_range in Hdec as [[Hp _] _].
    apply (frame_of_amend s _ _offerId
             (Offer.set_slots slots (Offer.set_publicPrice price (getOffer s _offerId))));
      try done.
    unfold offer_kept. cbn. split_and!; try done. by right.
  - apply comparePrices_Ok in Hx as ->. apply frame_refl.
  - apply deactivateOffer_Ok in Hx as (Hi & _ & Hact & ->).
    apply (frame_of_amend s _ _offerId (Offer.set_isActive false (getOffer s _offerId)));
      try done.
    + unfold offer_kept. cbn. split_and!; try done. by left.
    + intros j. cbn. apply swap_remove_subseteq.
  - apply updatePlatformFee_Ok in Hx as (_ & _ & ->). by apply frame_of_config.
  - apply updateTreasury_Ok in Hx as (_ & _ & ->). by apply frame_of_config.
Qed.

Lemma plain_balance e tx s s' :
  no_payout tx → exec_in plain e tx s = Ok s' → balance s' = balance s.
Proof.
  intros Hnp Hx. destruct tx; cbn in Hx, Hnp; try done;
    try apply nonpayable_Ok in Hx as [_ Hx].
  - by apply createOfferWithFHE_full in Hx as (_ & _ & _ & _ & _ & ->).
  - by apply createOffer_full in Hx as (_ & _ & _ & ->).
  - by apply requestOfferReveal_Ok in Hx as (_ & _ & ->).
  - by apply resolveOfferCallback_Ok in Hx as (_ & _ & price & slots & _ & ->).
  - by apply comparePrices_Ok in Hx as ->.
  - by apply deactivateOffer_Ok in Hx as (_ & _ & _ & ->).
  - by apply updatePlatformFee_Ok in Hx as (_ & _ & ->).
  - by apply updateTreasury_Ok in Hx as (_ & _ & ->).
Qed.

Lemma frame_balance_l b s s' : frame (set_balance b s) s' → frame s s'.
Proof. intros [? ? ? ? ? ? ? ?]. by split. Qed.

Lemma getOffer_purchase_written e i k s j :
  getOffer (purchase_written e i k s) j =
  if decide (i = j) then purchased_offer (getOffer s i) k else getOffer s j.
Proof.
  unfold getOffer at 1, purchase_written. cbn. rewrite lookup_insert.
  by case_decide.
Qed.

Lemma getPurchase_purchase_written e i k s j :
  getPurchase (purchase_written e i k s) j =
  if decide (nextPurchaseId s = j)
  then {| Purchase.offerId := i; Purchase.buyer := msg_sender e;
          Purchase.slots := k; Purchase.totalPrice := price_of s i k;
          Purchase.timestamp := block_timestamp e |}
  else getPurchase s j.
Proof.
  unfold getPurchase, purchase_written. cbn. rewrite lookup_insert. by case_decide.
Qed.

(** The part of a purchase that runs while the lock is held: from the
    writes to the last call back. *)
Lemma purchase_legs_frame e i k s s1 s2 s3 :
  frame (if 0 <? fee_of s i k
         then pay (fee_of s i k) (purchase_written e i k s)
         else purchase_written e i k s) s1 →
  frame (pay (price_of s i k - fee_of s i k) s1) s2 →
  frame (if price_of s i k <? msg_value e
         then pay (msg_value e - price_of s i k) s2 else s2) s3 →
  frame (purchase_written e i k s) s3.
Proof.
  intros F1 F2 F3.
  eapply frame_trans; [|eapply frame_trans].
  - destruct (0 <? fee_of s i k); [by eapply frame_balance_l | done].
  - by eapply frame_balance_l.
  - destruct (price_of s i k <? msg_value e); [by eapply frame_balance_l | done].
Qed.

Lemma purchase_frame e i k tp s s3 :
  locked s = false → 0 < k →
  frame (purchase_written e i k s) s3 →
  frame s (purchase_closed e i k tp s3).
Proof.
  intros Hl Hk F. destruct (fr_held _ _ F eq_refl) as (Hn & Hp & Hpu & _).
  split.
  - cbn. congruence.
  - cbn. by rewrite (fr_owner _ _ F).
  - cbn. rewrite Hn. cbn. lia.
  - cbn. rewrite Hp. cbn. lia.
  - intros j Hj. eapply offer_evolves_trans; [|by apply (fr_offers _ _ F)].
    rewrite getOffer_purchase_written. case_decide as Heq.
    + subst j. by apply purchased_offer_evolves.
    + apply offer_evolves_refl.
  - intros j Hj.
    change (getPurchase (purchase_closed e i k tp s3) j) with (getPurchase s3 j).
    unfold getPurchase at 1. rewrite Hpu. fold (getPurchase (purchase_written e i k s) j).
    rewrite getPurchase_purchase_written. by rewrite decide_False by lia.
  - intros j Hj. destruct (fr_active _ _ F j Hj) as [Hin|Hge]; [|by right].
    left. cbn in Hin. destruct (_ =? 0); [by eapply swap_remove_subseteq | done].
  - congruence.
Qed.

Lemma trace_frame Q s s' : trace Q s s' → frame s s'.
Proof.
  induction 1 as [s | s1 s2 s3 _ IH1 _ IH2 | e tx s s' _ Hnp Hx
                 | e i k s s1 s2 s3 _ Hl Hi Hk Hg Hfa Hfb _ IH1 Hcb _ IH2 Hrb _ IH3
                 | e s s' _ Ho Hb _ IH].
  - apply frame_refl.
  - by eapply frame_trans.
  - by eapply plain_frame.
  - apply purchase_frame; [done | done |]. by eapply purchase_legs_frame.
  - by eapply frame_balance_l.
Qed.

(** The contract never gains value in a call, and a balance that covers
    the transfers stays so. *)
Lemma trace_balance Q s s' :
  trace Q s s' → balance s' ≤ balance s ∧ (0 ≤ balance s → 0 ≤ balance s').
Proof.
  induction 1 as [s | s1 s2 s3 _ IH1 _ IH2 | e tx s s' _ Hnp Hx
                 | e i k s s1 s2 s3 _ Hl Hi Hk Hg Hfa Hfb _ IH1 Hcb _ IH2 Hrb _ IH3
                 | e s s' _ Ho Hb _ IH].
  - done.
  - lia.
  - rewrite (plain_balance e tx s s' Hnp Hx). done.
  - destruct Hg as (_ & _ & _ & _ & _ & Hpay). fold (price_of s i k) in Hpay.
    change (balance (purchase_closed e i k (price_of s i k) s3)) with (balance s3).
    cbn in IH2.
    assert (balance s1 ≤ balance s + msg_value e -
              (if 0 <? fee_of s i k then fee_of s i k else 0)) as Hb1.
    { destruct (0 <? fee_of s i k); cbn in IH1; lia. }
    destruct (Z.ltb_spec (price_of s i k) (msg_value e)) as [Hlt|Hge];
      cbn in IH3; destruct (Z.ltb_spec 0 (fee_of s i k)); lia.
  - cbn in IH. lia.
Qed.

(** ** The invariants while calls are in progress *)

(** The accounting invariants read the events as a set and hold of a
    ledger without funds. *)
Lemma accounting_transfer l s :
  (∀ ev, ev ∈ l ↔ ev ∈ events s) → accounting s →
  accounting (set_balance 0 (set_events l s)).
Proof.
  intros Hev ([? ? ? ? ?] & [? ? ? ? ? ?] & [? ? ? ?] & [? ? ?] & [Hp Hc Ho]).
  split_and!; split; try done.
  - intros j q Hj. destruct (Hp j q Hj) as [left Hin]. exists left.
    by apply Hev.
  - intros i c t p d sl Hin. apply Hev in Hin. by apply (Hc i c t p d sl).
  - intros i o Hi. destruct (Ho i o Hi) as (t & p & d & sl & Hin).
    exists t, p, d, sl. by apply Hev.
Qed.

Lemma effect_view p e s s' :
  effect e s s' → sound p s → accounting (view p s').
Proof.
  intros Heff [Hl Ha].
  destruct Heff as [t d pr du sl hp hd hs g Hv
                   | i k Hi Hk Hg
                   | i o' act pd evs Hi Hkept Hquiet
                   | ow fee tr bal Hf Ht Hb].
  - change (accounting (set_balance 0 (set_events
              ((events s ++ [OfferCreated (nextOfferId s) (msg_sender e) t pr du sl]) ++ p)
              (create_result e t d pr du sl hp hd hs g (view p s))))).
    apply accounting_transfer.
    + intros ev. cbn. rewrite !elem_of_app. tauto.
    + eapply (effect_accounting e); [done | done |]. by constructor.
  - change (accounting (set_balance 0 (set_events
              ((events s ++ [OfferPurchased i (msg_sender e) k
                               (Offer.publicPrice (getOffer s i) * k)
                               (Offer.availableSlots (getOffer s i) - k)]) ++ p)
              (purchase_result e i k (view p s))))).
    apply accounting_transfer.
    + intros ev. cbn. rewrite !elem_of_app. tauto.
    + eapply (effect_accounting e); [done | done |]. by constructor.
  - change (accounting (set_balance 0 (set_events ((events s ++ evs) ++ p)
              (amend_result i o' act pd evs (view p s))))).
    apply accounting_transfer.
    + intros ev. cbn. rewrite !elem_of_app. tauto.
    + eapply (effect_accounting e); [done | done |]. by constructor.
  - change (accounting (set_balance 0 (set_events (events s ++ p)
              (config_result ow fee tr 0 (view p s))))).
    apply accounting_transfer.
    + done.
    + eapply (effect_accounting e); [done | done |]. constructor; [done | done | by right].
Qed.

Lemma plain_sound p e tx s s' :
  tx_wf tx → no_payout tx → exec_in plain e tx s = Ok s' →
  sound p s → sound p s'.
Proof.
  intros Hwf Hnp Hx Hs. split.
  - destruct Hs as [Hl _]. by eapply plain_ledger_inv.
  - apply (effect_view p e s s'); [|done]. by eapply exec_effect.
Qed.

Lemma purchase_written_sound p e i k s :
  0 < i < nextOfferId s → 0 < k → purchase_guard e i k s →
  sound p s →
  sound (OfferPurchased i (msg_sender e) k (price_of s i k)
           (Offer.availableSlots (getOffer s i) - k) :: p)
        (purchase_written e i k s).
Proof.
  intros Hi Hk Hg [Hl Ha]. split.
  - eapply purchase_written_inv; [done | | done]. by destruct Hg as (? & _).
  - change (accounting (set_balance 0 (set_events
              (events s ++ OfferPurchased i (msg_sender e) k (price_of s i k)
                 (Offer.availableSlots (getOffer s i) - k) :: p)
              (purchase_result e i k (view p s))))).
    apply accounting_transfer.
    + intros ev. cbn. rewrite !elem_of_app, !elem_of_cons, elem_of_nil. tauto.
    + eapply (effect_accounting e); [done | done |]. by constructor.
Qed.

Lemma sound_balance p b s : sound p (set_balance b s) ↔ sound p s.
Proof. done. Qed.

Lemma trace_sound s s' :
  trace (fun _ tx => tx_wf tx) s s' → ∀ p, sound p s → sound p s'.
Proof.
  induction 1 as [s | s1 s2 s3 _ IH1 _ IH2 | e tx s s' Hwf Hnp Hx
                 | e i k s s1 s2 s3 _ Hl Hi Hk Hg Hfa Hfb T1 IH1 Hcb T2 IH2 Hrb T3 IH3
                 | e s s' _ Ho Hb _ IH]; intros p Hs.
  - done.
  - by apply IH2, IH1.
  - by eapply plain_sound.
  - set (pev := OfferPurchased i (msg_sender e) k (price_of s i k)
                  (Offer.availableSlots (getOffer s i) - k)).
    assert (frame (purchase_written e i k s) s3) as F.
    { eapply purchase_legs_frame; by eapply trace_frame. }
    destruct (fr_held _ _ F eq_refl) as (_ & _ & _ & _ & _ & _ & _ & _ & Hav).
    specialize (Hav i). rewrite getOffer_purchase_written in Hav.
    rewrite decide_True in Hav by done. rewrite purchased_offer_available in Hav.
    assert (sound (pev :: p) s3) as Hs3.
    { apply IH3.
      assert (sound (pev :: p) s2) as Hs2.
      { apply IH2. apply sound_balance. apply IH1.
        pose proof (purchase_written_sound p e i k s Hi Hk Hg Hs) as Hw.
        by destruct (0 <? fee_of s i k). }
      by destruct (price_of s i k <? msg_value e). }
    assert (view p (purchase_closed e i k (price_of s i k) s3) = view (pev :: p) s3)
      as Hview.
    { unfold view, purchase_closed, emit. cbn. rewrite Hav.
      by rewrite <- app_assoc. }
    unfold sound. by rewrite Hview.
  - by apply IH.
Qed.

Lemma view_nil s : locked s = false → balance s = 0 → view [] s = s.
Proof.
  intros Hl Hb. destruct s. cbn in *. subst. unfold view. cbn.
  by rewrite app_nil_r.
Qed.

Lemma sound_nil s : ledger_inv s → accounting s → sound [] s.
Proof.
  intros Hl Ha. unfold sound. rewrite view_nil; [done | |].
  - apply (inv_unlocked s Hl).
  - destruct Ha as (_ & _ & _ & Hf & _). apply (fund_balance s Hf).
Qed.

Lemma exec_locked e tx s s' :
  locked s = false → exec e tx s = Ok s' → locked s' = false.
Proof.
  intros Hl Hx.
  pose proof (exec_trace (fun _ _ => True) e tx s s' (calls_all_True e tx) Hx) as T.
  apply trace_frame in T. by rewrite (fr_locked _ _ T).
Qed.

Lemma exec_sound e tx s s' :
  env_wf e → tx_wf tx → ledger_inv s → accounting s →
  exec e tx s = Ok s' → ledger_inv s' ∧ accounting s'.
Proof.
  intros He Htx Hl Ha Hx.
  pose proof (exec_trace _ e tx s s' (env_wf_calls e tx He Htx) Hx) as T.
  pose proof (trace_sound s s' T [] (sound_nil s Hl Ha)) as Hs.
  assert (balance s = 0) as Hb0.
  { destruct Ha as (_ & _ & _ & Hf & _). apply (fund_balance s Hf). }
  assert (view [] s' = s') as Hv.
  { apply view_nil.
    - eapply exec_locked; [|done]. apply (inv_unlocked s Hl).
    - apply trace_balance in T. lia. }
  unfold sound in Hs. by rewrite Hv in Hs.
Qed.

Lemma step_sound e tx s :
  env_wf e → tx_wf tx → ledger_inv s → accounting s →
  ledger_inv (step e tx s) ∧ accounting (step e tx s).
Proof.
  intros He Htx Hl Ha. unfold step.
  destruct (exec e tx s) as [s'|] eqn:Hx; [|done].
  by eapply exec_sound.
Qed.

Lemma reachable_sound s : reachable s → ledger_inv s ∧ accounting s.
Proof.
  induction 1 as [d tr s _ _ _ Hd | e tx s _ [IHl IHa] He Htx | a s _ [IHl IHa] _].
  - split; [by apply deploy_inv in Hd as [? _] | by eapply deploy_accounting].
  - by apply step_sound.
  - split; [by eapply ledger_inv_same|].
    rewrite set_owner_config.
    eapply (effect_accounting (mkEnv 0 0 0 (fun _ _ => true) (fun _ _ _ => [])));
      [done | done |].
    constructor; by left.
Qed.

Lemma reachable_ledger_inv s : reachable s → ledger_inv s.
Proof. by intros [? _]%reachable_sound. Qed.

(** ** The calls back of a purchase *)

Lemma step_purchase e i k s :
  step e (TxPurchaseOffer i k) s =
  match purchaseOffer e i k s with Ok s' => s' | Revert _ => s end.
Proof. unfold step. by rewrite exec_unfold. Qed.

Lemma callbacks_trace Q e n a v s :
  calls_back Q e → trace Q s (callbacks e n a v s).
Proof.
  intros Hcb. apply run_trace. intros e' tx' y y' Hin Hy.
  eapply exec_trace; [|done]. by eapply Hcb.
Qed.

Lemma calls_back_True e : calls_back (fun _ _ => True) e.
Proof. intros n a v e' tx' _. apply calls_all_True. Qed.

Lemma calls_all_back Q e tx : calls_all Q e tx → calls_back Q e.
Proof. by intros [? ? ? ?]. Qed.

(** A successful purchase: its checks, its three transfer legs with the
    calls back of their recipients, and the event. *)
Lemma purchaseOffer_legs Q e i k s s' :
  calls_back Q e → purchaseOffer e i k s = Ok s' →
  locked s = false ∧ 0 < i < nextOfferId s ∧ 0 < k ∧ purchase_guard e i k s ∧
  transfers_accepted e i k s ∧
  ∃ s1 s2 s3,
    trace Q (if 0 <? fee_of s i k
             then pay (fee_of s i k) (purchase_written e i k s)
             else purchase_written e i k s) s1 ∧
    trace Q (pay (price_of s i k - fee_of s i k) s1) s2 ∧
    trace Q (if price_of s i k <? msg_value e
             then pay (msg_value e - price_of s i k) s2 else s2) s3 ∧
    s' = purchase_closed e i k (price_of s i k) s3.
Proof.
  intros Hcb Hx. unfold purchaseOffer in Hx.
  apply purchaseOffer_in_Ok in Hx
    as (Hl & Hi & Hk & Hg & Hfa & s1 & s2 & s3 & Hfee & Hcr & Hacc & Hs2 & Href & ->).
  assert (trace Q (if 0 <? fee_of s i k
                   then pay (fee_of s i k) (purchase_written e i k s)
                   else purchase_written e i k s) s1) as T1.
  { destruct (0 <? fee_of s i k).
    - destruct Hfee as (_ & _ & ->). by apply callbacks_trace.
    - subst s1. apply trace_refl. }
  assert (Offer.creator (getOffer s1 i) = Offer.creator (getOffer s i)) as Hsame.
  { apply trace_frame in T1.
    assert (frame (purchase_written e i k s) s1) as F
      by (destruct (0 <? fee_of s i k); [by eapply frame_balance_l | done]).
    destruct (fr_offers _ _ F i Hi) as (_ & -> & _).
    rewrite getOffer_purchase_written, decide_True by done.
    apply purchased_offer_creator. }
  do 4 (split; [done|]). split.
  - unfold transfers_accepted. fold (price_of s i k). fold (fee_of s i k).
    split_and!.
    + intros Hpos. apply Z.ltb_lt in Hpos. rewrite Hpos in Hfee. by destruct Hfee as (_ & ? & _).
    + by rewrite <- Hsame.
    + intros Hlt. apply Z.ltb_lt in Hlt. rewrite Hlt in Href. by destruct Href as (_ & ? & _).
  - exists s1, s2, s3. split; [done|]. split; [|split; [|done]].
    + subst s2. by apply callbacks_trace.
    + destruct (price_of s i k <? msg_value e).
      * destruct Href as (_ & _ & ->). by apply callbacks_trace.
      * subst s3. apply trace_refl.
Qed.

(** A successful purchase and what its calls back leave as it is. *)
Lemma purchaseOffer_frame e i k s s' :
  purchaseOffer e i k s = Ok s' →
  locked s = false ∧ 0 < i < nextOfferId s ∧ 0 < k ∧ purchase_guard e i k s ∧
  transfers_accepted e i k s ∧
  ∃ s3, frame (purchase_written e i k s) s3 ∧
        s' = purchase_closed e i k (price_of s i k) s3.
Proof.
  intros Hx.
  apply (purchaseOffer_legs (fun _ _ => True)) in Hx
    as (Hl & Hi & Hk & Hg & Hacc & s1 & s2 & s3 & T1 & T2 & T3 & ->);
    [|apply calls_back_True].
  do 5 (split; [done|]). exists s3. split; [|done].
  eapply purchase_legs_frame; by eapply trace_frame.
Qed.

(** The offer of a purchase after it: the slots of the purchase are gone
    and no others. *)
Lemma purchaseOffer_available e i k s s' :
  purchaseOffer e i k s = Ok s' →
  Offer.availableSlots (getOffer s' i) = Offer.availableSlots (getOffer s i) - k.
Proof.
  intros (_ & _ & _ & _ & _ & s3 & F & ->)%purchaseOffer_frame.
  destruct (fr_held _ _ F eq_refl) as (_ & _ & _ & _ & _ & _ & _ & _ & Hav).
  change (getOffer (purchase_closed e i k (price_of s i k) s3) i) with (getOffer s3 i).
  rewrite Hav, getOffer_purchase_written, decide_True by done.
  apply purchased_offer_available.
Qed.

(** Without calls back nothing happens between the transfers. *)
Lemma trace_none s s' : trace (fun _ _ => False) s s' → s' = s.
Proof. induction 1; try done. congruence. Qed.

(** A successful purchase whose recipients make no call back. *)
Lemma purchaseOffer_alone e i k s s' :
  calls_back (fun _ _ => False) e → purchaseOffer e i k s = Ok s' →
  getOffer s' i = getOffer (purchase_written e i k s) i ∧
  activeOfferIds s' = activeOfferIds (purchase_written e i k s).
Proof.
  intros Hnone Hx.
  apply (purchaseOffer_legs _ e i k s s' Hnone) in Hx
    as (_ & _ & _ & _ & _ & s1 & s2 & s3 & T1 & T2 & T3 & ->).
  apply trace_none in T1, T2, T3. subst s3 s2 s1.
  by destruct (price_of s i k <? msg_value e), (0 <? fee_of s i k).
Qed.

(** The invariant of the identifiers holds of every call, whoever makes it
    and whatever its arguments are. *)
Lemma trace_ledger_inv Q s s' :
  trace Q s s' → ∀ p, ledger_inv (view p s) → ledger_inv (view p s').
Proof.
  induction 1 as [s | s1 s2 s3 _ IH1 _ IH2 | e tx s s' _ Hnp Hx
                 | e i k s s1 s2 s3 _ Hl Hi Hk Hg Hfa Hfb _ IH1 Hcb _ IH2 Hrb _ IH3
                 | e s s' _ Ho Hb _ IH]; intros p Hs.
  - done.
  - by apply IH2, IH1.
  - by eapply plain_ledger_inv.
  - apply (ledger_inv_view_closed p p). apply IH3.
    assert (ledger_inv (view p s2)) as Hs2.
    { apply IH2. apply ledger_inv_view_pay. apply IH1.
      assert (ledger_inv (view p (purchase_written e i k s))) as Hw.
      { eapply purchase_written_inv; [done | | done]. by destruct Hg as (? & _). }
      destruct (0 <? fee_of s i k); [by apply ledger_inv_view_pay | done]. }
    destruct (price_of s i k <? msg_value e); [by apply ledger_inv_view_pay | done].
  - apply IH. by apply ledger_inv_view_balance.
Qed.

Lemma exec_ledger_inv e tx s s' :
  ledger_inv s → balance s = 0 → exec e tx s = Ok s' → ledger_inv s'.
Proof.
  intros Hl Hb Hx.
  pose proof (exec_trace _ e tx s s' (calls_all_True e tx) Hx) as T.
  assert (view [] s' = s') as Hv.
  { apply view_nil.
    - eapply exec_locked; [|done]. apply (inv_unlocked s Hl).
    - apply trace_balance in T. lia. }
  rewrite <- Hv. apply (trace_ledger_inv _ s s' T).
  rewrite view_nil; [done | apply (inv_unlocked s Hl) | done].
Qed.

(** Without a reveal callback among the calls, the slot bound is kept. *)
Lemma trace_slots_bounded s s' :
  trace (fun _ tx => no_resolve tx) s s' → slots_bounded s → slots_bounded s'.
Proof.
  induction 1 as [s | s1 s2 s3 _ IH1 _ IH2 | e tx s s' Hnr Hnp Hx
                 | e i k s s1 s2 s3 _ Hl Hi Hk Hg Hfa Hfb _ IH1 Hcb _ IH2 Hrb _ IH3
                 | e s s' _ Ho Hb _ IH]; intros Hs.
  - done.
  - by apply IH2, IH1.
  - eapply plain_slots_bounded; [done | done | | done]. by destruct tx.
  - apply IH3.
    assert (slots_bounded s2) as Hs2.
    { apply IH2. apply IH1.
      pose proof (purchase_written_slots_bounded e i k s Hk Hs).
      by destruct (0 <? fee_of s i k). }
    by destruct (price_of s i k <? msg_value e).
  - by apply IH.
Qed.

Lemma reachable_accounting s : reachable s → accounting s.
Proof. by intros [_ ?]%reachable_sound. Qed.

End Calls.

(** * Reachability of the example ledgers *)

Ltac solve_wf :=
  repeat match goal with
  | |- _ ∧ _ => split
  | |- True => exact I
  | |- is_uint256 _ => unfold is_uint256
  | |- is_address _ => unfold is_address
  | |- env_wf _ => constructor
  | |- ∀ n a v e' tx', (e', tx') ∈ _ → _ =>
      let Hin := fresh in
      intros ? ? ? ? ? Hin; cbn in Hin; by apply elem_of_nil in Hin
  | |- tx_wf _ => unfold tx_wf
  | |- _ ≤ _ => by vm_compute
  | |- _ ≠ _ => by vm_compute
  end.

Lemma reachable_genesis : reachable (H := idealFHE) genesis.
Proof. apply (reachable_deploy 1 2); [solve_wf .. | reflexivity]. Qed.

Lemma reachable_market : reachable (H := idealFHE) market.
Proof. apply reachable_step; [apply reachable_genesis | solve_wf ..]. Qed.

Lemma reachable_sealed_market : reachable (H := idealFHE) sealed_market.
Proof. apply reachable_step; [apply reachable_genesis | solve_wf ..]. Qed.

Lemma reachable_revealed_market : reachable (H := idealFHE) revealed_market.
Proof.
  unfold revealed_market, run. cbn [fold_left fst snd].
  do 2 (apply reachable_step; [| solve_wf ..]).
  apply reachable_sealed_market.
Qed.

(** * C1: the bound of the available slots by the total slots *)

(** C1, as amended.  The inequality [availableSlots <= slots] holds in the
    ledger the constructor returns.  It is preserved by every transaction
    ([createOffer], [createOfferWithFHE], [purchaseOffer], [deactivateOffer],
    [requestOfferReveal], the admin operations, and every reverted call) in
    which no recipient of a transfer calls [resolveOfferCallback] back.  A
    successful [resolveOfferCallback] preserves it if and only if the revealed
    slot count is at least the offer's available slots. *)
Theorem slots_bounded_preserved `{FHEVM} :
  (∀ deployer _treasury s, deploy deployer _treasury = Ok s → slots_bounded s) ∧
  (∀ e tx s,
     slots_bounded s → resolve_keeps_bound tx s →
     calls_back (fun _ tx' => no_resolve tx') e →
     slots_bounded (step e tx s)) ∧
  (∀ e i cleartexts decryptionProof s s',
     slots_bounded s →
     resolveOfferCallback e i cleartexts decryptionProof s = Ok s' →
     (slots_bounded s' ↔
      resolve_keeps_bound (TxResolveOfferCallback i cleartexts decryptionProof) s)).
Proof.
  split_and!.
  - intros d tr s Hd. by apply deploy_inv in Hd as [_ ?].
  - intros e tx s Hb Hres Hcb. unfold step.
    destruct (exec e tx s) as [s'|] eqn:Hx; [|done].
    assert (no_resolve tx ∨ no_payout tx) as [Hnr|Hnp]
      by (destruct tx; (by left) || (by right)).
    + eapply trace_slots_bounded; [|done].
      eapply exec_trace; [|done]. by constructor.
    + rewrite exec_unfold, (exec_no_payout _ _ _ _ Hnp) in Hx.
      by eapply plain_slots_bounded.
  - intros e i ct pf s s' Hb Hx.
    apply resolveOfferCallback_Ok in Hx as (_ & _ & price & slots & Hdec & ->).
    cbn. split.
    + intros Hb' price' slots' Hdec'. rewrite Hdec in Hdec'.
      injection Hdec' as <- <-.
      specialize (Hb' i _ (lookup_insert_eq _ _ _)). done.
    + intros Hle. eapply (slots_bounded_insert s _ i); [done | reflexivity |].
      cbn. by apply (Hle price).
Qed.

(** The purchase of two of the five slots of [market] keeps the bound, also
    when the creator, on the receipt of the price, deactivates the offer. *)
Lemma slots_bounded_preserved_witness :
  slots_bounded
    (step (H := idealFHE) (deactivating 10 1 11 200 1001) (TxPurchaseOffer 1 2) market).
Proof.
  apply (proj1 (proj2 (slots_bounded_preserved (H := idealFHE)))).
  - apply (proj1 (proj2 (slots_bounded_preserved (H := idealFHE)))).
    + apply (proj1 (slots_bounded_preserved (H := idealFHE)) 1 2). reflexivity.
    + exact I.
    + intros n a v e' tx' Hin. cbn in Hin. by apply elem_of_nil in Hin.
  - exact I.
  - intros n a v e' tx' Hin. cbn in Hin.
    destruct (a =? 10); [|by apply elem_of_nil in Hin].
    apply list_elem_of_singleton in Hin. injection Hin as -> ->.
    constructor; [exact I|].
    intros n' a' v' e' tx' Hin. cbn in Hin. by apply elem_of_nil in Hin.
Defined.

(** C1 as stated fails: after the reveal callback of an offer created with 5
    public slots and an encrypted slot count of 1, the offer has 5 available
    slots out of 1. *)
Lemma resolve_breaks_slot_bound :
  reachable (H := idealFHE) revealed_market ∧
  ∃ o, offers revealed_market !! 1 = Some o ∧
       Offer.availableSlots o = 5 ∧ Offer.slots o = 1 ∧
       ¬ slots_bounded revealed_market.
Proof.
  split; [apply reachable_revealed_market|].
  eexists. split; [vm_compute; reflexivity|]. cbn.
  split; [reflexivity|]. split; [reflexivity|].
  intros Hb. specialize (Hb 1 _ ltac:(vm_compute; reflexivity)).
  cbn in Hb. lia.
Qed.

(** * C2: the effect of a purchase on the offer *)

(** C2.  A successful purchase of [k] slots of a reachable ledger has
    [k <= availableSlots] and lowers the offer's [availableSlots] by exactly
    [k], whatever the recipients of its transfers call back.  When the count
    reaches 0, [isActive] is false after the purchase, the id occurred once
    in the active list before it, the writes of the purchase take exactly
    that occurrence out (the old list is the written one plus one occurrence
    of the id), and the id is not in the list after the purchase.  When no
    recipient calls back, the list after a purchase that sells out is the
    written one, and a purchase that leaves slots leaves the offer active
    and the list untouched. *)
Theorem purchase_decrements_and_closes `{FHEVM} e i k s s' :
  reachable s →
  purchaseOffer e i k s = Ok s' →
  k ≤ Offer.availableSlots (getOffer s i) ∧
  Offer.availableSlots (getOffer s' i) = Offer.availableSlots (getOffer s i) - k ∧
  (Offer.availableSlots (getOffer s' i) = 0 →
     Offer.isActive (getOffer s' i) = false ∧
     count_occ Z.eq_dec (activeOfferIds s) i = 1%nat ∧
     activeOfferIds s ≡ₚ i :: activeOfferIds (purchase_written e i k s) ∧
     i ∉ activeOfferIds s') ∧
  (calls_back (fun _ _ => False) e →
     (Offer.availableSlots (getOffer s' i) = 0 →
        activeOfferIds s ≡ₚ i :: activeOfferIds s') ∧
     (Offer.availableSlots (getOffer s' i) ≠ 0 →
        Offer.isActive (getOffer s' i) = true ∧
        activeOfferIds s' = activeOfferIds s)).
Proof.
  intros Hr Hx. apply reachable_ledger_inv in Hr as Hinv.
  pose proof (purchaseOffer_available e i k s s' Hx) as Hav.
  pose proof (fun Hnone => purchaseOffer_alone e i k s s' Hnone Hx) as Halone.
  apply purchaseOffer_frame in Hx
    as (_ & Hi & _ & (Hact & _ & Hle & _) & _ & s3 & F & ->).
  split; [done|]. split; [done|]. rewrite Hav.
  pose proof (proj2 (inv_active s Hinv i) Hact) as Hin.
  pose proof (swap_remove_perm i _ Hin) as Hperm.
  destruct (removal_facts _ _ i (inv_active_nodup s Hinv) Hperm) as [_ Hmem].
  assert (Offer.availableSlots (getOffer s i) - k = 0 →
          activeOfferIds (purchase_written e i k s) = swap_remove i (activeOfferIds s))
    as Hlist.
  { intros Hz. cbn. by rewrite Hz. }
  split.
  - intros Hz. specialize (Hlist Hz).
    change (getOffer (purchase_closed e i k (price_of s i k) s3) i)
      with (getOffer s3 i).
    change (activeOfferIds (purchase_closed e i k (price_of s i k) s3))
      with (activeOfferIds s3).
    split_and!.
    + destruct (Offer.isActive (getOffer s3 i)) eqn:Hon; [|done].
      destruct (fr_offers _ _ F i Hi)
        as (_ & _ & _ & _ & _ & _ & _ & _ & _ & _ & _ & Hwas).
      specialize (Hwas Hon).
      rewrite getOffer_purchase_written, decide_True in Hwas by done.
      rewrite purchased_offer_active, Hz in Hwas. done.
    + apply NoDup_count_occ'; [apply NoDup_ListNoDup, (inv_active_nodup s Hinv)|].
      by apply list_elem_of_In.
    + by rewrite Hlist.
    + intros Hin3. destruct (fr_active _ _ F i Hin3) as [Hw|Hge].
      * rewrite Hlist in Hw. apply Hmem in Hw as [_ Hne]. done.
      * cbn in Hge. lia.
  - intros Hnone. destruct (Halone Hnone) as [-> ->].
    rewrite getOffer_purchase_written, decide_True by done.
    rewrite purchased_offer_active. split.
    + intros Hz. by rewrite (Hlist Hz).
    + intros Hnz. cbn.
      by destruct (Z.eqb_spec (Offer.availableSlots (getOffer s i) - k) 0).
Qed.

(** Buying all five slots of [market] closes the offer. *)
Lemma purchase_decrements_and_closes_witness :
  let e := accepting 11 500 1001 in
  let s' := step (H := idealFHE) e (TxPurchaseOffer 1 5) market in
  5 ≤ Offer.availableSlots (getOffer market 1) ∧
  Offer.availableSlots (getOffer s' 1) = Offer.availableSlots (getOffer market 1) - 5 ∧
  (Offer.availableSlots (getOffer s' 1) = 0 →
     Offer.isActive (getOffer s' 1) = false ∧
     count_occ Z.eq_dec (activeOfferIds market) 1 = 1%nat ∧
     activeOfferIds market ≡ₚ 1 :: activeOfferIds (purchase_written e 1 5 market) ∧
     1 ∉ activeOfferIds s') ∧
  (calls_back (fun _ _ => False) e →
     (Offer.availableSlots (getOffer s' 1) = 0 →
        activeOfferIds market ≡ₚ 1 :: activeOfferIds s') ∧
     (Offer.availableSlots (getOffer s' 1) ≠ 0 →
        Offer.isActive (getOffer s' 1) = true ∧
        activeOfferIds s' = activeOfferIds market)).
Proof.
  intros e s'.
  apply (purchase_decrements_and_closes (H := idealFHE) e).
  - apply reachable_market.
  - vm_compute. reflexivity.
Defined.

(** * C3: the checks of a purchase *)

(** C3.  [purchaseOffer] succeeds only if the offer is active with slots left,
    the quantity is at most [availableSlots], the block time is at most
    [expiresAt], the buyer is not the creator and the payment covers
    [publicPrice * quantity]; when one of these fails the call reverts and the
    transaction leaves the ledger unchanged. *)
Theorem purchase_requires_guard `{FHEVM} e i k s :
  (∀ s', purchaseOffer e i k s = Ok s' → purchase_guard e i k s) ∧
  (¬ purchase_guard e i k s →
     (∃ reason, purchaseOffer e i k s = Revert reason) ∧
     step e (TxPurchaseOffer i k) s = s).
Proof.
  assert (∀ s', purchaseOffer e i k s = Ok s' → purchase_guard e i k s) as Hok.
  { intros s' Hx. by apply purchaseOffer_Ok in Hx as (_ & _ & _ & Hg). }
  split; [done|]. intros Hng. rewrite step_purchase.
  destruct (purchaseOffer e i k s) as [s'|reason] eqn:Hx.
  - destruct Hng. by eapply Hok.
  - split; [by exists reason | done].
Qed.

(** The creator of the offer of [market] cannot buy from it. *)
Lemma purchase_requires_guard_witness :
  (∃ reason, purchaseOffer (H := idealFHE) (accepting 10 200 1001) 1 2 market = Revert reason) ∧
  step (H := idealFHE) (accepting 10 200 1001) (TxPurchaseOffer 1 2) market = market.
Proof.
  apply (proj2 (purchase_requires_guard (H := idealFHE)
                  (accepting 10 200 1001) 1 2 market)).
  unfold purchase_guard. intros (_ & _ & _ & _ & Hne & _).
  apply Hne. vm_compute. reflexivity.
Defined.

(** * C4: the fee split *)

(** C4.  For a fee setting in [0, 1000] basis points, the amounts a purchase
    computes are [totalPrice = publicPrice * quantity],
    [fee = totalPrice * feeBps / 10000] (integer division) and
    [creatorAmount = totalPrice - fee], with [fee + creatorAmount = totalPrice]
    and [0 <= fee <= totalPrice]; the computation succeeds whenever the
    products stay within 256 bits. *)
Theorem fee_split_adds_up price k feeBps :
  0 ≤ price → 0 ≤ k → 0 ≤ feeBps ≤ 1000 →
  (∀ tp fa ca,
     purchase_amounts price k feeBps = Ok (tp, fa, ca) →
     tp = price * k ∧ fa = (tp * feeBps) `div` 10000 ∧ ca = tp - fa ∧
     fa + ca = tp ∧ 0 ≤ fa ≤ tp) ∧
  (price * k ≤ MAX_UINT256 → price * k * feeBps ≤ MAX_UINT256 →
     ∃ fa ca, purchase_amounts price k feeBps = Ok (price * k, fa, ca)).
Proof.
  intros Hp Hk Hf.
  assert (0 ≤ (price * k * feeBps) `div` 10000 ≤ price * k) as Hfee.
  { split; [apply Z.div_pos; nia|].
    apply Z.div_le_upper_bound; nia. }
  split.
  - intros tp fa ca (-> & -> & -> & _)%purchase_amounts_Ok.
    split_and!; try done; lia.
  - intros H1 H2. unfold purchase_amounts, checked_mul, checked_sub. cbn.
    destruct (Z.leb_spec (price * k) MAX_UINT256); [|lia]. cbn.
    destruct (Z.leb_spec (price * k * feeBps) MAX_UINT256); [|lia]. cbn.
    destruct (Z.leb_spec ((price * k * feeBps) `div` 10000) (price * k)); [|lia].
    cbn. eauto.
Qed.

(** The scenario of the design document: price 100, 2 slots, 500 bps. *)
Lemma fee_split_adds_up_witness :
  purchase_amounts 100 2 500 = Ok (200, 10, 190) ∧ 10 + 190 = 200.
Proof.
  assert (0 ≤ 100) as H1 by lia.
  assert (0 ≤ 2) as H2 by lia.
  assert (0 ≤ 500 ≤ 1000) as H3 by lia.
  destruct (proj1 (fee_split_adds_up 100 2 500 H1 H2 H3) 200 10 190)
    as (_ & _ & _ & Hsum & _); [reflexivity|].
  split; [reflexivity | exact Hsum].
Defined.

(** * C5: a failed transfer aborts the purchase *)

(** C5.  When a transfer leg of a purchase is refused (the fee to the
    treasury when the fee is positive, the remainder to the creator, or the
    refund of an overpayment to the buyer), [purchaseOffer] reverts and the
    transaction persists nothing: the ledger, with its offers, active list,
    purchase records, per-buyer index and counters, is the one before the
    call. *)
Theorem failed_transfer_aborts_purchase `{FHEVM} e i k s :
  ¬ transfers_accepted e i k s →
  (∃ reason, purchaseOffer e i k s = Revert reason) ∧
  step e (TxPurchaseOffer i k) s = s ∧
  let s' := step e (TxPurchaseOffer i k) s in
  getOffer s' i = getOffer s i ∧
  activeOfferIds s' = activeOfferIds s ∧
  purchases s' = purchases s ∧
  userPurchases s' = userPurchases s ∧
  nextPurchaseId s' = nextPurchaseId s ∧
  totalPurchases s' = totalPurchases s ∧
  totalVolume s' = totalVolume s.
Proof.
  intros Hna. rewrite step_purchase.
  destruct (purchaseOffer e i k s) as [s'|reason] eqn:Hx.
  - destruct Hna. by apply purchaseOffer_frame in Hx as (_ & _ & _ & _ & Hacc & _).
  - split; [by exists reason|]. done.
Qed.

(** The treasury (account 2) refuses the fee of a purchase that passes every
    check: the purchase reverts with the reason of the fee leg. *)
Lemma failed_transfer_aborts_purchase_witness :
  purchaseOffer (H := idealFHE) (refusing 2 11 200 1001) 1 2 market = Revert "Fee transfer failed" ∧
  step (H := idealFHE) (refusing 2 11 200 1001) (TxPurchaseOffer 1 2) market = market.
Proof.
  split; [vm_compute; reflexivity|].
  apply (failed_transfer_aborts_purchase (H := idealFHE)
           (refusing 2 11 200 1001) 1 2 market).
  unfold transfers_accepted. intros (Hfee & _ & _).
  specialize (Hfee ltac:(vm_compute; reflexivity)).
  vm_compute in Hfee. discriminate Hfee.
Defined.

(** * C6: creation *)

Section Creation.
Context `{FHEVM}.

Lemma created_post e o sl s s' :
  ledger_inv s → created e o s s' →
  o = getOffer s' (nextOfferId s) → Offer.slots o = sl →
  creation_post e sl s s'.
Proof.
  intros Hinv (_ & _ & Hc & _ & Ha & Hu & _ & _ & Heq) -> Hsl.
  unfold creation_post. cbn. split_and!; try done.
  - unfold getUserOffers at 1. rewrite Hu, lookup_insert_eq. cbn.
    rewrite count_occ_app. cbn. destruct (Z.eq_dec _ _); [|done].
    rewrite (proj1 (count_occ_not_In Z.eq_dec _ _)); [done|].
    rewrite <- list_elem_of_In. intros Hin%(inv_user_range s Hinv). lia.
  - rewrite Ha, count_occ_app. cbn. destruct (Z.eq_dec _ _); [|done].
    rewrite (proj1 (count_occ_not_In Z.eq_dec _ _)); [done|].
    rewrite <- list_elem_of_In. intros Hin%(inv_active s Hinv).
    apply is_active_stored, (inv_offers_range s Hinv) in Hin. lia.
Qed.

Lemma createOffer_succeeds e t d p du sl s :
  ledger_inv s → valid_fields t d p du sl → p ≤ MAX_UINT64 →
  no_overflow_on_create e du s →
  ∃ s', createOffer e t d p du sl s = Ok s'.
Proof.
  intros Hinv (Ht & Hd & Hp & Hdu & Hsl) Hp64 (Hn & Hm & Ha).
  unfold createOffer, nonReentrant. rewrite (inv_unlocked s Hinv).
  rewrite (proj2 (nonempty_length t) Ht), (proj2 (nonempty_length d) Hd).
  rewrite (proj2 (Z.ltb_lt 0 p) Hp), (proj2 (Z.leb_le p _) Hp64).
  rewrite (proj2 (Z.ltb_lt 0 du) Hdu), (proj2 (Z.ltb_lt 0 sl) Hsl).
  unfold checked_add, checked_mul. cbn.
  rewrite (proj2 (Z.leb_le _ _) Hn). cbn.
  rewrite (proj2 (Z.leb_le _ _) Hm). cbn.
  rewrite (proj2 (Z.leb_le _ _) Ha). cbn.
  rewrite (inv_count s Hinv).
  rewrite (proj2 (Z.leb_le (nextOfferId s - 1 + 1) MAX_UINT256)) by lia.
  cbn. eauto.
Qed.

Lemma createOfferWithFHE_succeeds e t d p du sl ep ed es pr s :
  ledger_inv s → valid_fields t d p du sl →
  verifyInput (msg_sender e) ep pr = true →
  verifyInput (msg_sender e) ed pr = true →
  verifyInput (msg_sender e) es pr = true →
  no_overflow_on_create e du s →
  ∃ s', createOfferWithFHE e t d p du sl ep ed es pr s = Ok s'.
Proof.
  intros Hinv (Ht & Hd & Hp & Hdu & Hsl) Hvp Hvd Hvs (Hn & Hm & Ha).
  unfold createOfferWithFHE, nonReentrant, fromExternal.
  rewrite (inv_unlocked s Hinv).
  rewrite (proj2 (nonempty_length t) Ht), (proj2 (nonempty_length d) Hd).
  rewrite (proj2 (Z.ltb_lt 0 p) Hp).
  rewrite (proj2 (Z.ltb_lt 0 du) Hdu), (proj2 (Z.ltb_lt 0 sl) Hsl).
  rewrite Hvp, Hvd, Hvs.
  unfold checked_add, checked_mul. cbn.
  rewrite (proj2 (Z.leb_le _ _) Hn). cbn.
  rewrite (proj2 (Z.leb_le _ _) Hm). cbn.
  rewrite (proj2 (Z.leb_le _ _) Ha). cbn.
  rewrite (inv_count s Hinv).
  rewrite (proj2 (Z.leb_le (nextOfferId s - 1 + 1) MAX_UINT256)) by lia.
  cbn. eauto.
Qed.

Lemma createOffer_invalid e t d p du sl s :
  ¬ valid_fields t d p du sl → ∃ reason, createOffer e t d p du sl s = Revert reason.
Proof.
  intros Hnv. destruct (createOffer e t d p du sl s) as [s'|reason] eqn:Hx; [|eauto].
  destruct Hnv. apply nonReentrant_Ok in Hx as (_ & s1 & Hx & _).
  apply bind_Ok in Hx as (_ & Ht%require_Ok%nonempty_length & Hx).
  apply bind_Ok in Hx as (_ & Hd%require_Ok%nonempty_length & Hx).
  apply bind_Ok in Hx as (_ & Hp%require_Ok%Z.ltb_lt & Hx).
  apply bind_Ok in Hx as (_ & _ & Hx).
  apply bind_Ok in Hx as (_ & Hdu%require_Ok%Z.ltb_lt & Hx).
  apply bind_Ok in Hx as (_ & Hsl%require_Ok%Z.ltb_lt & Hx).
  done.
Qed.

End Creation.

(** With an invalid plain field the encrypted variant reverts at its checks,
    with a reason that does not depend on the FHE library: the encrypted
    import is not reached. *)
Lemma createOfferWithFHE_invalid e t d p du sl ep ed es pr s :
  ¬ valid_fields t d p du sl →
  ∃ reason, ∀ F : FHEVM,
    createOfferWithFHE (H := F) e t d p du sl ep ed es pr s = Revert reason.
Proof.
  intros Hnv. unfold createOfferWithFHE, nonReentrant.
  destruct (locked s); [eauto|].
  destruct (0 <? Z.of_nat (String.length t)) eqn:Ht; cbn; [|eauto].
  destruct (0 <? Z.of_nat (String.length d)) eqn:Hd; cbn; [|eauto].
  destruct (0 <? p) eqn:Hp; cbn; [|eauto].
  destruct (0 <? du) eqn:Hdu; cbn; [|eauto].
  destruct (0 <? sl) eqn:Hsl; cbn; [|eauto].
  destruct Hnv. apply nonempty_length in Ht, Hd. apply Z.ltb_lt in Hp, Hdu, Hsl.
  done.
Qed.

(** C6, as amended.  In a reachable ledger, a creation call whose title and
    description are non-empty and whose price, duration and slots are positive
    succeeds, provided the id counter and the expiry time do not overflow and,
    for the plaintext variant, the price is at most [2^64 - 1], for the
    encrypted variant, the three encrypted inputs pass the input-proof check.
    The new offer then has [availableSlots = slots], its id occurs once in the
    creator's index and once in the active list, and the counter of created
    offers grows by one.  With an invalid plain field both variants revert,
    the encrypted one before its import, and nothing is persisted. *)
Theorem creation_establishes_offer `{FHEVM} e t d p du sl s :
  reachable s →
  (valid_fields t d p du sl → no_overflow_on_create e du s →
     (p ≤ MAX_UINT64 →
        ∃ s', createOffer e t d p du sl s = Ok s' ∧ creation_post e sl s s') ∧
     (∀ ep ed es pr,
        verifyInput (msg_sender e) ep pr = true →
        verifyInput (msg_sender e) ed pr = true →
        verifyInput (msg_sender e) es pr = true →
        ∃ s', createOfferWithFHE e t d p du sl ep ed es pr s = Ok s' ∧
              creation_post e sl s s')) ∧
  (¬ valid_fields t d p du sl →
     (∃ reason, createOffer e t d p du sl s = Revert reason) ∧
     step e (TxCreateOffer t d p du sl) s = s ∧
     ∀ ep ed es pr,
       (∃ reason, ∀ F : FHEVM,
          createOfferWithFHE (H := F) e t d p du sl ep ed es pr s = Revert reason) ∧
       step e (TxCreateOfferWithFHE t d p du sl ep ed es pr) s = s).
Proof.
  intros Hinv%reachable_ledger_inv. split.
  - intros Hv Hno. split.
    + intros Hp.
      destruct (createOffer_succeeds e t d p du sl s Hinv Hv Hp Hno) as [s' Hx].
      exists s'. split; [done|].
      apply createOffer_created in Hx as [Hc Hsl]. by eapply created_post.
    + intros ep ed es pr Hvp Hvd Hvs.
      destruct (createOfferWithFHE_succeeds e t d p du sl ep ed es pr s
                  Hinv Hv Hvp Hvd Hvs Hno) as [s' Hx].
      exists s'. split; [done|].
      apply createOfferWithFHE_created in Hx as [Hc Hsl]. by eapply created_post.
  - intros Hnv.
    destruct (createOffer_invalid e t d p du sl s Hnv) as [r Hr].
    split; [eauto|]. split.
    + unfold step. rewrite exec_unfold. unfold exec_in, nonpayable. rewrite Hr. by destruct (require _ _).
    + intros ep ed es pr.
      destruct (createOfferWithFHE_invalid e t d p du sl ep ed es pr s Hnv)
        as [r' Hr'].
      split; [eauto|].
      unfold step. rewrite exec_unfold. unfold exec_in, nonpayable. rewrite Hr'. by destruct (require _ _).
Qed.

(** The creation of the offer of [market], and a creation with an empty title. *)
Lemma creation_establishes_offer_witness :
  (∃ s', createOffer (H := idealFHE) (accepting 10 0 1000) "t" "d" 100 1 5 genesis
         = Ok s' ∧
         creation_post (accepting 10 0 1000) 5 genesis s') ∧
  step (H := idealFHE) (accepting 10 0 1000) (TxCreateOffer "" "d" 100 1 5) genesis
  = genesis.
Proof.
  split.
  - assert (valid_fields "t" "d" 100 1 5) as Hv.
    { unfold valid_fields. split_and!; [discriminate | discriminate | lia..]. }
    assert (no_overflow_on_create (accepting 10 0 1000) 1 genesis) as Hno.
    { unfold no_overflow_on_create. split_and!; by vm_compute. }
    assert (100 ≤ MAX_UINT64) as Hp by (by vm_compute).
    exact (proj1 (proj1 (creation_establishes_offer (H := idealFHE)
                           (accepting 10 0 1000) "t" "d" 100 1 5 genesis
                           reachable_genesis) Hv Hno) Hp).
  - assert (¬ valid_fields "" "d" 100 1 5) as Hnv.
    { unfold valid_fields. intros (Ht & _). by apply Ht. }
    exact (proj1 (proj2 (proj2 (creation_establishes_offer (H := idealFHE)
                                  (accepting 10 0 1000) "" "d" 100 1 5 genesis
                                  reachable_genesis) Hnv))).
Defined.

(** C6 as stated fails for the plaintext variant: a call with valid plain
    fields and a price of [2^64] reverts at the range check of the price, so no
    offer is stored and the counter does not move. *)
Lemma create_rejects_price_above_uint64 :
  reachable (H := idealFHE) genesis ∧
  valid_fields "t" "d" (2 ^ 64) 1 1 ∧
  createOffer (H := idealFHE) (accepting 10 0 1000) "t" "d" (2 ^ 64) 1 1 genesis
  = Revert "Price exceeds uint64 range" ∧
  let s' := step (H := idealFHE) (accepting 10 0 1000)
              (TxCreateOffer "t" "d" (2 ^ 64) 1 1) genesis in
  totalOffersCreated s' = totalOffersCreated genesis ∧
  offers s' !! nextOfferId genesis = None.
Proof.
  split; [apply reachable_genesis|].
  split; [unfold valid_fields; split_and!; [discriminate | discriminate | lia..]|].
  split; [vm_compute; reflexivity|].
  split; vm_compute; reflexivity.
Qed.

(** * C7, C8, C10: the reveal request and the reveal callback *)

Section Reveal.
Context `{FHEVM}.

Lemma resolveOfferCallback_is_ok e i ct pf s :
  0 < i < nextOfferId s →
  is_ok (resolveOfferCallback e i ct pf s) =
  checkSignatures
    [Offer.encryptedPrice (getOffer s i); Offer.encryptedSlots (getOffer s i)] ct pf
  && is_ok (abi_decode_uint64_uint32 ct).
Proof.
  intros Hi%valid_offer_id_spec. unfold resolveOfferCallback, toBytes32.
  rewrite Hi. cbn. destruct (checkSignatures _ ct pf); cbn; [|done].
  by destruct (abi_decode_uint64_uint32 ct) as [[price slots]|].
Qed.

Lemma resolveOfferCallback_succeeds e i ct pf s price slots :
  0 < i < nextOfferId s →
  checkSignatures
    [Offer.encryptedPrice (getOffer s i); Offer.encryptedSlots (getOffer s i)] ct pf
    = true →
  abi_decode_uint64_uint32 ct = Ok (price, slots) →
  resolveOfferCallback e i ct pf s =
  Ok (setOffer i (Offer.set_slots slots (Offer.set_publicPrice price (getOffer s i))) s).
Proof.
  intros Hi Hsig Hdec.
  destruct (resolveOfferCallback e i ct pf s) as [s'|reason] eqn:Hx.
  - apply resolveOfferCallback_Ok in Hx as (_ & _ & p & v & Hdec' & ->).
    rewrite Hdec in Hdec'. by injection Hdec' as <- <-.
  - pose proof (resolveOfferCallback_is_ok e i ct pf s Hi) as Hok.
    rewrite Hx, Hsig, Hdec in Hok. discriminate.
Qed.

Lemma requestOfferReveal_succeeds e i s :
  0 < i < nextOfferId s → authorized e i s →
  ∃ s', requestOfferReveal e i s = Ok s'.
Proof.
  intros Hi%valid_offer_id_spec Hau%authorized_spec. unfold requestOfferReveal.
  rewrite Hi. cbn. rewrite Hau. cbn. eauto.
Qed.

End Reveal.

(** C7.  [resolveOfferCallback] passes to the signature check the list made of
    the offer's stored encrypted price and slots handles: its outcome under
    two FHE libraries that answer alike on that list (with the caller's blob
    and proof) is the same.  When the check fails the call reverts and nothing
    is written; when the call succeeds the check passed and the decoded price
    and slots are the offer's new [publicPrice] and [slots], all else being
    unchanged; and a valid id, a passing check and a decodable blob suffice
    for success. *)
Theorem resolve_verifies_stored_handles `{FHEVM} e i ct pf s :
  let stored :=
    [Offer.encryptedPrice (getOffer s i); Offer.encryptedSlots (getOffer s i)] in
  (∀ F' : FHEVM,
     @checkSignatures F' stored ct pf = checkSignatures stored ct pf →
     resolveOfferCallback (H := F') e i ct pf s = resolveOfferCallback e i ct pf s) ∧
  (checkSignatures stored ct pf = false →
     (∃ reason, resolveOfferCallback e i ct pf s = Revert reason) ∧
     step e (TxResolveOfferCallback i ct pf) s = s) ∧
  (∀ s', resolveOfferCallback e i ct pf s = Ok s' →
     checkSignatures stored ct pf = true ∧
     ∃ price slots,
       abi_decode_uint64_uint32 ct = Ok (price, slots) ∧
       Offer.publicPrice (getOffer s' i) = price ∧
       Offer.slots (getOffer s' i) = slots ∧
       s' = setOffer i
              (Offer.set_slots slots (Offer.set_publicPrice price (getOffer s i))) s) ∧
  (∀ price slots,
     0 < i < nextOfferId s → checkSignatures stored ct pf = true →
     abi_decode_uint64_uint32 ct = Ok (price, slots) →
     resolveOfferCallback e i ct pf s =
     Ok (setOffer i
           (Offer.set_slots slots (Offer.set_publicPrice price (getOffer s i))) s)).
Proof.
  intros stored. unfold stored. clear stored. split_and!.
  - intros F' Hagree. unfold resolveOfferCallback, toBytes32.
    destruct (valid_offer_id s i); cbn; [|done].
    congruence.
  - intros Hsig.
    assert (∃ reason, resolveOfferCallback e i ct pf s = Revert reason) as [r Hr].
    { destruct (resolveOfferCallback e i ct pf s) as [s'|reason] eqn:Hx; [|eauto].
      apply resolveOfferCallback_Ok in Hx as (_ & Hsig' & _). congruence. }
    split; [eauto|]. unfold step. rewrite exec_unfold. unfold exec_in, nonpayable. rewrite Hr.
    by destruct (require _ _).
  - intros s' (_ & Hsig & price & slots & Hdec & ->)%resolveOfferCallback_Ok.
    split; [done|]. exists price, slots. rewrite getOffer_setOffer_eq. done.
  - intros price slots Hi Hsig Hdec. by apply resolveOfferCallback_succeeds.
Qed.

(** The oracle's answer for the offer of [sealed_market] is accepted and
    written; a blob that is not the decryption of the stored handles is
    rejected. *)
Lemma resolve_verifies_stored_handles_witness :
  resolveOfferCallback (H := idealFHE) (accepting 12 0 1002) 1
    (abi_encode_words [100; 1]) [] sealed_market
  = Ok (setOffer 1
          (Offer.set_slots 1 (Offer.set_publicPrice 100 (getOffer sealed_market 1)))
          sealed_market) ∧
  step (H := idealFHE) (accepting 12 0 1002)
    (TxResolveOfferCallback 1 (abi_encode_words [7; 9]) []) sealed_market
  = sealed_market.
Proof.
  split.
  - apply (proj2 (proj2 (proj2 (resolve_verifies_stored_handles (H := idealFHE)
             (accepting 12 0 1002) 1 (abi_encode_words [100; 1]) [] sealed_market)))).
    + split; by vm_compute.
    + vm_compute. reflexivity.
    + vm_compute. reflexivity.
  - apply (proj1 (proj2 (resolve_verifies_stored_handles (H := idealFHE)
             (accepting 12 0 1002) 1 (abi_encode_words [7; 9]) [] sealed_market))).
    vm_compute. reflexivity.
Defined.

(** C8.  [requestOfferReveal] succeeds only for the offer's creator or the
    platform owner, and for them it succeeds on every valid id.  On success
    the list of publicly decryptable handles grows by the offer's encrypted
    price and encrypted slots handles and by nothing else, the offer keeps
    these handles, and one event is emitted, carrying these two handles. *)
Theorem reveal_marks_and_emits e i s :
  let priceHandle := Offer.encryptedPrice (getOffer s i) in
  let slotsHandle := Offer.encryptedSlots (getOffer s i) in
  (∀ s', requestOfferReveal e i s = Ok s' →
     authorized e i s ∧
     publicDecrypt s' = publicDecrypt s ++ [priceHandle; slotsHandle] ∧
     events s' = events s ++ [TallyRevealRequested i priceHandle slotsHandle] ∧
     Offer.encryptedPrice (getOffer s' i) = priceHandle ∧
     Offer.encryptedSlots (getOffer s' i) = slotsHandle) ∧
  (¬ authorized e i s → ∃ reason, requestOfferReveal e i s = Revert reason) ∧
  (0 < i < nextOfferId s → authorized e i s →
     ∃ s', requestOfferReveal e i s = Ok s').
Proof.
  intros hp hs.
  assert (∀ s', requestOfferReveal e i s = Ok s' →
     authorized e i s ∧
     publicDecrypt s' = publicDecrypt s ++ [hp; hs] ∧
     events s' = events s ++ [TallyRevealRequested i hp hs] ∧
     Offer.encryptedPrice (getOffer s' i) = hp ∧
     Offer.encryptedSlots (getOffer s' i) = hs) as Hok.
  { intros s' (_ & Hau & ->)%requestOfferReveal_Ok.
    assert (∀ ev l, getOffer (emit ev (set_publicDecrypt l
                                         (setOffer i (getOffer s i) s))) i
                    = getOffer s i) as Hg.
    { intros ev l. unfold getOffer at 1. cbn. by rewrite lookup_insert_eq. }
    rewrite !Hg. done. }
  split_and!; [done | | ].
  - intros Hna. destruct (requestOfferReveal e i s) as [s'|reason] eqn:Hx; [|eauto].
    destruct Hna. by destruct (Hok s' eq_refl) as [? _].
  - intros Hi Hau. by apply requestOfferReveal_succeeds.
Qed.

(** The creator requests the reveal of the offer of [sealed_market]; a
    stranger's request reverts. *)
Lemma reveal_marks_and_emits_witness :
  (∃ s', requestOfferReveal (accepting 10 0 1001) 1 sealed_market = Ok s') ∧
  (∃ reason, requestOfferReveal (accepting 11 0 1001) 1 sealed_market = Revert reason).
Proof.
  split.
  - apply (proj2 (proj2 (reveal_marks_and_emits (accepting 10 0 1001) 1 sealed_market))).
    + split; by vm_compute.
    + left. vm_compute. reflexivity.
  - apply (proj1 (proj2 (reveal_marks_and_emits (accepting 11 0 1001) 1 sealed_market))).
    unfold authorized. intros [Hc|Hc]; vm_compute in Hc; discriminate Hc.
Defined.

(** C10.  [resolveOfferCallback] has no authorization and no reveal-state
    precondition: for a valid offer id its success is the conjunction of the
    signature check on the offer's current handles and of the decoding of the
    blob, so it is the same for any two callers and any two ledgers that hold
    the same two handles for the offer, whether or not a reveal was requested. *)
Theorem resolve_ignores_caller_and_reveal_state `{FHEVM} e1 e2 i ct pf s1 s2 :
  0 < i < nextOfferId s1 → 0 < i < nextOfferId s2 →
  Offer.encryptedPrice (getOffer s1 i) = Offer.encryptedPrice (getOffer s2 i) →
  Offer.encryptedSlots (getOffer s1 i) = Offer.encryptedSlots (getOffer s2 i) →
  is_ok (resolveOfferCallback e1 i ct pf s1) =
  is_ok (resolveOfferCallback e2 i ct pf s2) ∧
  is_ok (resolveOfferCallback e1 i ct pf s1) =
  checkSignatures
    [Offer.encryptedPrice (getOffer s1 i); Offer.encryptedSlots (getOffer s1 i)] ct pf
  && is_ok (abi_decode_uint64_uint32 ct).
Proof.
  intros H1 H2 Hp Hs.
  rewrite (resolveOfferCallback_is_ok e1 i ct pf s1 H1).
  rewrite (resolveOfferCallback_is_ok e2 i ct pf s2 H2).
  by rewrite Hp, Hs.
Qed.

(** Account 99, neither creator nor owner, resolves the offer of
    [sealed_market], for which no reveal was requested, exactly as account 12
    does after the creator's request. *)
Lemma resolve_ignores_caller_and_reveal_state_witness :
  let requested :=
    step (H := idealFHE) (accepting 10 0 1001) (TxRequestOfferReveal 1) sealed_market in
  publicDecrypt sealed_market = [] ∧
  publicDecrypt requested = [100; 1] ∧
  is_ok (resolveOfferCallback (H := idealFHE) (accepting 99 0 1002) 1
           (abi_encode_words [100; 1]) [] sealed_market) = true ∧
  is_ok (resolveOfferCallback (H := idealFHE) (accepting 12 0 1002) 1
           (abi_encode_words [100; 1]) [] requested) = true.
Proof.
  intros requested.
  split; [reflexivity|]. split; [vm_compute; reflexivity|].
  assert (is_ok (resolveOfferCallback (H := idealFHE) (accepting 12 0 1002) 1
                   (abi_encode_words [100; 1]) [] requested) = true) as Hreq
    by (vm_compute; reflexivity).
  split; [|exact Hreq].
  rewrite <- Hreq.
  apply (resolve_ignores_caller_and_reveal_state (H := idealFHE)
           (accepting 99 0 1002) (accepting 12 0 1002) 1
           (abi_encode_words [100; 1]) [] sealed_market requested).
  - split; by vm_compute.
  - split; by vm_compute.
  - vm_compute. reflexivity.
  - vm_compute. reflexivity.
Defined.

(** * C9: the reconciliation of purchases with the event log *)

Module IndexerFacts.
Import Indexer.

Lemma eventMap_snoc logs log :
  eventMap (logs ++ [log]) =
  match logKey log with
  | Some key => <[key := transactionHash log]> (eventMap logs)
  | None => eventMap logs
  end.
Proof. unfold eventMap. by rewrite fold_left_app. Qed.

Lemma logKeys_snoc logs log :
  logKeys (logs ++ [log]) =
  logKeys logs ++ match logKey log with Some key => [key] | None => [] end.
Proof.
  unfold logKeys. rewrite omap_app. cbn. by destruct (logKey log).
Qed.

Lemma eventMap_is_Some logs key :
  is_Some (eventMap logs !! key) ↔ key ∈ logKeys logs.
Proof.
  induction logs as [|log logs IH] using rev_ind.
  - cbn. rewrite lookup_empty. split; [by intros [? ?] | by intros ?%elem_of_nil].
  - rewrite eventMap_snoc, logKeys_snoc, elem_of_app.
    destruct (logKey log) as [key'|].
    + rewrite lookup_insert, list_elem_of_singleton. case_decide as Hk.
      * subst key'. split; [by right | by eexists].
      * rewrite IH. split; [by left | by intros [?|?]].
    + rewrite IH. split; [by left | by intros [?|?%elem_of_nil]].
Qed.

Lemma eventMap_lookup (P : string → Prop) `{∀ k, Decision (P k)} logs log key :
  NoDup (filter P (logKeys logs)) → P key →
  log ∈ logs → logKey log = Some key →
  eventMap logs !! key = Some (transactionHash log).
Proof.
  intros Hnd HP. revert Hnd.
  induction logs as [|log' logs IH] using rev_ind; [by intros _ ?%elem_of_nil|].
  rewrite eventMap_snoc, logKeys_snoc, filter_app.
  intros (Hnd & Hdisj & _)%NoDup_app [Hin| ->%list_elem_of_singleton]%elem_of_app Hkey.
  - assert (key ∈ filter P (logKeys logs)) as Hk.
    { apply list_elem_of_filter. split; [done|]. apply list_elem_of_omap. eauto. }
    destruct (logKey log') as [key'|]; [|by apply IH].
    rewrite lookup_insert_ne; [by apply IH|].
    intros ->. apply (Hdisj key Hk).
    apply list_elem_of_filter. split; [done|]. by apply list_elem_of_singleton.
  - rewrite Hkey. by rewrite lookup_insert_eq.
Qed.

Lemma fetchPurchaseHistory_map s logs buyer :
  fetchPurchaseHistory s logs buyer =
  map (item s logs (getUserPurchases s buyer))
    (purchaseStructs s (getUserPurchases s buyer)).
Proof.
  unfold fetchPurchaseHistory. by destruct (getUserPurchases s buyer).
Qed.

Lemma hasTx_item s logs ids p :
  hasTx (item s logs ids p) = true ↔ purchaseKey p.2 ∈ logKeys logs.
Proof.
  rewrite <- eventMap_is_Some. unfold hasTx, item. cbn.
  destruct (eventMap logs !! purchaseKey p.2) as [h|].
  - split; [by eexists | done].
  - split; [done | by intros [? ?]].
Qed.

Lemma count_with_tx s logs ids0 ids :
  length (filter (fun it => hasTx it = true)
            (map (item s logs ids0) (purchaseStructs s ids))) =
  length (filter (fun key => key ∈ logKeys logs)
            (map purchaseKey (map (getPurchase s) ids))).
Proof.
  unfold purchaseStructs. induction ids as [|i ids IH]; [done|]. cbn [map].
  rewrite !filter_cons.
  pose proof (hasTx_item s logs ids0 (i, getPurchase s i)) as Hh. cbn in Hh.
  destruct (decide (hasTx _ = true)) as [Ht|Ht];
    destruct (decide (_ ∈ logKeys logs)) as [Hk|Hk]; cbn.
  - by rewrite IH.
  - by apply Hh in Ht.
  - by apply Hh in Hk.
  - done.
Qed.

Lemma count_split {A} (b : A → bool) (l : list A) :
  (length (filter (fun x => b x = true) l) +
   length (filter (fun x => b x = false) l))%nat = length l.
Proof.
  induction l as [|x l IH]; [done|]. rewrite !filter_cons.
  destruct (b x); repeat case_decide; try done; cbn; lia.
Qed.

Lemma filter_swap (l k : list string) :
  NoDup l → NoDup (filter (fun x => x ∈ l) k) →
  length (filter (fun x => x ∈ k) l) = length (filter (fun x => x ∈ l) k).
Proof.
  intros Hl Hk. apply Permutation_length, NoDup_Permutation.
  - by apply NoDup_filter.
  - done.
  - intros x. rewrite !list_elem_of_filter. tauto.
Qed.

End IndexerFacts.

Lemma reachable_twice_bought : reachable (H := idealFHE) twice_bought.
Proof.
  unfold twice_bought, run. cbn [fold_left fst snd].
  do 2 (apply reachable_step; [| solve_wf ..]).
  apply reachable_market.
Qed.

Lemma map_lookup {A B} (f : A → B) (l : list A) (i : nat) :
  map f l !! i = f <$> (l !! i).
Proof.
  revert i. induction l as [|x l IH]; intros [|i]; cbn; done.
Qed.

(** C9, as amended.  When the buyer's purchase records have pairwise
    distinct composite keys and the log entries that match a record have
    pairwise distinct composite keys, the reconciliation output has one entry
    per purchase record, in order; exactly [m] entries carry a transaction
    identity and [n - m] carry none, where [n] is the number of records and
    [m] the number of log entries whose key is the key of a record; an entry
    whose key is the key of a log entry carries that entry's transaction hash;
    and no log entry has the key of two entries at different positions. *)
Theorem reconciliation_with_distinct_keys s logs buyer :
  let ids := getUserPurchases s buyer in
  let records := map (getPurchase s) ids in
  let out := Indexer.fetchPurchaseHistory s logs buyer in
  NoDup (map Indexer.purchaseKey records) →
  NoDup (Indexer.matching_keys records logs) →
  map Indexer.purchase out = records ∧
  map Indexer.id out = ids ∧
  length (filter (fun it => Indexer.hasTx it = true) out)
    = Indexer.matching_count records logs ∧
  length (filter (fun it => Indexer.hasTx it = false) out)
    = (length records - Indexer.matching_count records logs)%nat ∧
  (∀ log key it,
     log ∈ logs → Indexer.logKey log = Some key → it ∈ out →
     Indexer.purchaseKey (Indexer.purchase it) = key →
     Indexer.txHash it = Some (Indexer.transactionHash log)) ∧
  (∀ log key a b it1 it2,
     Indexer.logKey log = Some key →
     out !! a = Some it1 → out !! b = Some it2 →
     Indexer.purchaseKey (Indexer.purchase it1) = key →
     Indexer.purchaseKey (Indexer.purchase it2) = key →
     a = b).
Proof.
  intros ids records out Hpk Hlk.
  assert (out = map (Indexer.item s logs ids) (Indexer.purchaseStructs s ids)) as Hout
    by apply IndexerFacts.fetchPurchaseHistory_map.
  assert (map Indexer.purchase out = records) as Hrec.
  { rewrite Hout. unfold Indexer.purchaseStructs, records. by rewrite !map_map. }
  assert (length (filter (fun it => Indexer.hasTx it = true) out)
          = Indexer.matching_count records logs) as Hcount.
  { rewrite Hout, IndexerFacts.count_with_tx. fold records.
    by apply IndexerFacts.filter_swap. }
  split_and!; try done.
  - rewrite Hout. unfold Indexer.purchaseStructs. rewrite !map_map. cbn.
    apply map_id.
  - pose proof (IndexerFacts.count_split Indexer.hasTx out) as Hsplit.
    rewrite Hcount in Hsplit.
    assert (length records = length out) as Hlen by (by rewrite <- Hrec, length_map).
    lia.
  - intros log key it Hlog Hkey Hit Hk.
    rewrite Hout in Hit. apply list_elem_of_In, in_map_iff in Hit as (p & <- & Hp).
    cbn in *. rewrite Hk.
    apply (IndexerFacts.eventMap_lookup
             (fun key => key ∈ map Indexer.purchaseKey records)); try done.
    rewrite <- Hk. unfold records. rewrite !map_map.
    unfold Indexer.purchaseStructs in Hp. apply in_map_iff in Hp as (i & <- & Hi).
    apply list_elem_of_In, in_map_iff. by exists i.
  - intros log key a b it1 it2 _ Ha Hb H1 H2.
    apply (NoDup_lookup _ a b key Hpk); rewrite <- Hrec, !map_lookup.
    + by rewrite Ha; cbn; rewrite H1.
    + by rewrite Hb; cbn; rewrite H2.
Qed.

(** The two purchases of [bought_apart] have different keys; the one log
    entry gives its hash to the first and the second has none. *)
Lemma reconciliation_with_distinct_keys_witness :
  let out := Indexer.fetchPurchaseHistory bought_apart first_log 11 in
  length (filter (fun it => Indexer.hasTx it = true) out) = 1%nat ∧
  length (filter (fun it => Indexer.hasTx it = false) out) = 1%nat.
Proof.
  intros out.
  assert (NoDup (map Indexer.purchaseKey
                   (map (getPurchase bought_apart) (getUserPurchases bought_apart 11))))
    as Hpk by (apply (bool_decide_unpack _); vm_compute; exact I).
  assert (NoDup (Indexer.matching_keys
                   (map (getPurchase bought_apart) (getUserPurchases bought_apart 11))
                   first_log)) as Hlk
    by (apply (bool_decide_unpack _); vm_compute; exact I).
  destruct (reconciliation_with_distinct_keys bought_apart first_log 11 Hpk Hlk)
    as (_ & _ & Hwith & Hwithout & _).
  split.
  - etransitivity; [exact Hwith|]. vm_compute. reflexivity.
  - etransitivity; [exact Hwithout|]. vm_compute. reflexivity.
Defined.

(** C9 as stated fails: two purchases of the same shape in one block have the
    same composite key, so with one matching log entry ([m = 1 < n = 2]) both
    output entries carry a transaction identity, and it is the hash of that
    one log entry. *)
Lemma identical_purchases_share_one_log :
  reachable (H := idealFHE) twice_bought ∧
  let records := map (getPurchase twice_bought) (getUserPurchases twice_bought 11) in
  let out := Indexer.fetchPurchaseHistory twice_bought one_log 11 in
  length records = 2%nat ∧
  Indexer.matching_count records one_log = 1%nat ∧
  length (filter (fun it => Indexer.hasTx it = true) out) = 2%nat ∧
  map Indexer.id out = [1; 2] ∧
  map Indexer.txHash out = [Some "0xaaa"; Some "0xaaa"].
Proof.
  split; [apply reachable_twice_bought|].
  cbv zeta. split_and!; vm_compute; reflexivity.
Qed.


(** * Further properties of the ledger *)

Lemma reachable_bought_apart : reachable (H := idealFHE) bought_apart.
Proof.
  unfold bought_apart, run. cbn [fold_left fst snd].
  do 2 (apply reachable_step; [| solve_wf ..]).
  apply reachable_market.
Qed.

Lemma sumZ_nonneg (l : list Z) : (∀ x, x ∈ l → 0 ≤ x) → 0 ≤ sumZ l.
Proof.
  induction l as [|x l IH]; [done|]. intros Hz. cbn.
  assert (0 ≤ x) by (apply Hz; by left).
  assert (0 ≤ sumZ l) by (apply IH; intros y Hy; apply Hz; by right).
  unfold sumZ in *. lia.
Qed.

Lemma getPurchase_stored s j :
  purchases_inv s → 0 < j < nextPurchaseId s →
  purchases s !! j = Some (getPurchase s j).
Proof.
  intros Hp Hj. destruct (pur_stored s Hp j Hj) as [p Hs].
  unfold getPurchase. by rewrite Hs.
Qed.

(** X1.  In a reachable ledger the four numbers of [getContractStats] are the
    number of offers created, the number of purchase records, the sum of the
    [totalPrice] of the purchase records, and the number of offers whose
    [isActive] flag is set. *)
Theorem stats_are_the_aggregates `{FHEVM} s :
  reachable s →
  getContractStats s =
  (Z.of_nat (length (offer_ids s)),
   Z.of_nat (length (purchase_ids s)),
   recorded_volume s,
   Z.of_nat (length (filter (fun i => Offer.isActive (getOffer s i) = true)
                       (offer_ids s)))).
Proof.
  intros Hr. pose proof (reachable_ledger_inv s Hr) as Hl.
  destruct (reachable_accounting s Hr) as (Ho & Hp & _).
  pose proof (inv_next_pos s Hl). pose proof (pur_next_pos s Hp).
  unfold getContractStats, offer_ids, purchase_ids.
  rewrite !length_seqZ, !Z2Nat.id by lia.
  rewrite (inv_count s Hl), (pur_count s Hp), (pur_volume s Hp).
  do 2 f_equal. apply Permutation_length, NoDup_Permutation.
  - apply (inv_active_nodup s Hl).
  - apply NoDup_filter, NoDup_seqZ.
  - intros i. rewrite list_elem_of_filter, elem_of_seqZ, (inv_active s Hl).
    split; [|by intros [? _]]. intros Hact. split; [done|].
    apply is_active_stored, (inv_offers_range s Hl) in Hact. lia.
Qed.

Lemma stats_are_the_aggregates_witness :
  getContractStats bought_apart = (1, 2, 500, 0).
Proof.
  rewrite (stats_are_the_aggregates (H := idealFHE) bought_apart).
  - vm_compute. reflexivity.
  - apply reachable_bought_apart.
Defined.

Lemma sold_slots_nonneg s i : purchases_inv s → 0 ≤ sold_slots s i.
Proof.
  intros Hp. apply sumZ_nonneg.
  intros x (j & -> & [Hj1 Hj2]%elem_of_seqZ)%list_elem_of_fmap.
  assert (0 < j < nextPurchaseId s) as Hj by lia.
  destruct (pur_valid s Hp j _ (getPurchase_stored s j Hp Hj)) as (_ & Hk & _).
  unfold sold_in. case_match; lia.
Qed.

(** X2.  Slots are conserved: every created offer has its creation event,
    and the slots it has left plus the slots of the purchase records that
    refer to it are the slots it was created with; neither part is negative. *)
Theorem slots_are_conserved `{FHEVM} s i :
  reachable s → 0 < i < nextOfferId s →
  ∃ c t p d sl,
    OfferCreated i c t p d sl ∈ events s ∧
    Offer.availableSlots (getOffer s i) + sold_slots s i = sl ∧
    0 ≤ Offer.availableSlots (getOffer s i) ∧ 0 ≤ sold_slots s i.
Proof.
  intros Hr Hi. destruct (reachable_accounting s Hr) as (Ho & Hp & _ & _ & He).
  pose proof (getOffer_stored s i Ho Hi) as Hs.
  destruct (ev_offer s He i _ Hs) as (t & p & d & sl & Hev).
  destruct (ev_created s He _ _ _ _ _ _ Hev) as (_ & _ & Hsum).
  exists (Offer.creator (getOffer s i)), t, p, d, sl. split_and!; try done.
  - apply (off_nonneg s Ho i _ Hs).
  - by apply sold_slots_nonneg.
Qed.

Lemma slots_are_conserved_witness :
  ∃ c t p d sl,
    OfferCreated 1 c t p d sl ∈ events bought_apart ∧
    Offer.availableSlots (getOffer bought_apart 1) + sold_slots bought_apart 1 = sl ∧
    0 ≤ Offer.availableSlots (getOffer bought_apart 1) ∧
    0 ≤ sold_slots bought_apart 1.
Proof.
  apply (slots_are_conserved (H := idealFHE) bought_apart 1).
  - apply reachable_bought_apart.
  - by vm_compute.
Defined.

(** X3.  The list returned by [getActiveOfferIds] holds exactly the created
    offers whose [isActive] flag is set, each once, and each of them has at
    least one slot left. *)
Theorem active_list_is_exact `{FHEVM} s i :
  reachable s →
  (i ∈ getActiveOfferIds s ↔
     0 < i < nextOfferId s ∧ Offer.isActive (getOffer s i) = true) ∧
  (i ∈ getActiveOfferIds s → 0 < Offer.availableSlots (getOffer s i)) ∧
  NoDup (getActiveOfferIds s).
Proof.
  intros Hr. pose proof (reachable_ledger_inv s Hr) as Hl.
  destruct (reachable_accounting s Hr) as (Ho & _).
  unfold getActiveOfferIds. rewrite (inv_active s Hl). split_and!.
  - split; [|by intros [_ ?]]. intros Hact. split; [|done].
    by apply is_active_stored, (inv_offers_range s Hl) in Hact.
  - intros Hact. by apply (off_active_slots s Ho i _ (is_active_stored s i Hact)).
  - apply (inv_active_nodup s Hl).
Qed.

Lemma active_list_is_exact_witness :
  (1 ∈ getActiveOfferIds market ↔
     0 < 1 < nextOfferId market ∧ Offer.isActive (getOffer market 1) = true) ∧
  (1 ∈ getActiveOfferIds market → 0 < Offer.availableSlots (getOffer market 1)) ∧
  NoDup (getActiveOfferIds market).
Proof.
  apply (active_list_is_exact (H := idealFHE) market 1), reachable_market.
Defined.

(** X4.  The list returned by [getUserOffers] for an account holds exactly
    the ids of the offers that account created, each once. *)
Theorem creator_index_is_exact `{FHEVM} s a i :
  reachable s →
  (i ∈ getUserOffers s a ↔
     0 < i < nextOfferId s ∧ Offer.creator (getOffer s i) = a) ∧
  NoDup (getUserOffers s a).
Proof.
  intros Hr. pose proof (reachable_ledger_inv s Hr) as Hl.
  destruct (reachable_accounting s Hr) as (Ho & _ & Hx & _).
  split; [|apply (idx_offers_nodup s Hx)].
  rewrite (idx_offers s Hx). split.
  - intros (o & Hs & Hc). split; [apply (inv_offers_range s Hl i o Hs)|].
    by rewrite (getOffer_lookup s i o Hs).
  - intros [Hi Hc]. exists (getOffer s i). split; [|done].
    by apply getOffer_stored.
Qed.

Lemma creator_index_is_exact_witness :
  (1 ∈ getUserOffers market 10 ↔
     0 < 1 < nextOfferId market ∧ Offer.creator (getOffer market 1) = 10) ∧
  NoDup (getUserOffers market 10).
Proof.
  apply (creator_index_is_exact (H := idealFHE) market 10 1), reachable_market.
Defined.

(** X5.  The list returned by [getUserPurchases] for an account holds exactly
    the ids of the purchase records whose buyer is that account, each once. *)
Theorem buyer_index_is_exact `{FHEVM} s a j :
  reachable s →
  (j ∈ getUserPurchases s a ↔
     0 < j < nextPurchaseId s ∧ Purchase.buyer (getPurchase s j) = a) ∧
  NoDup (getUserPurchases s a).
Proof.
  intros Hr. destruct (reachable_accounting s Hr) as (_ & Hp & Hx & _).
  split; [|apply (idx_purchases_nodup s Hx)].
  rewrite (idx_purchases s Hx). split.
  - intros (p & Hs & Hb). split; [apply (pur_range s Hp j p Hs)|].
    unfold getPurchase. by rewrite Hs.
  - intros [Hj Hb]. exists (getPurchase s j). split; [|done].
    by apply getPurchase_stored.
Qed.

Lemma buyer_index_is_exact_witness :
  (2 ∈ getUserPurchases bought_apart 11 ↔
     0 < 2 < nextPurchaseId bought_apart ∧
     Purchase.buyer (getPurchase bought_apart 2) = 11) ∧
  NoDup (getUserPurchases bought_apart 11).
Proof.
  apply (buyer_index_is_exact (H := idealFHE) bought_apart 11 2),
    reachable_bought_apart.
Defined.

(** X6.  Every purchase record refers to a created offer, buys at least one
    slot, was not made by the creator of that offer, has an [OfferPurchased]
    event with its offer id, buyer, slots and total price, and is listed in
    the purchases of its buyer. *)
Theorem purchase_record_is_sound `{FHEVM} s j :
  reachable s → 0 < j < nextPurchaseId s →
  let p := getPurchase s j in
  0 < Purchase.offerId p < nextOfferId s ∧
  0 < Purchase.slots p ∧
  Purchase.buyer p ≠ Offer.creator (getOffer s (Purchase.offerId p)) ∧
  (∃ left, OfferPurchased (Purchase.offerId p) (Purchase.buyer p)
             (Purchase.slots p) (Purchase.totalPrice p) left ∈ events s) ∧
  j ∈ getUserPurchases s (Purchase.buyer p).
Proof.
  intros Hr Hj p. destruct (reachable_accounting s Hr) as (_ & Hp & Hx & _ & He).
  pose proof (getPurchase_stored s j Hp Hj) as Hs. fold p in Hs.
  destruct (pur_valid s Hp j p Hs) as (? & ? & ?).
  split_and!; try done; try lia.
  - apply (ev_purchase s He j p Hs).
  - apply (idx_purchases s Hx). by exists p.
Qed.

Lemma purchase_record_is_sound_witness :
  let p := getPurchase bought_apart 2 in
  0 < Purchase.offerId p < nextOfferId bought_apart ∧
  0 < Purchase.slots p ∧
  Purchase.buyer p ≠ Offer.creator (getOffer bought_apart (Purchase.offerId p)) ∧
  (∃ left, OfferPurchased (Purchase.offerId p) (Purchase.buyer p)
             (Purchase.slots p) (Purchase.totalPrice p) left ∈ events bought_apart) ∧
  2 ∈ getUserPurchases bought_apart (Purchase.buyer p).
Proof.
  apply (purchase_record_is_sound (H := idealFHE) bought_apart 2).
  - apply reachable_bought_apart.
  - by vm_compute.
Defined.

(** X7.  The contract keeps no funds: between transactions its balance is
    zero, so [emergencyWithdraw] reverts for every caller. *)
Theorem no_funds_are_retained `{FHEVM} s e :
  reachable s →
  balance s = 0 ∧ ∃ reason, emergencyWithdraw e s = Revert reason.
Proof.
  intros Hr. destruct (reachable_accounting s Hr) as (_ & _ & _ & Hf & _).
  pose proof (fund_balance s Hf) as Hb. split; [done|].
  unfold emergencyWithdraw, emergencyWithdraw_in, onlyOwner, require.
  destruct (msg_sender e =? owner s); cbn; [|by eexists].
  rewrite Hb. cbn. by eexists.
Qed.

Lemma no_funds_are_retained_witness :
  balance bought_apart = 0 ∧
  ∃ reason, emergencyWithdraw (H := idealFHE) (accepting 1 0 2000) bought_apart
            = Revert reason.
Proof.
  apply (no_funds_are_retained (H := idealFHE) bought_apart (accepting 1 0 2000)),
    reachable_bought_apart.
Defined.

(** X8.  In every reachable ledger the platform fee returned by
    [getPlatformFee] is at most 1000 basis points and the treasury returned
    by [getTreasury] is not the zero address. *)
Theorem settings_stay_in_bounds `{FHEVM} s :
  reachable s → 0 ≤ getPlatformFee s ≤ 1000 ∧ getTreasury s ≠ 0.
Proof.
  intros Hr. destruct (reachable_accounting s Hr) as (_ & _ & _ & Hf & _).
  split; [apply (fund_fee s Hf) | apply (fund_treasury s Hf)].
Qed.

Lemma settings_stay_in_bounds_witness :
  0 ≤ getPlatformFee market ≤ 1000 ∧ getTreasury market ≠ 0.
Proof. apply (settings_stay_in_bounds (H := idealFHE) market), reachable_market. Defined.

(** * Properties of runs of transactions *)

Section Runs.
Context `{FHEVM}.

Lemma step_frame e tx s : frame s (step e tx s).
Proof.
  unfold step. destruct (exec e tx s) as [s'|] eqn:Hx; [|apply frame_refl].
  eapply trace_frame, (exec_trace (fun _ _ => True)); [apply calls_all_True | done].
Qed.

Lemma run_snoc txs et s : run (txs ++ [et]) s = step et.1 et.2 (run txs s).
Proof. unfold run. by rewrite fold_left_app. Qed.

(** What every transaction leaves as it is, every run does. *)
Lemma run_frame txs s : frame s (run txs s).
Proof.
  induction txs as [|et txs IH] using rev_ind; [apply frame_refl|].
  rewrite run_snoc. eapply frame_trans; [done | apply step_frame].
Qed.

Lemma run_evolves txs s i :
  0 < i < nextOfferId s →
  0 < i < nextOfferId (run txs s) ∧
  offer_evolves (getOffer s i) (getOffer (run txs s) i).
Proof.
  intros Hi. pose proof (run_frame txs s) as F. split.
  - pose proof (fr_offer_ids _ _ F). lia.
  - by apply (fr_offers _ _ F).
Qed.

End Runs.

(** X9.  Whatever transactions follow, the terms of a created offer stay as
    they are: its id, creator, title, description, duration, creation and
    expiry times, and the three encrypted handles that
    [getEncryptedOfferData] returns. *)
Theorem offer_terms_are_immutable `{FHEVM} txs s i :
  run_wf txs → 0 < i < nextOfferId s →
  let o := getOffer s i in
  let o' := getOffer (run txs s) i in
  Offer.id o' = Offer.id o ∧ Offer.creator o' = Offer.creator o ∧
  Offer.title o' = Offer.title o ∧ Offer.description o' = Offer.description o ∧
  Offer.duration o' = Offer.duration o ∧
  Offer.createdAt o' = Offer.createdAt o ∧ Offer.expiresAt o' = Offer.expiresAt o ∧
  getEncryptedOfferData (run txs s) i = getEncryptedOfferData s i.
Proof.
  intros Hwf Hi o o'.
  destruct (run_evolves txs s i Hi) as (Hi' & Hev).
  destruct Hev as (?&?&?&?&?&?&?&Hp&Hd&Hs&_).
  split_and!; try done.
  unfold getEncryptedOfferData.
  rewrite !(proj2 (valid_offer_id_spec _ i)) by done. cbn.
  by rewrite Hp, Hd, Hs.
Qed.

Lemma offer_terms_are_immutable_witness :
  let o := getOffer sealed_market 1 in
  let o' := getOffer revealed_market 1 in
  Offer.id o' = Offer.id o ∧ Offer.creator o' = Offer.creator o ∧
  Offer.title o' = Offer.title o ∧ Offer.description o' = Offer.description o ∧
  Offer.duration o' = Offer.duration o ∧
  Offer.createdAt o' = Offer.createdAt o ∧ Offer.expiresAt o' = Offer.expiresAt o ∧
  getEncryptedOfferData revealed_market 1 = getEncryptedOfferData sealed_market 1.
Proof.
  apply (offer_terms_are_immutable (H := idealFHE) _ sealed_market 1).
  - repeat constructor; by vm_compute.
  - by vm_compute.
Defined.

(** X10.  Whatever transactions follow, the available slots of a created
    offer never grow and an offer that is inactive stays inactive: no
    function reopens an offer or returns a slot. *)
Theorem offer_never_reopens `{FHEVM} txs s i :
  run_wf txs → 0 < i < nextOfferId s →
  Offer.availableSlots (getOffer (run txs s) i) ≤ Offer.availableSlots (getOffer s i) ∧
  (Offer.isActive (getOffer s i) = false →
   Offer.isActive (getOffer (run txs s) i) = false).
Proof.
  intros Hwf Hi.
  destruct (run_evolves txs s i Hi) as (_ & Hev).
  destruct Hev as (_&_&_&_&_&_&_&_&_&_&Hle&Hact).
  split; [done|]. intros Hoff.
  destruct (Offer.isActive (getOffer (run txs s) i)); [|done].
  rewrite Hact in Hoff; done.
Qed.

Lemma offer_never_reopens_witness :
  Offer.availableSlots (getOffer bought_apart 1) ≤
    Offer.availableSlots (getOffer market 1) ∧
  (Offer.isActive (getOffer market 1) = false →
   Offer.isActive (getOffer bought_apart 1) = false).
Proof.
  apply (offer_never_reopens (H := idealFHE) _ market 1).
  - repeat constructor; by vm_compute.
  - by vm_compute.
Defined.

(** X11.  Purchase records are final: whatever transactions follow, a
    stored purchase record is never modified, and the purchase and offer
    counters never decrease, so no id is given out twice. *)
Theorem purchase_records_are_final `{FHEVM} txs s j :
  run_wf txs → 0 < j < nextPurchaseId s →
  getPurchase (run txs s) j = getPurchase s j ∧
  nextPurchaseId s ≤ nextPurchaseId (run txs s) ∧
  nextOfferId s ≤ nextOfferId (run txs s).
Proof.
  intros _ Hj. pose proof (run_frame txs s) as F.
  split_and!.
  - by apply (fr_purchases _ _ F).
  - apply (fr_purchase_ids _ _ F).
  - apply (fr_offer_ids _ _ F).
Qed.

Lemma purchase_records_are_final_witness :
  let s := step (H := idealFHE) (accepting 11 200 1001) (TxPurchaseOffer 1 2) market in
  let s' := run (H := idealFHE) [(accepting 11 300 1002, TxPurchaseOffer 1 3)] s in
  getPurchase s' 1 = getPurchase s 1 ∧
  nextPurchaseId s ≤ nextPurchaseId s' ∧
  nextOfferId s ≤ nextOfferId s'.
Proof.
  intros s s'.
  apply (purchase_records_are_final (H := idealFHE)
           [(accepting 11 300 1002, TxPurchaseOffer 1 3)] s 1).
  - repeat constructor; by vm_compute.
  - by vm_compute.
Defined.

(** * Who can change what *)





(** X27.  A recipient of a transfer that is a contract can close the offer
    during a purchase that leaves slots: when the creator of the offer of
    [market], on the receipt of its share, calls [deactivateOffer], the
    purchase of two of the five slots succeeds and leaves the offer inactive,
    out of the active list, with three slots. *)
Theorem callback_closes_offer_in_purchase :
  let e := deactivating 10 1 11 200 1001 in
  ∃ s', purchaseOffer (H := idealFHE) e 1 2 market = Ok s' ∧
        Offer.availableSlots (getOffer s' 1) = 3 ∧
        Offer.isActive (getOffer s' 1) = false ∧
        activeOfferIds s' = [] ∧
        events s' = events market ++
          [OfferDeactivated 1 10; OfferPurchased 1 11 2 200 3].
Proof. eexists. split; [vm_compute; reflexivity|]. by vm_compute. Qed.

(** X28.  [resolveOfferCallback] has no reentrancy guard either: when the
    creator of the offer of [sealed_market] (5 public slots, encrypted slot
    count 1), on receiving its share of a purchase of 2 slots, submits the
    reveal, the purchase succeeds and leaves the offer with 3 available slots
    out of 1. *)
Theorem callback_reveals_in_purchase :
  let e := calling_back 10 (TxResolveOfferCallback 1 (abi_encode_words [100; 1]) [])
             11 200 1001 in
  Offer.availableSlots (getOffer sealed_market 1) ≤ Offer.slots (getOffer sealed_market 1) ∧
  ∃ s', purchaseOffer (H := idealFHE) e 1 2 sealed_market = Ok s' ∧
        Offer.availableSlots (getOffer s' 1) = 3 ∧
        Offer.slots (getOffer s' 1) = 1 ∧
        ¬ slots_bounded s'.
Proof.
  split; [by vm_compute|].
  eexists. split; [vm_compute; reflexivity|].
  split; [reflexivity|]. split; [reflexivity|].
  intros Hb. specialize (Hb 1 _ ltac:(vm_compute; reflexivity)).
  cbn in Hb. lia.
Qed.

(** Only the owner changes the settings, in a call or in a call back. *)
Lemma trace_keeps_settings `{FHEVM} ow s s' :
  trace (fun e _ => msg_sender e ≠ ow) s s' → owner s = ow →
  platformFee s' = platformFee s ∧ treasury s' = treasury s ∧ owner s' = owner s.
Proof.
  induction 1 as [s | s1 s2 s3 _ IH1 _ IH2 | e tx s s' Hne Hnp Hx
                 | e j k s s1 s2 s3 _ Hl Hi Hk Hg Hfa Hfb _ IH1 Hcb _ IH2 Hrb _ IH3
                 | e s s' Hne Ho Hb _ IH]; intros Hown.
  - done.
  - destruct (IH1 Hown) as (-> & -> & Ho1) in IH2 |- *.
    destruct IH2 as (-> & -> & ->); [congruence|]. by rewrite Ho1.
  - subst ow. destruct tx; cbn in Hx, Hnp; try done;
      try apply nonpayable_Ok in Hx as [_ Hx].
    + by apply createOfferWithFHE_full in Hx as (_ & _ & _ & _ & _ & ->).
    + by apply createOffer_full in Hx as (_ & _ & _ & ->).
    + by apply requestOfferReveal_Ok in Hx as (_ & _ & ->).
    + by apply resolveOfferCallback_Ok in Hx as (_ & _ & price & slots & _ & ->).
    + by apply comparePrices_Ok in Hx as ->.
    + by apply deactivateOffer_Ok in Hx as (_ & _ & _ & ->).
    + by apply updatePlatformFee_Ok in Hx as (? & _).
    + by apply updateTreasury_Ok in Hx as (? & _).
  - change (platformFee (purchase_closed e j k (price_of s j k) s3))
      with (platformFee s3).
    change (treasury (purchase_closed e j k (price_of s j k) s3)) with (treasury s3).
    change (owner (purchase_closed e j k (price_of s j k) s3)) with (owner s3).
    assert (platformFee s1 = platformFee s ∧ treasury s1 = treasury s ∧
            owner s1 = owner s) as (F1 & T1 & O1).
    { destruct (0 <? fee_of s j k); by apply IH1. }
    assert (platformFee s2 = platformFee s ∧ treasury s2 = treasury s ∧
            owner s2 = owner s) as (F2 & T2 & O2).
    { destruct IH2 as (-> & -> & ->); [cbn; congruence | done]. }
    assert (platformFee s3 = platformFee s2 ∧ treasury s3 = treasury s2 ∧
            owner s3 = owner s2) as (F3 & T3 & O3).
    { destruct (price_of s j k <? msg_value e); apply IH3; cbn; congruence. }
    split_and!; congruence.
  - congruence.
Qed.

(** X14.  A transaction in which neither the caller nor the caller of any
    call back is the owner leaves the platform fee, the treasury and the
    owner as they are, whether it succeeds or reverts. *)
Theorem only_owner_changes_settings `{FHEVM} e tx s :
  calls_all (fun e' _ => msg_sender e' ≠ owner s) e tx →
  getPlatformFee (step e tx s) = getPlatformFee s ∧
  getTreasury (step e tx s) = getTreasury s ∧
  owner (step e tx s) = owner s.
Proof.
  intros Hne. unfold step, getPlatformFee, getTreasury.
  destruct (exec e tx s) as [s'|] eqn:Hx; [|done].
  apply (trace_keeps_settings (owner s)); [|done].
  by eapply exec_trace.
Qed.

(** Account 11 buys two slots of the offer of [market]; its creator, on the
    receipt of its share, calls [updatePlatformFee].  Neither is the owner. *)
Lemma only_owner_changes_settings_witness :
  let e := calling_back 10 (TxUpdatePlatformFee 0) 11 200 1001 in
  let s' := step (H := idealFHE) e (TxPurchaseOffer 1 2) market in
  getPlatformFee s' = getPlatformFee market ∧
  getTreasury s' = getTreasury market ∧
  owner s' = owner market.
Proof.
  intros e s'.
  apply (only_owner_changes_settings (H := idealFHE) e (TxPurchaseOffer 1 2) market).
  constructor; [by vm_compute|].
  intros n a v e' tx' Hin. cbn in Hin.
  destruct (a =? 10); [|by apply elem_of_nil in Hin].
  apply list_elem_of_singleton in Hin. injection Hin as -> ->.
  constructor; [by vm_compute|].
  intros n' a' v' e' tx' Hin. cbn in Hin. by apply elem_of_nil in Hin.
Defined.

(** X15.  A successful [deactivateOffer] takes the offer out of the active
    list and clears its flag, but leaves its remaining slots, every purchase
    record and the counters as they were; afterwards every purchase of that
    offer and every further deactivation of it reverts. *)
Theorem deactivation_stops_sales `{FHEVM} e i s s' :
  reachable s → deactivateOffer e i s = Ok s' →
  Offer.isActive (getOffer s' i) = false ∧
  (i ∉ getActiveOfferIds s') ∧
  Offer.availableSlots (getOffer s' i) = Offer.availableSlots (getOffer s i) ∧
  purchases s' = purchases s ∧
  getContractStats s' =
    (totalOffersCreated s, totalPurchases s, totalVolume s,
     Z.of_nat (length (activeOfferIds s)) - 1) ∧
  (∀ e' k, ∃ reason, purchaseOffer e' i k s' = Revert reason) ∧
  (∀ e', ∃ reason, deactivateOffer e' i s' = Revert reason).
Proof.
  intros Hr Hx. pose proof (reachable_ledger_inv s Hr) as Hl.
  pose proof (deactivateOffer_inv e i s s' Hl Hx) as Hl'.
  apply deactivateOffer_Ok in Hx as (Hi & _ & Hact & ->).
  set (s' := emit _ _) in *.
  assert (Offer.isActive (getOffer s' i) = false) as Hoff.
  { unfold s'. offer_after. by rewrite decide_True. }
  split_and!.
  - done.
  - unfold getActiveOfferIds. rewrite (inv_active s' Hl'). congruence.
  - unfold s'. offer_after. by rewrite decide_True.
  - done.
  - unfold getContractStats, s'. cbn. do 2 f_equal.
    apply (inv_active s Hl) in Hact.
    apply swap_remove_perm, Permutation_length in Hact. cbn in Hact. lia.
  - intros e' k. destruct (purchaseOffer e' i k s') eqn:Hp; [|by eexists].
    apply purchaseOffer_Ok in Hp as (_ & _ & _ & (Hon & _)). congruence.
  - intros e'. destruct (deactivateOffer e' i s') eqn:Hd; [|by eexists].
    apply deactivateOffer_Ok in Hd as (_ & _ & Hon & _). congruence.
Qed.

Lemma deactivation_stops_sales_witness :
  let e := accepting 10 0 2000 in
  let s' := step (H := idealFHE) e (TxDeactivateOffer 1) market in
  Offer.isActive (getOffer s' 1) = false ∧
  (1 ∉ getActiveOfferIds s') ∧
  Offer.availableSlots (getOffer s' 1) = Offer.availableSlots (getOffer market 1) ∧
  purchases s' = purchases market ∧
  getContractStats s' =
    (totalOffersCreated market, totalPurchases market, totalVolume market,
     Z.of_nat (length (activeOfferIds market)) - 1) ∧
  (∀ e' k, ∃ reason, purchaseOffer (H := idealFHE) e' 1 k s' = Revert reason) ∧
  (∀ e', ∃ reason, deactivateOffer e' 1 s' = Revert reason).
Proof.
  intros e s'.
  apply (deactivation_stops_sales (H := idealFHE) e 1 market s').
  - apply reachable_market.
  - vm_compute. reflexivity.
Defined.

(** * The removal from the active list *)

Lemma list_find_first (x : Z) (l1 l2 : list Z) :
  x ∉ l1 → list_find (fun y => y = x) (l1 ++ x :: l2) = Some (length l1, x).
Proof.
  induction l1 as [|y l1 IH]; intros Hnin; cbn.
  - by rewrite decide_True.
  - apply not_elem_of_cons in Hnin as [Hne Hnin].
    rewrite decide_False by congruence. by rewrite IH.
Qed.

(** X16.  [_removeFromActiveOffers] removes the first occurrence of an id by
    moving the last element of the list into its place and dropping the
    last position; a list that does not hold the id is left as it is. *)
Theorem removal_moves_last_into_place (x z : Z) (l1 l2 : list Z) :
  x ∉ l1 →
  swap_remove x (l1 ++ x :: l2 ++ [z]) = l1 ++ z :: l2 ∧
  swap_remove x (l1 ++ [x]) = l1 ∧
  swap_remove x l1 = l1.
Proof.
  intros Hnin. unfold swap_remove. split_and!.
  - rewrite list_find_first by done.
    replace (l1 ++ x :: l2 ++ [z]) with ((l1 ++ x :: l2) ++ [z])
      by (by rewrite <- app_assoc).
    rewrite last_snoc. simpl.
    rewrite (length_app (l1 ++ x :: l2)). simpl. rewrite Nat.add_sub.
    rewrite <- app_assoc. simpl.
    rewrite insert_app_r_alt by lia. rewrite Nat.sub_diag. simpl.
    replace (l1 ++ z :: l2 ++ [z]) with ((l1 ++ z :: l2) ++ [z])
      by (by rewrite <- app_assoc).
    replace (length (l1 ++ x :: l2)) with (length (l1 ++ z :: l2))
      by (rewrite !length_app; done).
    by rewrite take_app_length.
  - rewrite list_find_first by done.
    rewrite last_snoc. simpl.
    rewrite length_app. simpl. rewrite Nat.add_sub.
    rewrite insert_app_r_alt by lia. rewrite Nat.sub_diag. simpl.
    by rewrite take_app_length.
  - destruct (list_find _ l1) as [[i y]|] eqn:Hf; [|done].
    apply list_find_Some in Hf as (Hi & -> & _).
    by apply list_elem_of_lookup_2 in Hi.
Qed.

Lemma removal_moves_last_into_place_witness :
  swap_remove 2 ([1] ++ 2 :: [3; 4] ++ [5]) = [1] ++ 5 :: [3; 4] ∧
  swap_remove 2 ([1] ++ [2]) = [1] ∧
  swap_remove 2 [1] = [1].
Proof.
  apply (removal_moves_last_into_place 2 5 [1] [3; 4]).
  by apply not_elem_of_cons; split; [| apply not_elem_of_nil].
Defined.

(** * The reveal callback *)

(** X17.  A reveal callback that succeeded can be replayed by anyone with
    the same cleartexts and proof: the replay succeeds and changes nothing.
    After the callback the public price fits 64 bits and the slot count 32
    bits. *)
Theorem resolve_can_be_replayed `{FHEVM} e e' i ct pf s s' :
  resolveOfferCallback e i ct pf s = Ok s' →
  resolveOfferCallback e' i ct pf s' = Ok s' ∧
  0 ≤ Offer.publicPrice (getOffer s' i) ≤ MAX_UINT64 ∧
  0 ≤ Offer.slots (getOffer s' i) ≤ MAX_UINT32.
Proof.
  intros Hx. apply resolveOfferCallback_Ok in Hx as (Hi & Hsig & price & slots & Hdec & ->).
  pose proof (abi_decode_range ct price slots Hdec) as [Hp Hs].
  rewrite getOffer_setOffer_eq. cbn. split; [|done].
  unfold resolveOfferCallback.
  rewrite !getOffer_setOffer_eq.
  replace (valid_offer_id (setOffer _ _ s) i) with true
    by (symmetry; by apply valid_offer_id_spec).
  cbn. unfold toBytes32. rewrite Hsig, Hdec. cbn.
  rewrite !getOffer_setOffer_eq. f_equal.
  unfold setOffer, set_offers. cbn. rewrite !insert_insert_eq.
  done.
Qed.

Lemma resolve_can_be_replayed_witness :
  let e := accepting 12 0 1002 in
  let ct := abi_encode_words [100; 1] in
  let s' := step (H := idealFHE) e (TxResolveOfferCallback 1 ct []) sealed_market in
  resolveOfferCallback (H := idealFHE) (accepting 13 0 1003) 1 ct [] s' = Ok s' ∧
  0 ≤ Offer.publicPrice (getOffer s' 1) ≤ MAX_UINT64 ∧
  0 ≤ Offer.slots (getOffer s' 1) ≤ MAX_UINT32.
Proof.
  intros e ct s'.
  apply (resolve_can_be_replayed (H := idealFHE) e (accepting 13 0 1003) 1 ct []
           sealed_market s').
  vm_compute. reflexivity.
Defined.

(** * The read side of the client *)

Lemma getOffer_unknown `{FHEVM} s i :
  reachable s → ¬ (0 < i < nextOfferId s) → getOffer s i = Offer.zero.
Proof.
  intros Hr Hni. pose proof (reachable_ledger_inv s Hr) as Hl.
  unfold getOffer. destruct (offers s !! i) as [o|] eqn:Hs; [|done].
  by apply (inv_offers_range s Hl) in Hs.
Qed.

Lemma getOffer_id `{FHEVM} s i :
  reachable s → 0 < i < nextOfferId s → Offer.id (getOffer s i) = i.
Proof.
  intros Hr Hi. destruct (reachable_accounting s Hr) as (Ho & _).
  apply (off_id s Ho i), getOffer_stored; done.
Qed.

(** The client keeps every offer of a list of created ids. *)
Lemma fetch_created_ids `{FHEVM} s (ids : list Z) :
  reachable s → Forall (fun i => 0 < i < nextOfferId s) ids →
  filter (fun offer => Offer.id offer ≠ 0)
    (map ContractClient.mapOfferStruct (map (fun id => getOffer s id) ids))
  = map (getOffer s) ids.
Proof.
  intros Hr. induction 1 as [|i ids Hi _ IH]; [done|].
  assert (Offer.id (getOffer s i) ≠ 0) as Hne by (rewrite getOffer_id by done; lia).
  cbn. rewrite decide_True by done. f_equal. apply IH.
Qed.

(** X18.  On a reachable ledger the promise of [fetchOfferById] is rejected
    for an id that is not a value of uint256; for an id that is one it
    resolves to the stored offer, which carries the id asked for, when the id
    is that of a created offer, and to nothing for any other id. *)
Theorem fetchOfferById_finds_created_offers `{FHEVM} s i :
  reachable s →
  ContractClient.fetchOfferById s i =
    (if decide (0 ≤ i ≤ MAX_UINT256)
     then ContractClient.Resolved
            (if decide (0 < i < nextOfferId s) then Some (getOffer s i) else None)
     else ContractClient.Rejected) ∧
  (∀ o, ContractClient.fetchOfferById s i = ContractClient.Resolved (Some o) →
        Offer.id o = i).
Proof.
  intros Hr.
  assert (ContractClient.fetchOfferById s i =
    if decide (0 ≤ i ≤ MAX_UINT256)
    then ContractClient.Resolved
           (if decide (0 < i < nextOfferId s) then Some (getOffer s i) else None)
    else ContractClient.Rejected) as Heq.
  { unfold ContractClient.fetchOfferById, ContractClient.mapOfferStruct. cbv zeta.
    destruct (decide (0 ≤ i ≤ MAX_UINT256)) as [Hu|Hnu].
    - rewrite (proj2 (Z.leb_le 0 i)), (proj2 (Z.leb_le i MAX_UINT256)) by lia.
      cbn [andb]. destruct (decide _) as [Hi|Hni].
      + rewrite getOffer_id by done. destruct (Z.eqb_spec i 0); [lia | done].
      + by rewrite getOffer_unknown.
    - destruct (Z.leb_spec 0 i); [|done].
      destruct (Z.leb_spec i MAX_UINT256); [lia | done]. }
  split; [done|]. rewrite Heq. intros o.
  destruct (decide (0 ≤ i ≤ MAX_UINT256)); [|done].
  destruct (decide _); [|done]. intros [= <-]. by apply getOffer_id.
Qed.

Lemma fetchOfferById_finds_created_offers_witness :
  ContractClient.fetchOfferById market 1 =
    (if decide (0 ≤ 1 ≤ MAX_UINT256)
     then ContractClient.Resolved
            (if decide (0 < 1 < nextOfferId market) then Some (getOffer market 1)
             else None)
     else ContractClient.Rejected) ∧
  (∀ o, ContractClient.fetchOfferById market 1 = ContractClient.Resolved (Some o) →
        Offer.id o = 1).
Proof.
  apply (fetchOfferById_finds_created_offers (H := idealFHE) market 1),
    reachable_market.
Defined.

(** X19.  On a reachable ledger [fetchActiveOffers] returns one offer for
    each id of the active list, in the order of the list and none dropped;
    each is the stored offer of its id, is active, and has a slot left. *)
Theorem fetchActiveOffers_lists_open_offers `{FHEVM} s :
  reachable s →
  map Offer.id (ContractClient.fetchActiveOffers s) = getActiveOfferIds s ∧
  Forall (fun o => o = getOffer s (Offer.id o) ∧ Offer.isActive o = true ∧
                   0 < Offer.availableSlots o)
    (ContractClient.fetchActiveOffers s).
Proof.
  intros Hr. pose proof (reachable_ledger_inv s Hr) as Hl.
  destruct (reachable_accounting s Hr) as (Ho & _).
  assert (∀ i, i ∈ activeOfferIds s →
            0 < i < nextOfferId s ∧ Offer.isActive (getOffer s i) = true) as Hact.
  { intros i Hin%(inv_active s Hl). split; [|done].
    by apply is_active_stored, (inv_offers_range s Hl) in Hin. }
  assert (ContractClient.fetchActiveOffers s = map (getOffer s) (activeOfferIds s))
    as ->.
  { unfold ContractClient.fetchActiveOffers, getActiveOfferIds. cbn.
    destruct (activeOfferIds s) as [|i ids] eqn:Hids; [done|].
    apply fetch_created_ids; [done|]. apply Forall_forall.
    intros j Hj. by apply Hact. }
  unfold getActiveOfferIds. split.
  - rewrite map_map. rewrite <- (map_id (activeOfferIds s)) at 2.
    apply map_ext_in. intros i Hin%list_elem_of_In. apply getOffer_id; [done|].
    by apply Hact.
  - apply Forall_forall. intros o (i & -> & Hin)%list_elem_of_fmap.
    destruct (Hact i Hin) as [Hi Hon].
    rewrite getOffer_id by done. split_and!; [done | done |].
    by apply (off_active_slots s Ho i _ (is_active_stored s i Hon)).
Qed.

Lemma fetchActiveOffers_lists_open_offers_witness :
  map Offer.id (ContractClient.fetchActiveOffers market) = getActiveOfferIds market ∧
  Forall (fun o => o = getOffer market (Offer.id o) ∧ Offer.isActive o = true ∧
                   0 < Offer.availableSlots o)
    (ContractClient.fetchActiveOffers market).
Proof.
  apply (fetchActiveOffers_lists_open_offers (H := idealFHE) market),
    reachable_market.
Defined.

(** X20.  On a reachable ledger [fetchOffersByCreator] returns exactly the
    offers the account created: one stored offer per id of the account's
    index, in order, each with that creator, and every created offer with
    that creator is among them. *)
Theorem fetchOffersByCreator_lists_own_offers `{FHEVM} s a :
  reachable s →
  map Offer.id (ContractClient.fetchOffersByCreator s a) = getUserOffers s a ∧
  Forall (fun o => o = getOffer s (Offer.id o) ∧ Offer.creator o = a)
    (ContractClient.fetchOffersByCreator s a) ∧
  (∀ i, 0 < i < nextOfferId s → Offer.creator (getOffer s i) = a →
        getOffer s i ∈ ContractClient.fetchOffersByCreator s a).
Proof.
  intros Hr. pose proof (reachable_ledger_inv s Hr) as Hl.
  destruct (reachable_accounting s Hr) as (Ho & _ & Hx & _).
  assert (∀ i, i ∈ getUserOffers s a ↔
            0 < i < nextOfferId s ∧ Offer.creator (getOffer s i) = a) as Hidx.
  { intros i. rewrite (idx_offers s Hx). split.
    - intros (o & Hs & Hc). split; [apply (inv_offers_range s Hl i o Hs)|].
      by rewrite (getOffer_lookup s i o Hs).
    - intros [Hi Hc]. exists (getOffer s i). split; [|done].
      by apply getOffer_stored. }
  assert (ContractClient.fetchOffersByCreator s a = map (getOffer s) (getUserOffers s a))
    as ->.
  { unfold ContractClient.fetchOffersByCreator. cbv zeta.
    destruct (getUserOffers s a) as [|i ids] eqn:Hids; [done|].
    apply fetch_created_ids; [done|]. apply Forall_forall.
    intros j Hj. by apply Hidx. }
  split_and!.
  - rewrite map_map. rewrite <- (map_id (getUserOffers s a)) at 2.
    apply map_ext_in. intros i Hin%list_elem_of_In. apply getOffer_id; [done|].
    by apply Hidx.
  - apply Forall_forall. intros o (i & -> & Hin)%list_elem_of_fmap.
    destruct (proj1 (Hidx i) Hin) as [Hi Hc].
    by rewrite getOffer_id.
  - intros i Hi Hc. apply list_elem_of_fmap. exists i. split; [done|].
    by apply Hidx.
Qed.

Lemma fetchOffersByCreator_lists_own_offers_witness :
  map Offer.id (ContractClient.fetchOffersByCreator market 10) = getUserOffers market 10 ∧
  Forall (fun o => o = getOffer market (Offer.id o) ∧ Offer.creator o = 10)
    (ContractClient.fetchOffersByCreator market 10) ∧
  (∀ i, 0 < i < nextOfferId market → Offer.creator (getOffer market i) = 10 →
        getOffer market i ∈ ContractClient.fetchOffersByCreator market 10).
Proof.
  apply (fetchOffersByCreator_lists_own_offers (H := idealFHE) market 10),
    reachable_market.
Defined.

(** * The purchase history of the client *)

Lemma pretty_N_go_no_dash x s : no_dash s → no_dash (pretty_N_go x s).
Proof.
  revert s. induction (N.lt_wf_0 x) as [x _ IH]; intros s Hs.
  assert (x = 0 ∨ 0 < x)%N as [->|?] by lia.
  - by rewrite pretty_N_go_0.
  - rewrite pretty_N_go_step by done. apply IH.
    { by apply N.div_lt. }
    split; [|done]. unfold pretty_N_char. by repeat case_match.
Qed.

Lemma pretty_Z_no_dash (z : Z) : 0 ≤ z → no_dash (pretty z).
Proof.
  destruct z as [|p|p]; [done | | lia]. intros _.
  unfold pretty, pretty_Z, pretty, pretty_positive, pretty, pretty_N.
  rewrite decide_False by done. by apply pretty_N_go_no_dash.
Qed.

Lemma split_at_dash a a' b b' :
  no_dash a → no_dash a' →
  a +:+ String dash b = a' +:+ String dash b' → a = a' ∧ b = b'.
Proof.
  revert a'. induction a as [|c a IH]; intros [|c' a']; cbn.
  - by intros _ _ [= ->].
  - intros _ [Hc _] [= Heq _]. by destruct Hc.
  - intros [Hc _] _ [= Heq _]. by destruct Hc.
  - intros [_ Ha] [_ Ha'] [= -> Heq]. destruct (IH a' Ha Ha' Heq) as [-> ->]. done.
Qed.

(** X21.  The composite key of the purchase history is injective on
    amounts that are not negative: two keys are equal only if the offer
    id, the slots, the total price and the timestamp are all equal. *)
Theorem purchase_key_is_injective a b c d a' b' c' d' :
  0 ≤ a → 0 ≤ b → 0 ≤ c → 0 ≤ a' → 0 ≤ b' → 0 ≤ c' →
  Indexer.buildPurchaseKey a b c d = Indexer.buildPurchaseKey a' b' c' d' →
  a = a' ∧ b = b' ∧ c = c' ∧ d = d'.
Proof.
  intros Ha Hb Hc Ha' Hb' Hc'. unfold Indexer.buildPurchaseKey.
  change ("-" +:+ ?x) with (String dash x).
  intros [Ea H1]%split_at_dash; [|by apply pretty_Z_no_dash..].
  apply split_at_dash in H1 as [Eb H2]; [|by apply pretty_Z_no_dash..].
  apply split_at_dash in H2 as [Ec Ed]; [|by apply pretty_Z_no_dash..].
  by apply (inj pretty) in Ea, Eb, Ec, Ed.
Qed.

Lemma purchase_key_is_injective_witness :
  1 = 1 ∧ 2 = 2 ∧ 200 = 200 ∧ 1001 = 1001.
Proof.
  apply (purchase_key_is_injective 1 2 200 1001 1 2 200 1001);
    [lia .. | reflexivity].
Defined.

Lemma eventMap_last logs key :
  Indexer.eventMap logs !! key =
  Indexer.transactionHash <$>
    last (filter (fun log => Indexer.logKey log = Some key) logs).
Proof.
  induction logs as [|log logs IH] using rev_ind; [done|].
  rewrite IndexerFacts.eventMap_snoc, filter_app, filter_cons, filter_nil.
  destruct (decide (Indexer.logKey log = Some key)) as [Hk|Hk].
  - rewrite Hk, last_snoc. cbn. by rewrite lookup_insert_eq.
  - rewrite app_nil_r. destruct (Indexer.logKey log) as [key'|]; [|done].
    rewrite lookup_insert_ne; [done | congruence].
Qed.

(** X22.  The transaction hash of an entry of the purchase history is the
    hash of the last log whose arguments parse and whose key, built with
    timestamp 0 when its block is missing, is the key of the purchase;
    without such a log the entry has no hash. *)
Theorem history_hash_is_last_matching_log s logs b :
  Forall (fun it =>
      Indexer.txHash it =
      Indexer.transactionHash <$>
        last (filter (fun log => Indexer.logKey log =
                                 Some (Indexer.purchaseKey (Indexer.purchase it))) logs))
    (Indexer.fetchPurchaseHistory s logs b).
Proof.
  rewrite IndexerFacts.fetchPurchaseHistory_map. apply Forall_forall.
  intros it (p & -> & _)%list_elem_of_fmap. cbn. apply eventMap_last.
Qed.

Lemma offersMap_lookup s (ps : list (Z * Purchase.t)) p :
  p ∈ ps →
  Indexer.offersMap s ps !! Purchase.offerId p.2 =
  Some (getOffer s (Purchase.offerId p.2)).
Proof.
  intros Hin. unfold Indexer.offersMap. apply elem_of_list_to_map_1.
  - rewrite <- list_fmap_compose.
    replace (fmap _ _) with
      (remove_dups (map (fun p : Z * Purchase.t => Purchase.offerId p.2) ps)).
    + apply NoDup_remove_dups.
    + symmetry. apply list_fmap_id.
  - apply list_elem_of_fmap.
    exists (Purchase.offerId p.2). split; [done|].
    apply elem_of_remove_dups, list_elem_of_fmap. by exists p.
Qed.

(** X23.  On a reachable ledger the purchase history of an account has one
    entry per id of the account's purchase index, in order, whatever the log
    store returned; each entry carries the stored purchase record of its id,
    bought by that account, joined with the stored offer it refers to. *)
Theorem history_joins_every_purchase `{FHEVM} s logs b :
  reachable s →
  map Indexer.id (Indexer.fetchPurchaseHistory s logs b) = getUserPurchases s b ∧
  Forall (fun it =>
      let p := Indexer.purchase it in
      p = getPurchase s (Indexer.id it) ∧
      Purchase.buyer p = b ∧
      Indexer.offer it = Some (getOffer s (Purchase.offerId p)) ∧
      Offer.id (getOffer s (Purchase.offerId p)) = Purchase.offerId p)
    (Indexer.fetchPurchaseHistory s logs b).
Proof.
  intros Hr. destruct (reachable_accounting s Hr) as (_ & Hp & Hx & _).
  rewrite IndexerFacts.fetchPurchaseHistory_map. unfold Indexer.purchaseStructs.
  split.
  - rewrite !map_map. cbn. apply map_id.
  - apply Forall_forall.
    intros it (p & -> & Hin)%list_elem_of_fmap. cbn.
    pose proof Hin as (j & -> & Hj)%list_elem_of_fmap. cbn.
    apply (idx_purchases s Hx) in Hj as (q & Hs & Hb).
    assert (getPurchase s j = q) as Hq by (unfold getPurchase; by rewrite Hs).
    destruct (pur_valid s Hp j q Hs) as (Hoid & _).
    rewrite Hq. split_and!; [done | done | |].
    + pose proof (offersMap_lookup s _ _ Hin) as Hl. cbn in Hl.
      by rewrite Hq in Hl.
    + by apply getOffer_id.
Qed.

Lemma history_joins_every_purchase_witness :
  map Indexer.id (Indexer.fetchPurchaseHistory bought_apart first_log 11) =
    getUserPurchases bought_apart 11 ∧
  Forall (fun it =>
      let p := Indexer.purchase it in
      p = getPurchase bought_apart (Indexer.id it) ∧
      Purchase.buyer p = 11 ∧
      Indexer.offer it = Some (getOffer bought_apart (Purchase.offerId p)) ∧
      Offer.id (getOffer bought_apart (Purchase.offerId p)) = Purchase.offerId p)
    (Indexer.fetchPurchaseHistory bought_apart first_log 11).
Proof.
  apply (history_joins_every_purchase (H := idealFHE) bought_apart first_log 11),
    reachable_bought_apart.
Defined.

(** * The statistics of a creator's page *)

(** X24.  For an offer whose [slots] field still is the slot count of its
    creation event, the sold slots the creator's page computes are the slots
    of the purchase records of that offer. *)
Theorem page_counts_recorded_sales `{FHEVM} s i c t p d sl :
  reachable s →
  OfferCreated i c t p d sl ∈ events s →
  Offer.slots (getOffer s i) = sl →
  MyOffers.soldSlots (getOffer s i) = sold_slots s i.
Proof.
  intros Hr Hev Hsl.
  destruct (reachable_accounting s Hr) as (Ho & Hp & _ & _ & He).
  destruct (ev_created s He _ _ _ _ _ _ Hev) as (Hi & _ & Hsum).
  pose proof (sold_slots_nonneg s i Hp) as Hnn.
  unfold MyOffers.soldSlots. case_match; lia.
Qed.

Lemma page_counts_recorded_sales_witness :
  MyOffers.soldSlots (getOffer bought_apart 1) = sold_slots bought_apart 1.
Proof.
  apply (page_counts_recorded_sales (H := idealFHE) bought_apart 1 10 "t" 100 1 5).
  - apply reachable_bought_apart.
  - vm_compute. apply list_elem_of_here.
  - by vm_compute.
Defined.

(** * Prices and times of the recorded purchases *)

Lemma effect_timely e s s' :
  purchases_inv s → timely s → effect e s s' → timely s'.
Proof.
  intros Hp IH He j p.
  assert (∀ q, purchases s !! j = Some q →
            0 < Purchase.offerId q < nextOfferId s) as Hvalid.
  { intros q Hq. by destruct (pur_valid s Hp j q Hq) as (? & _). }
  destruct He as [| i k Hi Hk Hg | i o' act pd evs Hi Hkept |].
  + cbn. intros Hs. rewrite getOffer_create_result.
    destruct (decide _) as [Heq|]; [|by eapply IH].
    specialize (Hvalid p Hs). lia.
  + cbn. intros Hs. rewrite getOffer_purchase_result.
    assert (Offer.expiresAt (purchased_offer (getOffer s i) k) =
            Offer.expiresAt (getOffer s i)) as Hexp.
    { unfold purchased_offer. by case_match. }
    apply lookup_insert_Some in Hs as [[<- <-] | [_ Hs]]; cbn.
    * rewrite decide_True by done. rewrite Hexp.
      by destruct Hg as (_ & _ & _ & ? & _).
    * destruct (decide _) as [Heq|]; [rewrite Hexp, Heq|]; by eapply IH.
  + cbn. intros Hs. rewrite getOffer_amend_result.
    destruct (decide _) as [Heq|]; [|by eapply IH].
    destruct Hkept as (_&_&_&_&_&_&_&->&_). rewrite Heq. by eapply IH.
  + cbn. intros Hs. rewrite getOffer_config_result. by eapply IH.
Qed.

Lemma trace_timely `{FHEVM} s s' :
  trace (fun _ tx => tx_wf tx) s s' → ∀ p, sound p s → timely s → timely s'.
Proof.
  induction 1 as [s | s1 s2 s3 T1 IH1 _ IH2 | e tx s s' Hwf Hnp Hx
                 | e i k s s1 s2 s3 _ Hl Hi Hk Hg Hfa Hfb T1 IH1 Hcb T2 IH2 Hrb T3 IH3
                 | e s s' _ Ho Hb _ IH]; intros p Hs Ht.
  - done.
  - apply (IH2 p); [by apply (trace_sound _ _ T1) | by apply (IH1 p)].
  - destruct Hs as (_ & _ & Hp & _).
    apply (effect_timely e s s'); [by destruct Hp; split | done |].
    by eapply exec_effect.
  - set (pev := OfferPurchased i (msg_sender e) k (price_of s i k)
                  (Offer.availableSlots (getOffer s i) - k)).
    pose proof (purchase_written_sound p e i k s Hi Hk Hg Hs) as Hw. fold pev in Hw.
    assert (timely (purchase_written e i k s)) as Htw.
    { destruct Hs as (_ & _ & Hp & _).
      apply (effect_timely e s (purchase_result e i k s));
        [by destruct Hp; split | done | by constructor]. }
    assert (sound (pev :: p) s1 ∧ timely s1) as [Hs1 Ht1].
    { split; [apply (trace_sound _ _ T1) | apply (IH1 (pev :: p))];
        by destruct (0 <? fee_of s i k). }
    assert (sound (pev :: p) s2 ∧ timely s2) as [Hs2 Ht2].
    { split; [apply (trace_sound _ _ T2) | apply (IH2 (pev :: p))]; done. }
    apply (IH3 (pev :: p)); by destruct (price_of s i k <? msg_value e).
  - by apply (IH p).
Qed.

Lemma purchase_before_expiry `{FHEVM} s : reachable s → timely s.
Proof.
  induction 1 as [d tr s _ _ _ Hd | e tx s Hr IH He Htx | a s Hr IH _].
  - unfold deploy in Hd. apply bind_Ok in Hd as (_ & _ & [= <-]).
    intros j p. cbn. by rewrite lookup_empty.
  - unfold step. destruct (exec e tx s) as [s'|] eqn:Hx; [|done].
    apply (trace_timely s s' (exec_trace _ e tx s s' (env_wf_calls e tx He Htx) Hx) []);
      [|done].
    apply sound_nil; [by apply reachable_ledger_inv | by apply reachable_accounting].
  - done.
Qed.

(** X25.  No purchase is recorded after the expiry of its offer: the
    timestamp of every purchase record is at most the [expiresAt] of the
    offer it refers to. *)
Theorem no_purchase_after_expiry `{FHEVM} s j :
  reachable s → 0 < j < nextPurchaseId s →
  let p := getPurchase s j in
  Purchase.timestamp p ≤ Offer.expiresAt (getOffer s (Purchase.offerId p)).
Proof.
  intros Hr Hj p. destruct (reachable_accounting s Hr) as (_ & Hp & _).
  apply (purchase_before_expiry s Hr j). by apply getPurchase_stored.
Qed.

Lemma no_purchase_after_expiry_witness :
  let p := getPurchase bought_apart 2 in
  Purchase.timestamp p ≤ Offer.expiresAt (getOffer bought_apart (Purchase.offerId p)).
Proof.
  apply (no_purchase_after_expiry (H := idealFHE) bought_apart 2).
  - apply reachable_bought_apart.
  - by vm_compute.
Defined.

(** X26.  The platform takes at most a tenth: for the price of an offer of
    a reachable ledger and its platform fee, the fee of a purchase is not
    negative and at most 10% of the total price, and the creator receives
    the rest. *)
Theorem fee_is_at_most_a_tenth `{FHEVM} s i k tp fa ca :
  reachable s → 0 ≤ k →
  purchase_amounts (Offer.publicPrice (getOffer s i)) k (platformFee s)
    = Ok (tp, fa, ca) →
  tp = Offer.publicPrice (getOffer s i) * k ∧
  0 ≤ fa ∧ 10 * fa ≤ tp ∧ ca = tp - fa ∧ 9 * tp ≤ 10 * ca.
Proof.
  intros Hr Hk Hx. pose proof (reachable_ledger_inv s Hr) as Hl.
  destruct (reachable_accounting s Hr) as (Ho & _ & _ & Hf & _).
  apply purchase_amounts_Ok in Hx as (-> & -> & -> & _).
  pose proof (fund_fee s Hf) as Hfee.
  assert (0 ≤ Offer.publicPrice (getOffer s i)) as Hprice.
  { unfold getOffer. destruct (offers s !! i) as [o|] eqn:Hs; [|done].
    apply (off_nonneg s Ho i o Hs). }
  set (tp := Offer.publicPrice (getOffer s i) * k).
  assert (0 ≤ tp) by (unfold tp; nia).
  assert (0 ≤ (tp * platformFee s) `div` 10000) by (apply Z.div_pos; nia).
  assert (10 * ((tp * platformFee s) `div` 10000) ≤ tp).
  { assert ((tp * platformFee s) `div` 10000 ≤ (tp * 1000) `div` 10000)
      by (apply Z.div_le_mono; nia).
    assert ((tp * 1000) `div` 10000 = tp `div` 10) as Hdiv.
    { replace 10000 with (10 * 1000) by lia. apply Z.div_mul_cancel_r; lia. }
    pose proof (Z.mul_div_le tp 10). lia. }
  split_and!; try done; lia.
Qed.

Lemma fee_is_at_most_a_tenth_witness :
  200 = Offer.publicPrice (getOffer market 1) * 2 ∧
  0 ≤ 10 ∧ 10 * 10 ≤ 200 ∧ 190 = 200 - 10 ∧ 9 * 200 ≤ 10 * 190.
Proof.
  apply (fee_is_at_most_a_tenth (H := idealFHE) market 1 2 200 10 190).
  - apply reachable_market.
  - lia.
  - vm_compute. reflexivity.
Defined.
